(** * FileFlow (src/App.tsx): rendezvous signalling and chunked transfer

    A shallow embedding of the non-presentational logic of [App.tsx]:
    the receive handler [handleReceiveMessage], the sender loop
    [sendFileInChunks], the session handlers [handleFileChange],
    [handleReceiveSubmit], [handleCancel], [resetState] and the two
    [onSnapshot] listeners, over
    - JavaScript numbers as IEEE 754 binary64 values ([spec_float]),
    - the Firestore collection as a finite map from document paths to
      documents,
    - the peer connection as an abstract interface ([Transport]),
    - React state as an explicit record, with every closure carrying the
      render whose bindings it captured. *)

From Stdlib Require Import ZArith Lia Bool Ascii String List.
From Stdlib Require Import Floats.SpecFloat.
From stdpp Require Import base option list strings gmap.

Local Open Scope Z_scope.
Set Warnings "-register-all".

(* ===================================================================== *)
(** * JavaScript values *)
(* ===================================================================== *)

Module JS.

(** ** Numbers: IEEE 754 binary64 *)

Definition prec : Z := 53.
Definition emax : Z := 1024.

Abbreviation number := spec_float.

Definition NaN : number := S754_nan.
Definition Infinity : number := S754_infinity false.

(** The Number value of a mathematical integer (round to nearest, ties to
    even; exact below 2^53). *)
Definition of_Z (z : Z) : number := binary_normalize prec emax z 0 false.

(** [x / y] and [x * y]. *)
Definition div (x y : number) : number := SFdiv prec emax x y.
Definition mul (x y : number) : number := SFmul prec emax x y.

(** [x === y] on two Numbers: NaN differs from everything, +0 equals -0. *)
Definition strict_equals (x y : number) : bool := SFeqb x y.

(** The Number value of the decimal literal [(-1)^neg * m * 10^e10],
    correctly rounded. *)
Definition of_decimal (neg : bool) (m : Z) (e10 : Z) : number :=
  match m with
  | Zpos _ =>
      if 0 <=? e10
      then binary_normalize prec emax (cond_Zopp neg (m * 10 ^ e10)) 0 neg
      else
        let '(q, e', l) :=
          SFdiv_core_binary prec emax m 0 (10 ^ (- e10)) 0 in
        binary_round_aux prec emax neg q e' l
  | _ => S754_zero neg
  end.

(** [Math.round(x)]: the integral Number closest to [x], ties towards
    +Infinity; NaN, the infinities and the zeros are returned unchanged,
    and a negative [x] that rounds to zero gives -0. *)
Definition round_half_up (s : bool) (m : positive) (e : Z) : Z :=
  let n := cond_Zopp s (Zpos m) in
  if 0 <=? e then n * 2 ^ e
  else (2 * n + 2 ^ (- e)) / 2 ^ (- e + 1).

Definition Math_round (x : number) : number :=
  match x with
  | S754_finite s m e =>
      match round_half_up s m e with
      | Z0 => S754_zero s
      | n => of_Z n
      end
  | _ => x
  end.

(** The mathematical integer a Number denotes, when it denotes one. *)
Definition int_value (x : number) : option Z :=
  match x with
  | S754_zero _ => Some 0
  | S754_finite s m e =>
      if 0 <=? e then Some (cond_Zopp s (Zpos m * 2 ^ e))
      else if Zpos m mod 2 ^ (- e) =? 0
           then Some (cond_Zopp s (Zpos m / 2 ^ (- e)))
           else None
  | _ => None
  end.

(** ** Values that [JSON.parse] can return, and [undefined] *)

Inductive value :=
| Undefined
| Null
| Bool (b : bool)
| Num (x : number)
| Str (s : string)
| Arr (elems : list value)
| Obj (fields : list (string * value)).

Inductive error := TypeError | SyntaxError.

(** An expression either yields a value or throws. *)
Inductive completion (A : Type) :=
| Normal (a : A)
| Throw (e : error).
Arguments Normal {A} a.
Arguments Throw {A} e.

Fixpoint assoc (k : string) (fields : list (string * value)) : option value :=
  match fields with
  | [] => None
  | (k', v) :: rest => if String.eqb k k' then Some v else assoc k rest
  end.

(** [v.k] for the two keys the program reads, [name] and [size]: reading a
    property of [null] or [undefined] throws a TypeError; an object gives
    its own field or [undefined]; numbers, strings, booleans and arrays
    have neither property. *)
Definition get (v : value) (k : string) : completion value :=
  match v with
  | Undefined | Null => Throw TypeError
  | Obj fields => Normal (default Undefined (assoc k fields))
  | _ => Normal Undefined
  end.

(** [c === v] where [c] is a Number: no coercion, so only a Number can be
    equal to it. *)
Definition strict_equals_num (c : number) (v : value) : bool :=
  match v with
  | Num x => strict_equals c x
  | _ => false
  end.

(** Truthiness of a string: only the empty string is falsy. *)
Definition truthy_string (s : string) : bool :=
  match s with
  | EmptyString => false
  | _ => true
  end.

(** [parts.join(sep)] on strings. *)
Fixpoint join (sep : string) (l : list string) : string :=
  match l with
  | [] => EmptyString
  | [s] => s
  | s :: rest => s +:+ sep +:+ join sep rest
  end.

(** [s.substring(a, b)] for [0 <= a <= b]. *)
Definition substring (a b : nat) (s : string) : string :=
  String.substring a (b - a) s.

End JS.

(** ** Built-ins whose results are strings or come from strings

    [JSON.parse], [JSON.stringify], [Number.prototype.toString] and the
    reading of a string as a Number belong to the host, not to the
    program.  The handlers are written against this interface;
    [ECMAScript] below is the instance used to evaluate them. *)

Class Runtime := {
  (** [JSON.parse(text)]; [None] when it throws a SyntaxError. *)
  JSON_parse : string -> option JS.value;
  (** [JSON.stringify(v)]. *)
  JSON_stringify : JS.value -> string;
  (** [x.toString()] on a Number. *)
  Number_toString : JS.number -> string;
  (** [StringToNumber(s)], the Number a string is coerced to. *)
  StringToNumber : string -> JS.number;
}.

(** ** Coercions *)

Section Coercions.

Context {RT : Runtime}.

(** [ToString(v)], as a template literal and the [download] attribute
    apply it.  An array is joined with commas, [null] and [undefined]
    elements giving the empty string.  An object is [[object Object]]
    unless it has a field [toString] of its own: that field is not a
    function, neither is a [valueOf] of its own, and the inherited
    [valueOf] returns the object, so no primitive is found and a
    TypeError is thrown. *)
Fixpoint ToString (v : JS.value) : JS.completion string :=
  match v with
  | JS.Undefined => JS.Normal "undefined"
  | JS.Null => JS.Normal "null"
  | JS.Bool b => JS.Normal (if b then "true" else "false")
  | JS.Num x => JS.Normal (Number_toString x)
  | JS.Str s => JS.Normal s
  | JS.Arr elems =>
      match
        (fix elements (l : list JS.value) : JS.completion (list string) :=
           match l with
           | [] => JS.Normal []
           | v :: rest =>
               match match v with
                     | JS.Undefined | JS.Null => JS.Normal EmptyString
                     | _ => ToString v
                     end with
               | JS.Throw e => JS.Throw e
               | JS.Normal s =>
                   match elements rest with
                   | JS.Throw e => JS.Throw e
                   | JS.Normal ss => JS.Normal (s :: ss)
                   end
               end
           end) elems
      with
      | JS.Throw e => JS.Throw e
      | JS.Normal parts => JS.Normal (JS.join "," parts)
      end
  | JS.Obj fields =>
      match JS.assoc "toString" fields with
      | Some _ => JS.Throw JS.TypeError
      | None => JS.Normal "[object Object]"
      end
  end.

(** [ToNumber(v)], as [/] applies it to its operands.  Objects and
    arrays are first brought to the string [ToString] gives. *)
Definition ToNumber (v : JS.value) : JS.completion JS.number :=
  match v with
  | JS.Undefined => JS.Normal JS.NaN
  | JS.Null => JS.Normal (S754_zero false)
  | JS.Bool b => JS.Normal (if b then JS.of_Z 1 else S754_zero false)
  | JS.Num x => JS.Normal x
  | JS.Str s => JS.Normal (StringToNumber s)
  | JS.Arr _ | JS.Obj _ =>
      match ToString v with
      | JS.Throw e => JS.Throw e
      | JS.Normal s => JS.Normal (StringToNumber s)
      end
  end.

End Coercions.

(* ===================================================================== *)
(** * The rendezvous record store (Firestore) *)
(* ===================================================================== *)

(** A session description as written to the record: [{ sdp, type }]. *)
Record SessionDescription := { sdp : string; type : string }.

(** [candidate.toJSON()]. *)
Record IceCandidate := {
  candidate : string;
  sdpMid : string;
  sdpMLineIndex : Z;
}.

#[global] Instance SessionDescription_eq_dec : EqDecision SessionDescription.
Proof. solve_decision. Defined.
#[global] Instance IceCandidate_eq_dec : EqDecision IceCandidate.
Proof. solve_decision. Defined.

(** The rendezvous record.  Every field may be missing from the
    document. *)
Record Doc := {
  offer : option SessionDescription;
  offerCandidates : option (list IceCandidate);
  answer : option SessionDescription;
  answerCandidates : option (list IceCandidate);
}.

(** A document reference is its path. *)
Abbreviation DocRef := (list string).

Module Firestore.

(** [setDoc(ref, data)]: creates the document or overwrites it. *)
Definition setDoc (ref : DocRef) (data : Doc) (db : gmap DocRef Doc)
  : gmap DocRef Doc := <[ref := data]> db.

(** [updateDoc(ref, fields)]: rewrites fields of an existing document;
    the returned promise rejects ([None]) when there is no document. *)
Definition updateDoc (ref : DocRef) (fields : Doc -> Doc)
    (db : gmap DocRef Doc) : option (gmap DocRef Doc) :=
  match db !! ref with
  | Some d => Some (<[ref := fields d]> db)
  | None => None
  end.

(** [deleteDoc(ref)]. *)
Definition deleteDoc (ref : DocRef) (db : gmap DocRef Doc)
  : gmap DocRef Doc := delete ref db.

(** [arrayUnion(c)] applied to an array field: [c] is appended unless an
    equal element is already there; a missing field becomes [[c]]. *)
Definition arrayUnion (c : IceCandidate) (field : option (list IceCandidate))
  : option (list IceCandidate) :=
  match field with
  | Some l => Some (if decide (c ∈ l) then l else l ++ [c])
  | None => Some [c]
  end.

End Firestore.

(* ===================================================================== *)
(** * The peer connection *)
(* ===================================================================== *)

(** The part of [RTCPeerConnection] the program uses.  Its state is kept
    abstract; the program reads one attribute of it,
    [currentRemoteDescription].  A method gives the connection as the
    call leaves it: whether [currentRemoteDescription] shows a description
    as soon as [setRemoteDescription] has been called with it, or only
    once the operation has completed, is up to the transport. *)
Class Transport := {
  RTCPeerConnection : Type;
  (** [new RTCPeerConnection(servers)] *)
  new_RTCPeerConnection : RTCPeerConnection;
  currentRemoteDescription : RTCPeerConnection -> option SessionDescription;
  setRemoteDescription :
    SessionDescription -> RTCPeerConnection -> RTCPeerConnection;
  setLocalDescription :
    SessionDescription -> RTCPeerConnection -> RTCPeerConnection;
  createOffer : RTCPeerConnection -> SessionDescription;
  createAnswer : RTCPeerConnection -> SessionDescription;
  addIceCandidate : IceCandidate -> RTCPeerConnection -> RTCPeerConnection;
  createDataChannel : string -> RTCPeerConnection -> RTCPeerConnection;
}.

(** The candidate [c] has been handed to the connection: by a call of
    [addIceCandidate], after which the listeners may have made any of
    their other calls. *)
Inductive applied {T : Transport} (c : IceCandidate)
  : RTCPeerConnection -> Prop :=
| applied_now pc : applied c (addIceCandidate c pc)
| applied_candidate c' pc : applied c pc -> applied c (addIceCandidate c' pc)
| applied_remote d pc : applied c pc -> applied c (setRemoteDescription d pc)
| applied_local d pc : applied c pc -> applied c (setLocalDescription d pc).

(** Idempotent apply, which the listeners leave to the transport: a
    connection that is handed a candidate it has been handed before stays
    as it is. *)
Class IdempotentApply (T : Transport) : Prop :=
  reapply : forall c pc, applied c pc -> addIceCandidate c pc = pc.

(* ===================================================================== *)
(** * The application state *)
(* ===================================================================== *)

Abbreviation bytes := (list Byte.byte).

(** A [File]: its name and its content; [file.size] is the length of the
    content. *)
Record File := { name : string; content : bytes }.

Definition size (f : File) : nat := length (content f).

(** [blob.slice(start, end)] for non-negative bounds: the bytes from
    [start] up to, not including, [end], both clamped to the size. *)
Definition Blob_slice (start stop : nat) (b : bytes) : bytes :=
  take (stop - start) (drop start b).

(** [new Blob(parts)]: the parts one after the other. *)
Definition Blob (parts : list bytes) : bytes := concat parts.

(** A payload delivered by [onmessage]: a string, an [ArrayBuffer], or
    anything else (a [Blob] when the channel's [binaryType] is not
    [arraybuffer]). *)
Inductive Message :=
| Text (s : string)
| Binary (b : bytes)
| OtherData.

Inductive Mode := idle | sending | receiving | transfer.

(** The status line, one constructor per string the program sets. *)
Inductive Status :=
| WaitingForConnection
| GeneratingShareCode
| ConnectionOpenSending
| ConnectionClosed
| ShareCodeGenerated
| ReceiverConnected
| ConnectingWithCode (code : string)
| ConnectionOpenReady
| OfferReceived
| AnswerSent
| FileSent
| ReceivingFile (name : string)
| Downloading (progress : JS.number)
| FileReceived
| FileDownloaded.

(** The values of the [useState] hooks.  A render of [App] binds these as
    constants; every function defined in the component body during that
    render sees the values of that render, whatever [setState] calls
    happen afterwards. *)
Record ReactState := {
  mode : Mode;
  status : Status;
  showReceiveModal : bool;
  shareCode : string;
  file : option File;
}.

(** Functions the program stores for later, each with the render in which
    it was created where it reads one of that render's bindings. *)
Inductive Callback :=
(** [dataChannel.onopen] set by [handleFileChange]: it calls that render's
    [sendFileInChunks(selectedFile)]. *)
| SendOnOpen (render : ReactState) (selectedFile : File)
(** [dataChannel.onopen] set by the responder's [ondatachannel]. *)
| ReceiveOnOpen
(** The function [sendFileInChunks] passes to [setTimeout]; it reads the
    [shareCode] of the render [sendFileInChunks] belongs to. *)
| SenderTeardown (render : ReactState)
(** The function [handleReceiveMessage] passes to [setTimeout]. *)
| ReceiverTeardown.

(** The two [onSnapshot] callbacks; nothing ever unsubscribes them. *)
Inductive Listener :=
| InitiatorListener (callDocRef : DocRef)
| ResponderListener (callDocRef : DocRef).

(** [peerConnection.onicecandidate]: which field of which record local
    candidates are appended to. *)
Inductive IceHandler :=
| ToOfferCandidates (callDocRef : DocRef)
| ToAnswerCandidates (callDocRef : DocRef).

Record RTCDataChannel := {
  onopen : option Callback;
  (** whether [onmessage] is [handleReceiveMessage] *)
  onmessage : bool;
  (** what [send] has been given, oldest first *)
  sent : list Message;
}.

(** Calls made on the collaborators, oldest first. *)
Inductive Call :=
| CallSetRemoteDescription (d : SessionDescription)
| CallSetLocalDescription (d : SessionDescription)
| CallAddIceCandidate (c : IceCandidate)
| CallClosePeerConnection
| CallCloseDataChannel
| CallSetDoc (ref : DocRef)
| CallUpdateDoc (ref : DocRef)
| CallDeleteDoc (ref : DocRef).

#[global] Instance Call_eq_dec : EqDecision Call.
Proof. solve_decision. Defined.

(** A file handed to the browser for download. *)
Record Download := { download : string; fileBlob : bytes }.

Section App.

Context {RT : Runtime} {TR : Transport}.

(** Firestore path of the record for a share code. *)
Variable app_id : string.

(** The [useRef] cells. *)
Record Refs := {
  peerConnection : option RTCPeerConnection;
  onicecandidate : option IceHandler;
  dataChannel : option RTCDataChannel;
  receivedChunks : list bytes;
  receivedFileSize : Z;
  fileMetadata : JS.value;
}.

Record World := {
  (** the state the next render will bind *)
  react : ReactState;
  refs : Refs;
  (** the collection [artifacts/<app_id>/public/data/file_transfer] *)
  db : gmap DocRef Doc;
  listeners : list Listener;
  (** callbacks given to [setTimeout] and not yet run *)
  timers : list Callback;
  downloads : list Download;
  calls : list Call;
}.

(** *** Field updates *)

Definition setMode (m : Mode) (w : World) : World :=
  {| react := {| mode := m; status := status (react w);
                 showReceiveModal := showReceiveModal (react w);
                 shareCode := shareCode (react w); file := file (react w) |};
     refs := refs w; db := db w; listeners := listeners w;
     timers := timers w; downloads := downloads w; calls := calls w |}.

Definition setStatus (s : Status) (w : World) : World :=
  {| react := {| mode := mode (react w); status := s;
                 showReceiveModal := showReceiveModal (react w);
                 shareCode := shareCode (react w); file := file (react w) |};
     refs := refs w; db := db w; listeners := listeners w;
     timers := timers w; downloads := downloads w; calls := calls w |}.

Definition setShowReceiveModal (b : bool) (w : World) : World :=
  {| react := {| mode := mode (react w); status := status (react w);
                 showReceiveModal := b;
                 shareCode := shareCode (react w); file := file (react w) |};
     refs := refs w; db := db w; listeners := listeners w;
     timers := timers w; downloads := downloads w; calls := calls w |}.

Definition setShareCode (c : string) (w : World) : World :=
  {| react := {| mode := mode (react w); status := status (react w);
                 showReceiveModal := showReceiveModal (react w);
                 shareCode := c; file := file (react w) |};
     refs := refs w; db := db w; listeners := listeners w;
     timers := timers w; downloads := downloads w; calls := calls w |}.

Definition setFile (f : option File) (w : World) : World :=
  {| react := {| mode := mode (react w); status := status (react w);
                 showReceiveModal := showReceiveModal (react w);
                 shareCode := shareCode (react w); file := f |};
     refs := refs w; db := db w; listeners := listeners w;
     timers := timers w; downloads := downloads w; calls := calls w |}.

Definition with_refs (r : Refs) (w : World) : World :=
  {| react := react w; refs := r; db := db w; listeners := listeners w;
     timers := timers w; downloads := downloads w; calls := calls w |}.

Definition with_db (d : gmap DocRef Doc) (w : World) : World :=
  {| react := react w; refs := refs w; db := d; listeners := listeners w;
     timers := timers w; downloads := downloads w; calls := calls w |}.

Definition onSnapshot (l : Listener) (w : World) : World :=
  {| react := react w; refs := refs w; db := db w;
     listeners := listeners w ++ [l];
     timers := timers w; downloads := downloads w; calls := calls w |}.

Definition setTimeout (cb : Callback) (w : World) : World :=
  {| react := react w; refs := refs w; db := db w; listeners := listeners w;
     timers := timers w ++ [cb]; downloads := downloads w; calls := calls w |}.

Definition add_download (d : Download) (w : World) : World :=
  {| react := react w; refs := refs w; db := db w; listeners := listeners w;
     timers := timers w; downloads := downloads w ++ [d]; calls := calls w |}.

Definition record_call (c : Call) (w : World) : World :=
  {| react := react w; refs := refs w; db := db w; listeners := listeners w;
     timers := timers w; downloads := downloads w; calls := calls w ++ [c] |}.

Definition set_peerConnection (pc : option RTCPeerConnection) (w : World)
  : World :=
  with_refs {| peerConnection := pc;
               onicecandidate := onicecandidate (refs w);
               dataChannel := dataChannel (refs w);
               receivedChunks := receivedChunks (refs w);
               receivedFileSize := receivedFileSize (refs w);
               fileMetadata := fileMetadata (refs w) |} w.

Definition set_onicecandidate (h : option IceHandler) (w : World) : World :=
  with_refs {| peerConnection := peerConnection (refs w);
               onicecandidate := h;
               dataChannel := dataChannel (refs w);
               receivedChunks := receivedChunks (refs w);
               receivedFileSize := receivedFileSize (refs w);
               fileMetadata := fileMetadata (refs w) |} w.

Definition set_dataChannel (dc : option RTCDataChannel) (w : World) : World :=
  with_refs {| peerConnection := peerConnection (refs w);
               onicecandidate := onicecandidate (refs w);
               dataChannel := dc;
               receivedChunks := receivedChunks (refs w);
               receivedFileSize := receivedFileSize (refs w);
               fileMetadata := fileMetadata (refs w) |} w.

Definition set_receivedChunks (l : list bytes) (w : World) : World :=
  with_refs {| peerConnection := peerConnection (refs w);
               onicecandidate := onicecandidate (refs w);
               dataChannel := dataChannel (refs w);
               receivedChunks := l;
               receivedFileSize := receivedFileSize (refs w);
               fileMetadata := fileMetadata (refs w) |} w.

Definition set_receivedFileSize (n : Z) (w : World) : World :=
  with_refs {| peerConnection := peerConnection (refs w);
               onicecandidate := onicecandidate (refs w);
               dataChannel := dataChannel (refs w);
               receivedChunks := receivedChunks (refs w);
               receivedFileSize := n;
               fileMetadata := fileMetadata (refs w) |} w.

Definition set_fileMetadata (v : JS.value) (w : World) : World :=
  with_refs {| peerConnection := peerConnection (refs w);
               onicecandidate := onicecandidate (refs w);
               dataChannel := dataChannel (refs w);
               receivedChunks := receivedChunks (refs w);
               receivedFileSize := receivedFileSize (refs w);
               fileMetadata := v |} w.

(** The state of a freshly mounted component. *)
Definition initialState : ReactState :=
  {| mode := idle; status := WaitingForConnection;
     showReceiveModal := false; shareCode := ""; file := None |}.

Definition initialWorld (database : gmap DocRef Doc) : World :=
  {| react := initialState;
     refs := {| peerConnection := None; onicecandidate := None;
                dataChannel := None; receivedChunks := [];
                receivedFileSize := 0; fileMetadata := JS.Null |};
     db := database; listeners := []; timers := [];
     downloads := []; calls := [] |}.

(* ===================================================================== *)
(** * Handlers *)
(* ===================================================================== *)

(** [getFileTransferDocRef(code)] *)
Definition getFileTransferDocRef (code : string) : DocRef :=
  ["artifacts"; app_id; "public/data/file_transfer"; code].

(** [resetState()] *)
Definition resetState (w : World) : World :=
  let w := match peerConnection (refs w) with
           | Some _ => record_call CallClosePeerConnection w
           | None => w
           end in
  let w := set_peerConnection None w in
  let w := match dataChannel (refs w) with
           | Some _ => record_call CallCloseDataChannel w
           | None => w
           end in
  let w := set_dataChannel None w in
  let w := set_receivedChunks [] w in
  let w := set_receivedFileSize 0 w in
  let w := set_fileMetadata JS.Null w in
  let w := setFile None w in
  let w := setShareCode "" w in
  let w := setMode idle w in
  setStatus WaitingForConnection w.

(** [deleteDoc(callDocRef)] on the store of the world. *)
Definition deleteDoc (callDocRef : DocRef) (w : World) : World :=
  record_call (CallDeleteDoc callDocRef)
    (with_db (Firestore.deleteDoc callDocRef (db w)) w).

(** [handleCancel], as defined by the render [render]: the Cancel button
    of a view calls the function of the render that drew the view. *)
Definition handleCancel (render : ReactState) (w : World) : World :=
  let w :=
    if JS.truthy_string (shareCode render)
    then let callDocRef := getFileTransferDocRef (shareCode render) in
         deleteDoc callDocRef w
    else w in
  resetState w.

(** [dataChannel.current?.send(m)] *)
Definition send (m : Message) (w : World) : World :=
  match dataChannel (refs w) with
  | Some dc =>
      set_dataChannel
        (Some {| onopen := onopen dc; onmessage := onmessage dc;
                 sent := sent dc ++ [m] |}) w
  | None => w
  end.

(** The size of one chunk: [64 * 1024]. *)
Definition CHUNK_SIZE : nat := 64 * 1024.

(** [readSlice(o)] together with the [reader.onload] it triggers, which
    calls [readSlice] again while [offset < fileToSend.size].  The result
    of reading a slice is an [ArrayBuffer], which is truthy even when
    empty, so the guard [if (reader.result)] always passes.  [fuel] bounds
    the number of reads; [None] means it ran out. *)
Fixpoint readSlice (fuel : nat) (chunkSize : nat) (render : ReactState)
    (fileToSend : File) (o : nat) (w : World) : option World :=
  match fuel with
  | O => None
  | S fuel' =>
      let result := Blob_slice o (o + chunkSize) (content fileToSend) in
      let w := send (Binary result) w in
      let offset := (o + length result)%nat in
      if (offset <? size fileToSend)%nat
      then readSlice fuel' chunkSize render fileToSend offset w
      else
        let w := setStatus FileSent w in
        Some (setTimeout (SenderTeardown render) w)
  end.

(** [sendFileInChunks(fileToSend)] of the render [render], for a given
    chunk size. *)
Definition sendFileInChunks_with (fuel chunkSize : nat)
    (render : ReactState) (fileToSend : File) (w : World) : option World :=
  let metadata :=
    JS.Obj [("name", JS.Str (name fileToSend));
            ("size", JS.Num (JS.of_Z (Z.of_nat (size fileToSend))))] in
  let w := send (Text (JSON_stringify metadata)) w in
  readSlice fuel chunkSize render fileToSend 0 w.

(** [sendFileInChunks(fileToSend)]: one read per byte of the file, and
    one more, is always enough. *)
Definition sendFileInChunks (render : ReactState) (fileToSend : File)
    (w : World) : option World :=
  sendFileInChunks_with (S (size fileToSend)) CHUNK_SIZE render fileToSend w.

(** The function given to [setTimeout] by [sendFileInChunks]. *)
Definition senderTeardown (render : ReactState) (w : World) : World :=
  let w :=
    if JS.truthy_string (shareCode render)
    then let callDocRef := getFileTransferDocRef (shareCode render) in
         deleteDoc callDocRef w
    else w in
  resetState w.

(** The share code: [Math.random().toString().substring(2, 8)]. *)
Definition newShareCode (random : JS.number) : string :=
  JS.substring 2 8 (Number_toString random).

(** [handleFileChange(event)] of the render [render]; [selectedFile] is
    [event.target.files?.[0]] and [random] the value [Math.random()]
    returns. *)
Definition handleFileChange (render : ReactState)
    (selectedFile : option File) (random : JS.number) (w : World) : World :=
  match selectedFile with
  | None => w
  | Some selectedFile =>
      let w := setFile (Some selectedFile) w in
      let w := setMode sending w in
      let w := setStatus GeneratingShareCode w in
      let pc := createDataChannel "file-transfer" new_RTCPeerConnection in
      let w := set_dataChannel
                 (Some {| onopen := Some (SendOnOpen render selectedFile);
                          onmessage := false; sent := [] |}) w in
      let code := newShareCode random in
      let w := setShareCode code w in
      let callDocRef := getFileTransferDocRef code in
      let w := set_onicecandidate (Some (ToOfferCandidates callDocRef)) w in
      let offerDescription := createOffer pc in
      let pc := setLocalDescription offerDescription pc in
      let w := set_peerConnection (Some pc) w in
      let w := record_call (CallSetLocalDescription offerDescription) w in
      let offer := {| sdp := sdp offerDescription;
                      type := type offerDescription |} in
      let w := with_db
                 (Firestore.setDoc callDocRef
                    {| offer := Some offer; offerCandidates := Some [];
                       answer := None; answerCandidates := None |} (db w))
                 w in
      let w := record_call (CallSetDoc callDocRef) w in
      let w := setStatus ShareCodeGenerated w in
      onSnapshot (InitiatorListener callDocRef) w
  end.

(** [handleReceiveSubmit(code)] *)
Definition handleReceiveSubmit (code : string) (w : World) : World :=
  let w := setShowReceiveModal false w in
  let w := setShareCode code w in
  let w := setMode receiving w in
  let w := setStatus (ConnectingWithCode code) w in
  let w := set_peerConnection (Some new_RTCPeerConnection) w in
  let callDocRef := getFileTransferDocRef code in
  let w := set_onicecandidate (Some (ToAnswerCandidates callDocRef)) w in
  onSnapshot (ResponderListener callDocRef) w.

(** [peerConnection.current.ondatachannel], set by [handleReceiveSubmit]. *)
Definition ondatachannel (w : World) : World :=
  set_dataChannel
    (Some {| onopen := Some ReceiveOnOpen; onmessage := true; sent := [] |})
    w.

(** [peerConnection.current.onicecandidate]: [e.candidate] is null at the
    end of gathering. *)
Definition icecandidate (c : option IceCandidate) (w : World) : World :=
  match c, onicecandidate (refs w) with
  | Some c, Some (ToOfferCandidates callDocRef) =>
      match Firestore.updateDoc callDocRef
              (fun d => {| offer := offer d;
                           offerCandidates :=
                             Firestore.arrayUnion c (offerCandidates d);
                           answer := answer d;
                           answerCandidates := answerCandidates d |})
              (db w) with
      | Some db' => record_call (CallUpdateDoc callDocRef) (with_db db' w)
      | None => w
      end
  | Some c, Some (ToAnswerCandidates callDocRef) =>
      match Firestore.updateDoc callDocRef
              (fun d => {| offer := offer d;
                           offerCandidates := offerCandidates d;
                           answer := answer d;
                           answerCandidates :=
                             Firestore.arrayUnion c (answerCandidates d) |})
              (db w) with
      | Some db' => record_call (CallUpdateDoc callDocRef) (with_db db' w)
      | None => w
      end
  | _, _ => w
  end.

(** ** The [onSnapshot] callbacks *)

(** A call [peerConnection.current?.f(...)]: nothing happens when the ref
    is null. *)
Definition on_peerConnection (f : RTCPeerConnection -> RTCPeerConnection)
    (c : Call) (w : World) : World :=
  match peerConnection (refs w) with
  | Some pc => record_call c (set_peerConnection (Some (f pc)) w)
  | None => w
  end.

(** [!peerConnection.current?.currentRemoteDescription] *)
Definition noRemoteDescription (w : World) : bool :=
  match peerConnection (refs w) with
  | Some pc => bool_decide (currentRemoteDescription pc = None)
  | None => true
  end.

(** [candidates.forEach(c => peerConnection.current?.addIceCandidate(c))] *)
Definition addIceCandidates (candidates : list IceCandidate) (w : World)
  : World :=
  foldl (fun w c => on_peerConnection (addIceCandidate c)
                      (CallAddIceCandidate c) w) w candidates.

(** The initiator's listener; [data] is [snapshot.data()], [None] when the
    document does not exist.  It awaits nothing: [setRemoteDescription]
    is called and the promise it returns is dropped. *)
Definition initiatorSnapshot (data : option Doc) (w : World) : World :=
  let w :=
    match data ≫= answer with
    | Some answerDescription =>
        if noRemoteDescription w
        then
          let w := on_peerConnection (setRemoteDescription answerDescription)
                     (CallSetRemoteDescription answerDescription) w in
          setStatus ReceiverConnected w
        else w
    | None => w
    end in
  match data ≫= answerCandidates with
  | Some candidates => addIceCandidates candidates w
  | None => w
  end.

(** The responder's listener, an async function, as one invocation that
    is not interrupted: what follows an await is run at once, as if no
    other callback ran before the awaited promise settles.  The test of
    [currentRemoteDescription] and the call of [setRemoteDescription]
    come before the first await; the calls after it are [createAnswer],
    [setLocalDescription] and [updateDoc], each awaited, and the loop over
    the candidates comes last.  When the ref is null [createAnswer] gives
    [undefined] and reading its [type] throws, and when the record is
    gone [updateDoc] rejects: in both cases the callback stops there. *)
Definition responderSnapshot (callDocRef : DocRef) (data : option Doc)
    (w : World) : World :=
  let candidates w :=
    match data ≫= offerCandidates with
    | Some candidates => addIceCandidates candidates w
    | None => w
    end in
  match data ≫= offer with
  | Some offerDescription =>
      if noRemoteDescription w
      then
        let w := setStatus OfferReceived w in
        match peerConnection (refs w) with
        | None => w
        | Some pc =>
            let pc := setRemoteDescription offerDescription pc in
            let w := record_call
                       (CallSetRemoteDescription offerDescription) w in
            let answerDescription := createAnswer pc in
            let pc := setLocalDescription answerDescription pc in
            let w := record_call
                       (CallSetLocalDescription answerDescription) w in
            let w := set_peerConnection (Some pc) w in
            let answer := {| type := type answerDescription;
                             sdp := sdp answerDescription |} in
            match Firestore.updateDoc callDocRef
                    (fun d => {| offer := offer d;
                                 offerCandidates := offerCandidates d;
                                 answer := Some answer;
                                 answerCandidates := Some [] |})
                    (db w) with
            | None => w
            | Some db' =>
                let w := record_call (CallUpdateDoc callDocRef)
                           (with_db db' w) in
                candidates (setStatus AnswerSent w)
            end
        end
      else candidates w
  | None => candidates w
  end.

Definition snapshot (l : Listener) (data : option Doc) (w : World) : World :=
  match l with
  | InitiatorListener _ => initiatorSnapshot data w
  | ResponderListener callDocRef => responderSnapshot callDocRef data w
  end.

(** ** The receiver *)

(** The percentage shown while downloading:
    [Math.round((receivedBytes / totalBytes) * 100)]. *)
Definition progress (receivedBytes totalBytes : JS.number) : JS.number :=
  JS.Math_round (JS.mul (JS.div receivedBytes totalBytes) (JS.of_Z 100)).

(** [handleReceiveMessage(data)].  The second component is the exception
    the call ends with, if any; what was assigned before it stays
    assigned. *)
Definition handleReceiveMessage (data : Message) (w : World)
  : World * option JS.error :=
  match data with
  | Text s =>
      match JSON_parse s with
      | Some metadata =>
          let w := set_fileMetadata metadata w in
          let w := set_receivedChunks [] w in
          let w := set_receivedFileSize 0 w in
          (* the template literal reads [metadata.name] and brings it to a
             string; what either throws is caught by the [catch], and
             [data] is not an ArrayBuffer *)
          match JS.get metadata "name" with
          | JS.Normal metadata_name =>
              match ToString metadata_name with
              | JS.Normal text => (setStatus (ReceivingFile text) w, None)
              | JS.Throw _ => (w, None)
              end
          | JS.Throw _ => (w, None)
          end
      | None =>
          (* SyntaxError, caught; [data] is not an ArrayBuffer *)
          (w, None)
      end
  | Binary chunk =>
      let w := set_receivedChunks (receivedChunks (refs w) ++ [chunk]) w in
      let w := set_receivedFileSize
                 (receivedFileSize (refs w) + Z.of_nat (length chunk)) w in
      match JS.get (fileMetadata (refs w)) "size" with
      | JS.Throw e => (w, Some e)
      | JS.Normal metadata_size =>
          let received := JS.of_Z (receivedFileSize (refs w)) in
          match ToNumber metadata_size with
          | JS.Throw e => (w, Some e)
          | JS.Normal totalBytes =>
              let w := setStatus (Downloading (progress received totalBytes))
                         w in
              if JS.strict_equals_num received metadata_size
              then
                let w := setStatus FileReceived w in
                let fileBlob := Blob (receivedChunks (refs w)) in
                (* [a.download = fileMetadata.current!.name] *)
                match JS.get (fileMetadata (refs w)) "name" with
                | JS.Throw e => (w, Some e)
                | JS.Normal metadata_name =>
                    match ToString metadata_name with
                    | JS.Throw e => (w, Some e)
                    | JS.Normal download =>
                        let w := add_download {| download := download;
                                                 fileBlob := fileBlob |} w in
                        let w := setStatus FileDownloaded w in
                        (setTimeout ReceiverTeardown w, None)
                    end
                end
              else (w, None)
          end
      end
  | OtherData => (w, None)
  end.

(** ** Stored callbacks *)

Definition runCallback (cb : Callback) (w : World) : option World :=
  match cb with
  | SendOnOpen render selectedFile =>
      sendFileInChunks render selectedFile (setStatus ConnectionOpenSending w)
  | ReceiveOnOpen => Some (setStatus ConnectionOpenReady w)
  | SenderTeardown render => Some (senderTeardown render w)
  | ReceiverTeardown => Some (resetState w)
  end.

(* ===================================================================== *)
(** * Events *)
(* ===================================================================== *)

(** What can happen to a mounted [App].  User events are handled by the
    functions of the latest render, that is with [react w] as the render;
    stored callbacks run with the render they were created in. *)
Inductive Event :=
(** the hidden file input fires [onChange]; the dialog is opened from the
    main view only *)
| SelectFile (selectedFile : option File) (random : JS.number)
(** the Receive tile of the main view *)
| ClickReceive
(** the modal's form is submitted; [code] is [code.trim()], which the
    modal passes on only when it is not empty *)
| SubmitCode (code : string)
(** the modal's Cancel button *)
| DismissModal
(** the Cancel button of the sending or the receiving view *)
| ClickCancel
| DataChannelAnnounced
| ChannelOpen
| ChannelMessage (data : Message)
| LocalCandidate (c : option IceCandidate)
(** the [i]-th listener is called with a snapshot *)
| SnapshotDelivered (i : nat) (data : option Doc)
(** the [i]-th pending timer expires *)
| TimerFires (i : nat)
(** another client changes the collection *)
| StoreChanged (database : gmap DocRef Doc).

(** [renderContent]: which view the state draws. *)
Inductive View := MainView | SendingView | ReceivingView.

Definition renderContent (s : ReactState) : View :=
  match mode s with
  | sending => SendingView
  | receiving => ReceivingView
  | _ => MainView
  end.

Definition cancel_timer (i : nat) (w : World) : World :=
  {| react := react w; refs := refs w; db := db w; listeners := listeners w;
     timers := delete i (timers w); downloads := downloads w;
     calls := calls w |}.

(** One event; [None] when the event cannot happen in [w]. *)
Definition step (e : Event) (w : World) : option World :=
  match e with
  | SelectFile selectedFile random =>
      match renderContent (react w) with
      | MainView => Some (handleFileChange (react w) selectedFile random w)
      | _ => None
      end
  | ClickReceive =>
      match renderContent (react w) with
      | MainView => Some (setShowReceiveModal true w)
      | _ => None
      end
  | SubmitCode code =>
      if showReceiveModal (react w) && JS.truthy_string code
      then Some (handleReceiveSubmit code w)
      else None
  | DismissModal =>
      if showReceiveModal (react w)
      then Some (setShowReceiveModal false w)
      else None
  | ClickCancel =>
      match renderContent (react w) with
      | MainView => None
      | _ => Some (handleCancel (react w) w)
      end
  | DataChannelAnnounced =>
      match peerConnection (refs w), onicecandidate (refs w) with
      | Some _, Some (ToAnswerCandidates _) => Some (ondatachannel w)
      | _, _ => None
      end
  | ChannelOpen =>
      match dataChannel (refs w) with
      | Some dc => cb ← onopen dc; runCallback cb w
      | None => None
      end
  | ChannelMessage data =>
      match dataChannel (refs w) with
      | Some dc =>
          if onmessage dc then Some (fst (handleReceiveMessage data w))
          else None
      | None => None
      end
  | LocalCandidate c =>
      match peerConnection (refs w) with
      | Some _ => Some (icecandidate c w)
      | None => None
      end
  | SnapshotDelivered i data =>
      l ← listeners w !! i; Some (snapshot l data w)
  | TimerFires i =>
      cb ← timers w !! i; runCallback cb (cancel_timer i w)
  | StoreChanged database => Some (with_db database w)
  end.

(** The worlds a mounted component can be in. *)
Inductive reachable : World -> Prop :=
| reachable_initial database : reachable (initialWorld database)
| reachable_step e w w' :
    reachable w -> step e w = Some w' -> reachable w'.

(** Running a list of events from a world. *)
Fixpoint run (events : list Event) (w : World) : option World :=
  match events with
  | [] => Some w
  | e :: events => w' ← step e w; run events w'
  end.

End App.

(* ===================================================================== *)
(** * The built-ins, executable *)
(* ===================================================================== *)

(** Strings are sequences of bytes; a JavaScript string is taken in an
    encoding that keeps ASCII as it is. *)
Module ECMA.

Definition code (c : ascii) : N := N_of_ascii c.
Definition chr (n : N) : ascii := ascii_of_N n.

Definition quote : ascii := chr 34.
Definition backslash : ascii := chr 92.

Fixpoint repeat_char (c : ascii) (n : nat) : string :=
  match n with
  | O => EmptyString
  | S n => String c (repeat_char c n)
  end.

(** ** Number to string *)

Fixpoint decimal_digits_aux (fuel : nat) (n : Z) (acc : string) : string :=
  match fuel with
  | O => acc
  | S fuel =>
      let acc := String (chr (48 + Z.to_N (n mod 10))) acc in
      if n / 10 =? 0 then acc else decimal_digits_aux fuel (n / 10) acc
  end.

(** The decimal digits of [n >= 0]. *)
Definition decimal_digits (n : Z) : string :=
  decimal_digits_aux (S (Z.to_nat (Z.log2 n))) n EmptyString.

(** A positive finite Number as a fraction. *)
Definition fraction (m : positive) (e : Z) : Z * Z :=
  if 0 <=? e then (Zpos m * 2 ^ e, 1) else (Zpos m, 2 ^ (- e)).

Fixpoint leading_zeros (fuel : nat) (num den : Z) (k : Z) : Z :=
  match fuel with
  | O => k
  | S fuel =>
      if den <=? num * 10 ^ k then k else leading_zeros fuel num den (k + 1)
  end.

(** The [n] with [10^(n-1) <= num/den < 10^n]. *)
Definition decimal_exponent (num den : Z) : Z :=
  if den <=? num
  then Z.of_nat (String.length (decimal_digits (num / den)))
  else 1 - leading_zeros 400 num den 1.

(** [num/den] divided by [10^p], as a fraction. *)
Definition scaled (num den p : Z) : Z * Z :=
  if 0 <=? p then (num, den * 10 ^ p) else (num * 10 ^ (- p), den).

Definition same_number (x y : JS.number) : bool :=
  match x, y with
  | S754_finite s m e, S754_finite s' m' e' =>
      Bool.eqb s s' && (m =? m')%positive && (e =? e')
  | _, _ => false
  end.

(** The digits [s] and the exponent [n] of Number::toString: the fewest
    digits [k] such that [s * 10^(n-k)] is read back as [x]; between two
    such [s], the one closer to [x], the even one on a tie. *)
Fixpoint shortest (fuel : nat) (x : JS.number) (num den n k : Z)
  : Z * Z * Z :=
  let p := n - k in
  let '(a, b) := scaled num den p in
  let lo := a / b in
  let hi := lo + 1 in
  let ok_lo := same_number (JS.of_decimal false lo p) x in
  let ok_hi := same_number (JS.of_decimal false hi p) x in
  let pick_hi := if hi =? 10 ^ k then (1, 1, n + 1) else (hi, k, n) in
  match fuel with
  | O => (lo, k, n)
  | S fuel =>
      if ok_lo && ok_hi then
        match (a - lo * b) ?= (hi * b - a) with
        | Lt => (lo, k, n)
        | Gt => pick_hi
        | Eq => if Z.even lo then (lo, k, n) else pick_hi
        end
      else if ok_lo then (lo, k, n)
      else if ok_hi then pick_hi
      else shortest fuel x num den n (k + 1)
  end.

Definition exponent_suffix (e : Z) : string :=
  String "e"%char (String (if e <? 0 then "-"%char else "+"%char)
                (decimal_digits (Z.abs e))).

Definition format (digits : string) (k n : Z) : string :=
  if (k <=? n) && (n <=? 21) then
    digits +:+ repeat_char "0"%char (Z.to_nat (n - k))
  else if (0 <? n) && (n <=? 21) then
    String.substring 0 (Z.to_nat n) digits +:+ "." +:+
    String.substring (Z.to_nat n) (Z.to_nat (k - n)) digits
  else if (-6 <? n) && (n <=? 0) then
    "0." +:+ repeat_char "0"%char (Z.to_nat (- n)) +:+ digits
  else if k =? 1 then digits +:+ exponent_suffix (n - 1)
  else
    String.substring 0 1 digits +:+ "." +:+
    String.substring 1 (Z.to_nat (k - 1)) digits +:+ exponent_suffix (n - 1).

(** [Number::toString(x)] in radix 10. *)
Definition Number_toString (x : JS.number) : string :=
  match x with
  | S754_nan => "NaN"
  | S754_zero _ => "0"
  | S754_infinity s => if s then "-Infinity" else "Infinity"
  | S754_finite s m e =>
      let '(num, den) := fraction m e in
      let n := decimal_exponent num den in
      let '(digits, k, n) :=
        shortest 17 (S754_finite false m e) num den n 1 in
      (if s then "-" else "") +:+ format (decimal_digits digits) k n
  end.

(** ** JSON.stringify *)

Definition hex_digit (n : N) : ascii :=
  if (n <? 10)%N then chr (48 + n) else chr (87 + n).

Fixpoint escape (s : string) : string :=
  match s with
  | EmptyString => EmptyString
  | String c rest =>
      let n := code c in
      let tail := escape rest in
      if (n =? 34)%N then String backslash (String quote tail)
      else if (n =? 92)%N then String backslash (String backslash tail)
      else if (n =? 8)%N then String backslash (String "b"%char tail)
      else if (n =? 9)%N then String backslash (String "t"%char tail)
      else if (n =? 10)%N then String backslash (String "n"%char tail)
      else if (n =? 12)%N then String backslash (String "f"%char tail)
      else if (n =? 13)%N then String backslash (String "r"%char tail)
      else if (n <? 32)%N then
        String backslash
          (String "u"%char (String "0"%char (String "0"
             (String (hex_digit (n / 16)) (String (hex_digit (n mod 16))
                tail)))))
      else String c tail
  end.

Definition quoted (s : string) : string :=
  String quote (escape s +:+ String quote EmptyString).

Definition finite (x : JS.number) : bool :=
  match x with
  | S754_nan | S754_infinity _ => false
  | _ => true
  end.

(** [JSON.stringify(v)] without indentation.  An [undefined] element of
    an array is written [null], an [undefined] field is left out; for
    [undefined] itself the built-in returns [undefined], not a string,
    which is written here as the empty string. *)
Fixpoint JSON_stringify (v : JS.value) : string :=
  match v with
  | JS.Undefined => EmptyString
  | JS.Null => "null"
  | JS.Bool b => if b then "true" else "false"
  | JS.Num x => if finite x then Number_toString x else "null"
  | JS.Str s => quoted s
  | JS.Arr elems =>
      "[" +:+ JS.join ","
        (List.map (fun v => match v with
                            | JS.Undefined => "null"
                            | _ => JSON_stringify v
                            end) elems) +:+ "]"
  | JS.Obj fields =>
      "{" +:+ JS.join ","
        ((fix members (l : list (string * JS.value)) : list string :=
            match l with
            | [] => []
            | (_, JS.Undefined) :: rest => members rest
            | (k, v) :: rest =>
                (quoted k +:+ ":" +:+ JSON_stringify v) :: members rest
            end) fields) +:+ "}"
  end.

(** ** JSON.parse *)

Definition is_json_space (c : ascii) : bool :=
  let n := code c in
  ((n =? 32) || (n =? 9) || (n =? 10) || (n =? 13))%N.

Fixpoint skip (space : ascii -> bool) (s : string) : string :=
  match s with
  | String c rest => if space c then skip space rest else s
  | EmptyString => s
  end.

Definition digit_value (radix : Z) (c : ascii) : option Z :=
  let n := Z.of_N (code c) in
  let v := if (48 <=? n) && (n <=? 57) then n - 48
           else if (97 <=? n) && (n <=? 102) then n - 87
           else if (65 <=? n) && (n <=? 70) then n - 55
           else radix in
  if v <? radix then Some v else None.

(** A run of digits: the number read on top of [acc], how many digits
    were read, and what follows. *)
Fixpoint read_digits (radix : Z) (s : string) (acc count : Z)
  : Z * Z * string :=
  match s with
  | String c rest =>
      match digit_value radix c with
      | Some d => read_digits radix rest (acc * radix + d) (count + 1)
      | None => (acc, count, s)
      end
  | EmptyString => (acc, count, s)
  end.

Definition read_sign (s : string) : bool * string :=
  match s with
  | String c rest => if (code c =? 45)%N then (true, rest) else (false, s)
  | EmptyString => (false, s)
  end.

Definition read_exponent_sign (s : string) : bool * string :=
  match s with
  | String c rest =>
      if (code c =? 45)%N then (true, rest)
      else if (code c =? 43)%N then (false, rest)
      else (false, s)
  | EmptyString => (false, s)
  end.

(** The exponent part, if there is one, applied to the mantissa [m] read
    with [nfrac] fraction digits. *)
Definition read_exponent (neg : bool) (m nfrac : Z) (s : string)
  : option (JS.number * string) :=
  match s with
  | String c rest =>
      if ((code c =? 101) || (code c =? 69))%N then
        let '(eneg, rest) := read_exponent_sign rest in
        let '(ev, n, rest) := read_digits 10 rest 0 0 in
        if n =? 0 then None
        else Some (JS.of_decimal neg m (cond_Zopp eneg ev - nfrac), rest)
      else Some (JS.of_decimal neg m (- nfrac), s)
  | EmptyString => Some (JS.of_decimal neg m (- nfrac), s)
  end.

(** A JSON number: an optional minus sign, an integer part without
    leading zeros, an optional fraction and an optional exponent. *)
Definition parse_number (s : string) : option (JS.number * string) :=
  let '(neg, s) := read_sign s in
  match s with
  | String c rest =>
      match digit_value 10 c with
      | None => None
      | Some d =>
          let '(int, s) :=
            if d =? 0 then (0, rest)
            else (let '(v, _, r) := read_digits 10 rest d 1 in (v, r)) in
          match s with
          | String dot rest =>
              if (code dot =? 46)%N then
                let '(m, nfrac, rest) := read_digits 10 rest int 0 in
                if nfrac =? 0 then None else read_exponent neg m nfrac rest
              else read_exponent neg int 0 s
          | EmptyString => read_exponent neg int 0 s
          end
      end
  | EmptyString => None
  end.

(** A code unit written [\uXXXX], as bytes. *)
Definition encode_unit (u : Z) (tail : string) : string :=
  let b n := chr (Z.to_N n) in
  if u <? 128 then String (b u) tail
  else if u <? 2048 then
    String (b (192 + u / 64)) (String (b (128 + u mod 64)) tail)
  else
    String (b (224 + u / 4096))
      (String (b (128 + (u / 64) mod 64)) (String (b (128 + u mod 64)) tail)).

Definition simple_escape (n : N) : option ascii :=
  if (n =? 34)%N then Some quote
  else if (n =? 92)%N then Some backslash
  else if (n =? 47)%N then Some "/"%char
  else if (n =? 98)%N then Some (chr 8)
  else if (n =? 102)%N then Some (chr 12)
  else if (n =? 110)%N then Some (chr 10)
  else if (n =? 114)%N then Some (chr 13)
  else if (n =? 116)%N then Some (chr 9)
  else None.

(** The rest of a string literal after its opening quote. *)
Fixpoint parse_string (s : string) : option (string * string) :=
  match s with
  | EmptyString => None
  | String c rest =>
      let n := code c in
      if (n =? 34)%N then Some (EmptyString, rest)
      else if (n <? 32)%N then None
      else if (n =? 92)%N then
        match rest with
        | String e rest =>
            if (code e =? 117)%N then
              match rest with
              | String h1 (String h2 (String h3 (String h4 rest))) =>
                  match digit_value 16 h1, digit_value 16 h2,
                        digit_value 16 h3, digit_value 16 h4 with
                  | Some d1, Some d2, Some d3, Some d4 =>
                      match parse_string rest with
                      | Some (body, r) =>
                          Some (encode_unit
                                  (((d1 * 16 + d2) * 16 + d3) * 16 + d4)
                                  body, r)
                      | None => None
                      end
                  | _, _, _, _ => None
                  end
              | _ => None
              end
            else
              match simple_escape (code e), parse_string rest with
              | Some ch, Some (body, r) => Some (String ch body, r)
              | _, _ => None
              end
        | EmptyString => None
        end
      else
        match parse_string rest with
        | Some (body, r) => Some (String c body, r)
        | None => None
        end
  end.

(** Defining a field: a repeated key keeps its place and takes the later
    value. *)
Fixpoint define_field (k : string) (v : JS.value)
    (fields : list (string * JS.value)) : list (string * JS.value) :=
  match fields with
  | [] => [(k, v)]
  | (k', v') :: rest =>
      if String.eqb k k' then (k, v) :: rest
      else (k', v') :: define_field k v rest
  end.

Definition expect (s : string) (rest : string) : option string :=
  if String.prefix s rest
  then Some (String.substring (String.length s)
               (String.length rest - String.length s) rest)
  else None.

Fixpoint parse_value (fuel : nat) (s : string) {struct fuel}
  : option (JS.value * string) :=
  match fuel with
  | O => None
  | S fuel =>
      match skip is_json_space s with
      | EmptyString => None
      | String c rest as s =>
          let n := code c in
          if (n =? 123)%N then
            match skip is_json_space rest with
            | String c' rest' =>
                if (code c' =? 125)%N then Some (JS.Obj [], rest')
                else
                  match parse_members fuel rest [] with
                  | Some (fields, r) => Some (JS.Obj fields, r)
                  | None => None
                  end
            | EmptyString => None
            end
          else if (n =? 91)%N then
            match skip is_json_space rest with
            | String c' rest' =>
                if (code c' =? 93)%N then Some (JS.Arr [], rest')
                else
                  match parse_elements fuel rest [] with
                  | Some (elems, r) => Some (JS.Arr elems, r)
                  | None => None
                  end
            | EmptyString => None
            end
          else if (n =? 34)%N then
            match parse_string rest with
            | Some (str, r) => Some (JS.Str str, r)
            | None => None
            end
          else if (n =? 116)%N then
            r ← expect "true" s; Some (JS.Bool true, r)
          else if (n =? 102)%N then
            r ← expect "false" s; Some (JS.Bool false, r)
          else if (n =? 110)%N then
            r ← expect "null" s; Some (JS.Null, r)
          else
            match parse_number s with
            | Some (x, r) => Some (JS.Num x, r)
            | None => None
            end
      end
  end
with parse_elements (fuel : nat) (s : string) (acc : list JS.value)
    {struct fuel} : option (list JS.value * string) :=
  match fuel with
  | O => None
  | S fuel =>
      match parse_value fuel s with
      | Some (v, r) =>
          match skip is_json_space r with
          | String c r' =>
              if (code c =? 44)%N then parse_elements fuel r' (acc ++ [v])
              else if (code c =? 93)%N then Some (acc ++ [v], r')
              else None
          | EmptyString => None
          end
      | None => None
      end
  end
with parse_members (fuel : nat) (s : string)
    (acc : list (string * JS.value)) {struct fuel}
  : option (list (string * JS.value) * string) :=
  match fuel with
  | O => None
  | S fuel =>
      match skip is_json_space s with
      | String q r =>
          if (code q =? 34)%N then
            match parse_string r with
            | Some (k, r) =>
                match skip is_json_space r with
                | String colon r =>
                    if (code colon =? 58)%N then
                      match parse_value fuel r with
                      | Some (v, r) =>
                          match skip is_json_space r with
                          | String c r' =>
                              if (code c =? 44)%N
                              then parse_members fuel r'
                                     (define_field k v acc)
                              else if (code c =? 125)%N
                              then Some (define_field k v acc, r')
                              else None
                          | EmptyString => None
                          end
                      | None => None
                      end
                    else None
                | EmptyString => None
                end
            | None => None
            end
          else None
      | EmptyString => None
      end
  end.

(** [JSON.parse(text)] without a reviver. *)
Definition JSON_parse (text : string) : option JS.value :=
  match parse_value (2 * String.length text + 2) text with
  | Some (v, rest) =>
      match skip is_json_space rest with
      | EmptyString => Some v
      | _ => None
      end
  | None => None
  end.

(** ** StringToNumber *)

(** White space and line terminators, as far as they are ASCII. *)
Definition is_space (c : ascii) : bool :=
  let n := code c in
  ((n =? 32) || ((9 <=? n) && (n <=? 13)))%N.

Definition blank (s : string) : bool :=
  match skip is_space s with
  | EmptyString => true
  | _ => false
  end.

Definition signed (neg : bool) (x : JS.number) : JS.number :=
  if neg then SFopp x else x.

Definition read_decimal (s : string) : JS.number :=
  let '(neg, s) := read_exponent_sign s in
  match expect "Infinity" s with
  | Some rest =>
      if blank rest then S754_infinity neg else JS.NaN
  | None =>
      let '(int, nint, s) := read_digits 10 s 0 0 in
      let '(m, nfrac, s) :=
        match s with
        | String dot rest =>
            if (code dot =? 46)%N then read_digits 10 rest int 0
            else (int, 0, s)
        | EmptyString => (int, 0, s)
        end in
      if nint + nfrac =? 0 then JS.NaN
      else
        match read_exponent neg m nfrac s with
        | Some (x, rest) => if blank rest then x else JS.NaN
        | None => JS.NaN
        end
  end.

Definition read_radix (radix : Z) (s : string) : JS.number :=
  let '(v, n, rest) := read_digits radix s 0 0 in
  if (0 <? n) && blank rest then JS.of_Z v else JS.NaN.

(** [StringToNumber(s)] *)
Definition StringToNumber (s : string) : JS.number :=
  match skip is_space s with
  | EmptyString => S754_zero false
  | String z (String x rest) as s =>
      if (code z =? 48)%N then
        if ((code x =? 120) || (code x =? 88))%N then read_radix 16 rest
        else if ((code x =? 111) || (code x =? 79))%N then read_radix 8 rest
        else if ((code x =? 98) || (code x =? 66))%N then read_radix 2 rest
        else read_decimal s
      else read_decimal s
  | s => read_decimal s
  end.

End ECMA.

#[global] Instance ECMAScript : Runtime := {
  JSON_parse := ECMA.JSON_parse;
  JSON_stringify := ECMA.JSON_stringify;
  Number_toString := ECMA.Number_toString;
  StringToNumber := ECMA.StringToNumber;
}.

(** ** A transport for evaluation

    A peer connection that records what it was given and applies a remote
    description as soon as it is set. *)
Record PlainConnection := {
  remote : option SessionDescription;
  local : option SessionDescription;
  remoteCandidates : list IceCandidate;
  channels : list string;
}.

#[global] Instance PlainTransport : Transport := {
  RTCPeerConnection := PlainConnection;
  new_RTCPeerConnection :=
    {| remote := None; local := None; remoteCandidates := [];
       channels := [] |};
  currentRemoteDescription pc := remote pc;
  setRemoteDescription d pc :=
    {| remote := Some d; local := local pc;
       remoteCandidates := remoteCandidates pc; channels := channels pc |};
  setLocalDescription d pc :=
    {| remote := remote pc; local := Some d;
       remoteCandidates := remoteCandidates pc; channels := channels pc |};
  createOffer pc := {| sdp := "v=0 offer"; type := "offer" |};
  createAnswer pc := {| sdp := "v=0 answer"; type := "answer" |};
  addIceCandidate c pc :=
    {| remote := remote pc; local := local pc;
       remoteCandidates := remoteCandidates pc ++ [c];
       channels := channels pc |};
  createDataChannel label pc :=
    {| remote := remote pc; local := local pc;
       remoteCandidates := remoteCandidates pc;
       channels := channels pc ++ [label] |};
}.

(** ** A transport that works through what it is handed

    A peer connection on which [setRemoteDescription] starts the
    operation, and whose [currentRemoteDescription] shows the description
    once the operation has completed ([settled]): the promise of the call
    settles then.  A remote candidate it has been handed before is not
    added again. *)
Record QueuedConnection := {
  settledRemote : option SessionDescription;
  requestedRemote : list SessionDescription;
  settledLocal : option SessionDescription;
  addedCandidates : list IceCandidate;
  openedChannels : list string;
}.

Definition QueuedTransport : Transport := {|
  RTCPeerConnection := QueuedConnection;
  new_RTCPeerConnection :=
    {| settledRemote := None; requestedRemote := []; settledLocal := None;
       addedCandidates := []; openedChannels := [] |};
  currentRemoteDescription pc := settledRemote pc;
  setRemoteDescription d pc :=
    {| settledRemote := settledRemote pc;
       requestedRemote := requestedRemote pc ++ [d];
       settledLocal := settledLocal pc;
       addedCandidates := addedCandidates pc;
       openedChannels := openedChannels pc |};
  setLocalDescription d pc :=
    {| settledRemote := settledRemote pc;
       requestedRemote := requestedRemote pc;
       settledLocal := Some d;
       addedCandidates := addedCandidates pc;
       openedChannels := openedChannels pc |};
  createOffer pc := {| sdp := "v=0 offer"; type := "offer" |};
  createAnswer pc := {| sdp := "v=0 answer"; type := "answer" |};
  addIceCandidate c pc :=
    if decide (c ∈ addedCandidates pc) then pc
    else {| settledRemote := settledRemote pc;
            requestedRemote := requestedRemote pc;
            settledLocal := settledLocal pc;
            addedCandidates := addedCandidates pc ++ [c];
            openedChannels := openedChannels pc |};
  createDataChannel label pc :=
    {| settledRemote := settledRemote pc;
       requestedRemote := requestedRemote pc;
       settledLocal := settledLocal pc;
       addedCandidates := addedCandidates pc;
       openedChannels := openedChannels pc ++ [label] |};
|}.

(** The connection once the operations it was asked for have completed:
    the first description it was handed is the remote description. *)
Definition settled (pc : QueuedConnection) : QueuedConnection :=
  {| settledRemote :=
       match settledRemote pc with
       | Some d => Some d
       | None => head (requestedRemote pc)
       end;
     requestedRemote := [];
     settledLocal := settledLocal pc;
     addedCandidates := addedCandidates pc;
     openedChannels := openedChannels pc |}.

(* ===================================================================== *)
(** * Vocabulary of the statements *)
(* ===================================================================== *)

(** The structure a metadata message is expected to have: an object
    whose [name] is a string and whose [size] is a Number that is a
    non-negative integer. *)
Definition expected_structure (v : JS.value) : Prop :=
  exists name size,
    JS.get v "name" = JS.Normal (JS.Str name) /\
    JS.get v "size" = JS.Normal (JS.Num size) /\
    exists n, JS.int_value size = Some n /\ 0 <= n.

(** ** Rounding *)

(** Shifting a record right by [k] bits. *)
Definition shifted (k : Z) (x y : shr_record) : Prop :=
  0 <= shr_m x ->
  shr_m y = shr_m x / 2 ^ k /\
  (shr_r x = false -> shr_s x = false -> shr_m x mod 2 ^ k = 0 ->
   shr_r y = false /\ shr_s y = false).

(** The number with mantissa [m] at exponent [e] and the location [l]
    within its unit is at most [b * 2^eb]. *)
Definition below (b eb m e : Z) (l : location) : Prop :=
  e <= eb /\ 0 <= m /\
  (m < b * 2 ^ (eb - e) \/ (m = b * 2 ^ (eb - e) /\ l = loc_Exact)).

(** The rational [N / D] lies at [m], with the location [l] inside the
    unit that starts there. *)
Definition located (N D m : Z) (l : location) : Prop :=
  match l with
  | loc_Exact => N = m * D
  | loc_Inexact Lt => m * D < N /\ 2 * N < (2 * m + 1) * D
  | loc_Inexact Eq => 2 * N = (2 * m + 1) * D
  | loc_Inexact Gt => (2 * m + 1) * D < 2 * N /\ N < (m + 1) * D
  end.

(** The chunks among the messages given to [send]. *)
Definition binary_payloads (ms : list Message) : list bytes :=
  omap (fun m => match m with Binary b => Some b | _ => None end) ms.

(** What the specification calls chunking: the first [n] consecutive
    slices of [chunkSize] bytes of [b], starting at offset [o]. *)
Fixpoint slices (n chunkSize o : nat) (b : bytes) : list bytes :=
  match n with
  | O => []
  | S n => Blob_slice o (o + chunkSize) b :: slices n chunkSize (o + chunkSize) b
  end.

(** [ceil(s / c)] *)
Definition ceil_div (s c : nat) : nat := ((s + c - 1) / c)%nat.

(** The candidates of a list that are not in [seen], each once: what a
    listener that tracks the set of applied candidates hands to the
    transport. *)
Fixpoint novel (seen candidates : list IceCandidate) : list IceCandidate :=
  match candidates with
  | [] => []
  | c :: candidates =>
      if decide (c ∈ seen) then novel seen candidates
      else c :: novel (c :: seen) candidates
  end.

Section Vocabulary.

Context {RT : Runtime} {TR : Transport}.

(** Delivering snapshots to a listener, one after the other. *)
Definition deliver (l : Listener) (snapshots : list (option Doc))
    (w : World) : World :=
  foldl (fun w data => snapshot l data w) w snapshots.

(** Feeding messages to [handleReceiveMessage], one after the other. *)
Definition receive (messages : list Message) (w : World) : World :=
  foldl (fun w data => (handleReceiveMessage data w).1) w messages.

(** The candidates of the peer a snapshot carries for a listener. *)
Definition peer_candidates (l : Listener) (data : option Doc)
  : list IceCandidate :=
  default []
    (data ≫= match l with
              | InitiatorListener _ => answerCandidates
              | ResponderListener _ => offerCandidates
              end).

(** How often [c] occurs in a list of candidates. *)
Definition occurrences (c : IceCandidate) (l : list IceCandidate) : nat :=
  length (filter (fun c' => c' = c) l).

(** How often [addIceCandidate] has been called with [c]. *)
Definition applications (c : IceCandidate) (w : World) : nat :=
  length (filter (fun call => call = CallAddIceCandidate c) (calls w)).

Definition is_setRemoteDescription (call : Call) : bool :=
  match call with
  | CallSetRemoteDescription _ => true
  | _ => false
  end.

(** How often [setRemoteDescription] has been called. *)
Definition remote_applications (w : World) : nat :=
  length (filter (fun call => is_setRemoteDescription call = true) (calls w)).

(** The description of the peer a snapshot carries for a listener. *)
Definition peer_description (l : Listener) (data : option Doc)
  : option SessionDescription :=
  data ≫= match l with
           | InitiatorListener _ => answer
           | ResponderListener _ => offer
           end.

(** A snapshot with the peer's candidates cut down to the novel ones. *)
Definition only_novel (l : Listener) (seen : list IceCandidate)
    (data : option Doc) : option Doc :=
  d ← data;
  Some match l with
       | InitiatorListener _ =>
           {| offer := offer d; offerCandidates := offerCandidates d;
              answer := answer d;
              answerCandidates := novel seen <$> answerCandidates d |}
       | ResponderListener _ =>
           {| offer := offer d;
              offerCandidates := novel seen <$> offerCandidates d;
              answer := answer d; answerCandidates := answerCandidates d |}
       end.

(** What the specification asks of the listener, in its words: it tracks
    the set of applied candidates and applies, of each snapshot, the
    candidates that are not in the set. *)
Fixpoint deliver_once (l : Listener) (snapshots : list (option Doc))
    (seen : list IceCandidate) (w : World) : World :=
  match snapshots with
  | [] => w
  | data :: snapshots =>
      deliver_once l snapshots (seen ++ peer_candidates l data)
        (snapshot l (only_novel l seen data) w)
  end.

(** Two worlds that differ at most in the log of the calls made: the
    same state, refs (the peer connection among them), records,
    listeners, timers and downloads. *)
Definition same_but_calls (w w' : World) : Prop :=
  react w = react w' /\ refs w = refs w' /\ db w = db w' /\
  listeners w = listeners w' /\ timers w = timers w' /\
  downloads w = downloads w'.

(** The candidates in [seen] have been handed to the connection. *)
Definition all_applied (seen : list IceCandidate) (w : World) : Prop :=
  forall c pc, c ∈ seen -> peerConnection (refs w) = Some pc -> applied c pc.

(** What a listener does between two of its awaits: what one invocation
    does without giving way to another callback. *)
Inductive Segment :=
(** [setStatus(...)] *)
| ShowStatus (s : Status)
(** [peerConnection.current?.setRemoteDescription(d)] *)
| ApplyRemote (d : SessionDescription)
(** [peerConnection.current?.setLocalDescription(d)] *)
| ApplyLocal (d : SessionDescription)
(** [updateDoc(callDocRef, { answer, answerCandidates: [] })] *)
| WriteAnswer (callDocRef : DocRef) (d : SessionDescription)
(** [candidates.forEach(...)] *)
| AddCandidates (candidates : list IceCandidate).

Definition perform (w : World) (seg : Segment) : World :=
  match seg with
  | ShowStatus s => setStatus s w
  | ApplyRemote d =>
      on_peerConnection (setRemoteDescription d)
        (CallSetRemoteDescription d) w
  | ApplyLocal d =>
      on_peerConnection (setLocalDescription d)
        (CallSetLocalDescription d) w
  | WriteAnswer callDocRef d =>
      match Firestore.updateDoc callDocRef
              (fun doc => {| offer := offer doc;
                             offerCandidates := offerCandidates doc;
                             answer := Some d;
                             answerCandidates := Some [] |})
              (db w) with
      | Some db' => record_call (CallUpdateDoc callDocRef) (with_db db' w)
      | None => w
      end
  | AddCandidates candidates => addIceCandidates candidates w
  end.

(** The same for the listener that tracks the set of applied
    candidates. *)
Definition perform_once (ws : World * list IceCandidate) (seg : Segment)
  : World * list IceCandidate :=
  match seg with
  | AddCandidates candidates =>
      (addIceCandidates (novel ws.2 candidates) ws.1, ws.2 ++ candidates)
  | _ => (perform ws.1 seg, ws.2)
  end.

(** The segments of one invocation of a listener that is not
    interrupted. *)
Definition segments (l : Listener) (data : option Doc) (w : World)
  : list Segment :=
  let candidates :=
    match data ≫= match l with
                   | InitiatorListener _ => answerCandidates
                   | ResponderListener _ => offerCandidates
                   end with
    | Some candidates => [AddCandidates candidates]
    | None => []
    end in
  match peer_description l data with
  | Some d =>
      if noRemoteDescription w then
        match l with
        | InitiatorListener _ =>
            [ApplyRemote d; ShowStatus ReceiverConnected] ++ candidates
        | ResponderListener callDocRef =>
            ShowStatus OfferReceived ::
            match peerConnection (refs w) with
            | None => []
            | Some pc =>
                let answerDescription :=
                  createAnswer (setRemoteDescription d pc) in
                [ApplyRemote d; ApplyLocal answerDescription;
                 WriteAnswer callDocRef
                   {| type := type answerDescription;
                      sdp := sdp answerDescription |}]
                ++ match db w !! callDocRef with
                   | Some _ => ShowStatus AnswerSent :: candidates
                   | None => []
                   end
            end
        end
      else candidates
  | None => candidates
  end.

(** The responder can write its answer: the record it listens to
    exists.  Nothing is asked of the initiator. *)
Definition answer_writable (l : Listener) (w : World) : Prop :=
  match l with
  | InitiatorListener _ => True
  | ResponderListener callDocRef => is_Some (db w !! callDocRef)
  end.

(** A stored callback whose render has an empty share code. *)
Definition no_share_code (cb : Callback) : Prop :=
  match cb with
  | SendOnOpen render _ | SenderTeardown render => shareCode render = ""
  | _ => True
  end.

(** The renders the sender's closures are created in: the main view is
    only drawn with an empty share code, and every stored callback of the
    sender comes from such a render. *)
Record closures_stale (w : World) : Prop := {
  main_view_no_code :
    renderContent (react w) = MainView -> shareCode (react w) = "";
  onopen_no_code : forall dc cb,
    dataChannel (refs w) = Some dc -> onopen dc = Some cb ->
    no_share_code cb;
  timers_no_code : Forall no_share_code (timers w);
}.

End Vocabulary.

(** ** Sessions and the collection *)

Section Sessions.

Context {RT : Runtime} {TR : Transport} (app_id : string).

(** The [onicecandidate] handler that goes with a state: the one that
    writes to the record of its share code, into the list of its role. *)
Definition own_handler (s : ReactState) : option IceHandler :=
  match mode s with
  | sending =>
      Some (ToOfferCandidates (getFileTransferDocRef app_id (shareCode s)))
  | receiving =>
      Some (ToAnswerCandidates (getFileTransferDocRef app_id (shareCode s)))
  | _ => None
  end.

(** What holds between the state and the refs at every state the events
    lead to. *)
Record session_consistent (w : World) : Prop := {
  idle_iff_no_connection :
    mode (react w) = idle <-> peerConnection (refs w) = None;
  never_in_transfer : mode (react w) <> transfer;
  handler_of_session :
    peerConnection (refs w) <> None ->
    onicecandidate (refs w) = own_handler (react w);
  receiving_with_code :
    mode (react w) = receiving -> shareCode (react w) <> "";
  counter_is_buffer_size :
    receivedFileSize (refs w)
      = Z.of_nat (length (Blob (receivedChunks (refs w))));
}.

(** What the listeners and the candidate handler leave alone: all but
    the status line, the state of the connection, the records and the
    log of calls. *)
Definition same_session (w w' : World) : Prop :=
  listeners w' = listeners w /\ timers w' = timers w /\
  downloads w' = downloads w /\
  mode (react w') = mode (react w) /\
  shareCode (react w') = shareCode (react w) /\
  showReceiveModal (react w') = showReceiveModal (react w) /\
  file (react w') = file (react w) /\
  onicecandidate (refs w') = onicecandidate (refs w) /\
  dataChannel (refs w') = dataChannel (refs w) /\
  receivedChunks (refs w') = receivedChunks (refs w) /\
  receivedFileSize (refs w') = receivedFileSize (refs w) /\
  fileMetadata (refs w') = fileMetadata (refs w) /\
  (peerConnection (refs w') = None <-> peerConnection (refs w) = None).

(** The candidate list of the record a session writes its own candidates
    to, and the one it reads its peer's candidates from. *)
Definition own_candidates (s : ReactState) (d : Doc)
  : option (list IceCandidate) :=
  match mode s with
  | sending => offerCandidates d
  | _ => answerCandidates d
  end.

Definition peers_candidates (s : ReactState) (d : Doc)
  : option (list IceCandidate) :=
  match mode s with
  | sending => answerCandidates d
  | _ => offerCandidates d
  end.

(** The documents of the collection: the records of share codes. *)
Definition in_collection (ref : DocRef) : Prop :=
  exists code, ref = getFileTransferDocRef app_id code.

(** The record a listener is subscribed to, and the one a candidate
    handler writes to. *)
Definition listener_ref (l : Listener) : DocRef :=
  match l with
  | InitiatorListener callDocRef | ResponderListener callDocRef => callDocRef
  end.

Definition handler_ref (h : IceHandler) : DocRef :=
  match h with
  | ToOfferCandidates callDocRef | ToAnswerCandidates callDocRef => callDocRef
  end.

(** A call on the store addresses a record of the collection. *)
Definition store_call_in_collection (call : Call) : Prop :=
  match call with
  | CallSetDoc ref | CallUpdateDoc ref | CallDeleteDoc ref => in_collection ref
  | _ => True
  end.

(** Every document reference a world holds or has used is a record of
    the collection. *)
Record store_confined (w : World) : Prop := {
  handler_confined : forall h,
    onicecandidate (refs w) = Some h -> in_collection (handler_ref h);
  listeners_confined :
    Forall (fun l => in_collection (listener_ref l)) (listeners w);
  calls_confined : Forall store_call_in_collection (calls w);
}.

(** What the sender's loop leaves alone: all but the channel, the status
    line and the timers. *)
Definition same_but_channel (w w' : World) : Prop :=
  listeners w' = listeners w /\ downloads w' = downloads w /\
  db w' = db w /\ calls w' = calls w /\
  mode (react w') = mode (react w) /\
  shareCode (react w') = shareCode (react w) /\
  showReceiveModal (react w') = showReceiveModal (react w) /\
  file (react w') = file (react w) /\
  peerConnection (refs w') = peerConnection (refs w) /\
  onicecandidate (refs w') = onicecandidate (refs w) /\
  receivedChunks (refs w') = receivedChunks (refs w) /\
  receivedFileSize (refs w') = receivedFileSize (refs w) /\
  fileMetadata (refs w') = fileMetadata (refs w).

(** What the receive handler leaves alone. *)
Definition same_but_buffer (w w' : World) : Prop :=
  listeners w' = listeners w /\ db w' = db w /\ calls w' = calls w /\
  mode (react w') = mode (react w) /\
  shareCode (react w') = shareCode (react w) /\
  showReceiveModal (react w') = showReceiveModal (react w) /\
  file (react w') = file (react w) /\
  peerConnection (refs w') = peerConnection (refs w) /\
  onicecandidate (refs w') = onicecandidate (refs w) /\
  dataChannel (refs w') = dataChannel (refs w).

End Sessions.

(* ===================================================================== *)
(** * Scenarios *)
(* ===================================================================== *)

Module Scenario.

Definition app : string := "fileflow".

Definition code482913 : DocRef := getFileTransferDocRef app "482913".
Definition code531204 : DocRef := getFileTransferDocRef app "531204".

(** A record as the initiator creates it. *)
Definition offered : Doc :=
  {| offer := Some {| sdp := "v=0 offer"; type := "offer" |};
     offerCandidates := Some []; answer := None; answerCandidates := None |}.

Definition host1 : IceCandidate :=
  {| candidate := "candidate:1 1 udp 2122260223 192.0.2.1 54321 typ host";
     sdpMid := "0"; sdpMLineIndex := 0 |}.
Definition host2 : IceCandidate :=
  {| candidate := "candidate:2 1 udp 2122194687 192.0.2.2 54322 typ host";
     sdpMid := "0"; sdpMLineIndex := 0 |}.

(** A responder that has submitted the code 482913 while the record for
    it exists. *)
Definition responder : option (@World PlainTransport) :=
  run app [ClickReceive; SubmitCode "482913"]
    (initialWorld {[ code482913 := offered ]}).

(** The metadata message for a two-byte file [doc.bin]. *)
Definition metadata_text : string :=
  ECMA.JSON_stringify
    (JS.Obj [("name", JS.Str "doc.bin"); ("size", JS.Num (JS.of_Z 2))]).

(** A responder whose channel is open and that has not received
    anything. *)
Definition awaiting : option (@World PlainTransport) :=
  w ← responder; run app [DataChannelAnnounced; ChannelOpen] w.

(** The same responder after the metadata and the first of two bytes. *)
Definition receiving_one : option (@World PlainTransport) :=
  w ← awaiting;
  run app [ChannelMessage (Text metadata_text);
           ChannelMessage (Binary [Byte.x41])] w.

(** An initiator that picked a one-byte file, with [Math.random()]
    giving 0.531204. *)
Definition one_byte : File := {| name := "doc.bin"; content := [Byte.x41] |}.
Definition random531204 : JS.number := JS.of_decimal false 531204 (-6).

Definition initiator : option (@World PlainTransport) :=
  run app [SelectFile (Some one_byte) random531204] (initialWorld ∅).

(** The initiator once its channel has opened and the file is sent. *)
Definition sent_all : option (@World PlainTransport) :=
  w ← initiator; run app [ChannelOpen] w.

(** Two snapshots of the record of 531204 as the responder fills it in:
    the second carries the candidate of the first and one more. *)
Definition answered (candidates : list IceCandidate) : Doc :=
  {| offer := offer offered; offerCandidates := Some [];
     answer := Some {| sdp := "v=0 answer"; type := "answer" |};
     answerCandidates := Some candidates |}.

Definition overlapping : list (option Doc) :=
  [Some (answered [host1]); Some (answered [host1; host2])].

(** The same initiator on the transport that works through what it is
    handed, and its world once the transport has completed what it was
    asked for. *)
Definition queued_initiator : option (@World QueuedTransport) :=
  run app [SelectFile (Some one_byte) random531204] (initialWorld ∅).

Definition settle (w : @World QueuedTransport) : @World QueuedTransport :=
  set_peerConnection (settled <$> peerConnection (refs w)) w.

(** That initiator once its listener has been called with the record the
    responder has written its answer to. *)
Definition answer_requested : option (@World QueuedTransport) :=
  w ← queued_initiator; run app [SnapshotDelivered 0 (Some (answered []))] w.

(** The empty file. *)
Definition empty_file : File := {| name := "empty"; content := [] |}.

(** The initiator of the empty file once its channel has opened. *)
Definition sent_empty : option (@World PlainTransport) :=
  run app [SelectFile (Some empty_file) random531204; ChannelOpen]
    (initialWorld ∅).

(** Three bytes, and the channel of [initiator] before anything is sent. *)
Definition three_bytes : File :=
  {| name := "abc.txt"; content := [Byte.x61; Byte.x62; Byte.x63] |}.

Definition fresh_channel : RTCDataChannel :=
  {| onopen := Some (SendOnOpen initialState one_byte);
     onmessage := false; sent := [] |}.

(** The world a run ends in. *)
Definition the (o : option (@World PlainTransport)) : @World PlainTransport :=
  default (initialWorld ∅) o.

(** The initiator after a cancellation. *)
Definition cancelled : option (@World PlainTransport) :=
  w ← initiator; run app [ClickCancel] w.

(** A responder that has submitted the code 531204 while the record of
    the initiator exists. *)
Definition responder531204 : option (@World PlainTransport) :=
  w ← initiator;
  run app [ClickReceive; SubmitCode "531204"] (initialWorld (db w)).

(** That responder once its channel has opened. *)
Definition awaiting531204 : option (@World PlainTransport) :=
  w ← responder531204; run app [DataChannelAnnounced; ChannelOpen] w.

(** The receiver of [receiving_one] after a text message without a
    size. *)
Definition no_size : option (@World PlainTransport) :=
  w ← receiving_one; run app [ChannelMessage (Text "{}")] w.

Definition the_queued (o : option (@World QueuedTransport))
  : @World QueuedTransport :=
  default (initialWorld ∅) o.

End Scenario.

(* ===================================================================== *)
(** * Numbers *)
(* ===================================================================== *)

Section Numbers.


Lemma digits2_pos_bounds p :
  2 ^ (Zpos (digits2_pos p) - 1) <= Zpos p < 2 ^ Zpos (digits2_pos p).
Proof.
  induction p as [p IH|p IH|]; simpl digits2_pos.
  - rewrite Pos2Z.inj_succ.
    replace (Z.succ (Zpos (digits2_pos p)) - 1)
      with (Z.succ (Zpos (digits2_pos p) - 1)) by lia.
    rewrite !Z.pow_succ_r by lia.
    set (A := 2 ^ (Z.pos (digits2_pos p) - 1)) in *.
    set (B := 2 ^ Z.pos (digits2_pos p)) in *. lia.
  - rewrite Pos2Z.inj_succ.
    replace (Z.succ (Zpos (digits2_pos p)) - 1)
      with (Z.succ (Zpos (digits2_pos p) - 1)) by lia.
    rewrite !Z.pow_succ_r by lia.
    set (A := 2 ^ (Z.pos (digits2_pos p) - 1)) in *.
    set (B := 2 ^ Z.pos (digits2_pos p)) in *. lia.
  - simpl. lia.
Qed.

Lemma Zdigits2_bounds m :
  0 < m -> 2 ^ (Zdigits2 m - 1) <= m < 2 ^ Zdigits2 m.
Proof. destruct m as [|p|p]; try lia. intros _. apply digits2_pos_bounds. Qed.

Lemma Zdigits2_nonneg m : 0 <= Zdigits2 m.
Proof. destruct m; simpl; lia. Qed.

Lemma Zdigits2_le m k : 0 <= m -> 0 <= k -> m < 2 ^ k -> Zdigits2 m <= k.
Proof.
  intros Hm Hk Hlt. destruct (Z.eq_dec m 0) as [->|Hne]; [simpl; lia|].
  destruct (Zdigits2_bounds m ltac:(lia)) as [Hlo _].
  destruct (Z.le_gt_cases (Zdigits2 m) k) as [|Hgt]; [done|].
  exfalso. assert (2 ^ k <= 2 ^ (Zdigits2 m - 1)) by (apply Z.pow_le_mono_r; lia).
  lia.
Qed.

Lemma Zdigits2_ge m k : 2 ^ (k - 1) <= m -> 0 < m -> k <= Zdigits2 m.
Proof.
  intros Hlo Hm. destruct (Zdigits2_bounds m Hm) as [_ Hhi].
  destruct (Z.le_gt_cases k (Zdigits2 m)) as [|Hgt]; [done|].
  exfalso. pose proof (Zdigits2_nonneg m).
  assert (2 ^ Zdigits2 m <= 2 ^ (k - 1)) by (apply Z.pow_le_mono_r; lia).
  lia.
Qed.

Lemma shifted_1 x : shifted 1 x (shr_1 x).
Proof.
  destruct x as [m r s]. intros Hm. simpl in Hm.
  destruct m as [|[p|p|]|p]; simpl; try lia.
  - split; [done|]. intros -> ->. done.
  - split.
    + change (2 ^ 1) with 2. apply (Z.div_unique _ _ _ 1); lia.
    + intros _ _ Hmod. exfalso. change (2 ^ 1) with 2 in Hmod.
      pose proof (Z.div_mod (Z.pos p~1) 2 ltac:(lia)). lia.
  - split.
    + change (2 ^ 1) with 2. apply (Z.div_unique _ _ _ 0); lia.
    + intros -> ->. done.
  - split; [done|]. intros _ _ Hmod. discriminate.
Qed.

Lemma shifted_trans a b x y z :
  0 <= a -> 0 <= b -> shifted a x y -> shifted b y z -> shifted (a + b) x z.
Proof.
  intros Ha Hb Hxy Hyz Hm.
  destruct (Hxy Hm) as [Hy Hy'].
  assert (0 < 2 ^ a) by (apply Z.pow_pos_nonneg; lia).
  assert (0 < 2 ^ b) by (apply Z.pow_pos_nonneg; lia).
  assert (Hmy : 0 <= shr_m y) by (rewrite Hy; apply Z.div_pos; lia).
  destruct (Hyz Hmy) as [Hz Hz'].
  split.
  - rewrite Hz, Hy, Z.pow_add_r, Z.div_div by lia. done.
  - intros Hr Hs Hmod. rewrite Z.pow_add_r in Hmod by lia.
    assert (Hdiv : shr_m x = 2 ^ a * 2 ^ b * (shr_m x / (2 ^ a * 2 ^ b))).
    { apply Z.div_exact; [lia|done]. }
    assert (Hmoda : shr_m x mod 2 ^ a = 0).
    { rewrite Hdiv, <- Z.mul_assoc, Z.mul_comm. apply Z.mod_mul. lia. }
    destruct (Hy' Hr Hs Hmoda) as [Hry Hsy].
    apply Hz'; [done|done|].
    rewrite Hy, Hdiv at 1.
    rewrite <- Z.mul_assoc, Z.mul_comm, Z.div_mul by lia.
    rewrite Z.mul_comm. apply Z.mod_mul. lia.
Qed.

Lemma shifted_iter p x : shifted (Zpos p) x (SpecFloat.iter_pos shr_1 p x).
Proof.
  revert x. induction p as [p IH|p IH|]; intros x; simpl SpecFloat.iter_pos.
  - replace (Zpos p~1) with (1 + (Zpos p + Zpos p)) by lia.
    eapply shifted_trans; [lia|lia|apply shifted_1|].
    eapply shifted_trans; [lia|lia|apply IH|apply IH].
  - replace (Zpos p~0) with (Zpos p + Zpos p) by lia.
    eapply shifted_trans; [lia|lia|apply IH|apply IH].
  - apply shifted_1.
Qed.


Lemma shr_record_of_loc_m m l : shr_m (shr_record_of_loc m l) = m.
Proof. by destruct l as [|[]]. Qed.

Lemma loc_of_shr_record_of_loc m l :
  loc_of_shr_record (shr_record_of_loc m l) = l.
Proof. by destruct l as [|[]]. Qed.

Lemma fexp_below b eb m e :
  0 < b -> Zdigits2 b <= JS.prec -> emin JS.prec JS.emax <= eb ->
  e <= eb -> 0 <= m -> m <= b * 2 ^ (eb - e) ->
  fexp JS.prec JS.emax (Zdigits2 m + e) <= eb.
Proof.
  unfold fexp, emin, JS.prec, JS.emax. intros Hb Hdb Heb He Hm Hle.
  destruct (Z.eq_dec m 0) as [->|Hne]; [simpl; lia|].
  destruct (Zdigits2_bounds b Hb) as [_ Hbhi].
  pose proof (Zdigits2_nonneg b) as Hdb0.
  assert (Hlt : m < 2 ^ (Zdigits2 b + (eb - e))).
  { rewrite Z.pow_add_r by lia.
    assert (0 < 2 ^ (eb - e)) by (apply Z.pow_pos_nonneg; lia). nia. }
  apply Zdigits2_le in Hlt; lia.
Qed.

Lemma shr_fexp_below b eb m e l mrs e' :
  0 < b -> Zdigits2 b <= JS.prec -> emin JS.prec JS.emax <= eb ->
  below b eb m e l ->
  shr_fexp JS.prec JS.emax m e l = (mrs, e') ->
  below b eb (shr_m mrs) e' (loc_of_shr_record mrs).
Proof.
  intros Hb Hdb Heb (He & Hm & Hle) Hshr. unfold shr_fexp, shr in Hshr.
  assert (Hfexp : fexp JS.prec JS.emax (Zdigits2 m + e) <= eb).
  { apply (fexp_below b); try done. destruct Hle as [?|[? _]]; lia. }
  destruct (fexp JS.prec JS.emax (Zdigits2 m + e) - e) as [|n|n] eqn:Hn.
  - injection Hshr as <- <-.
    rewrite shr_record_of_loc_m, loc_of_shr_record_of_loc. done.
  - injection Hshr as <- <-.
    destruct (shifted_iter n (shr_record_of_loc m l)) as [Hdiv Hexact].
    { by rewrite shr_record_of_loc_m. }
    rewrite shr_record_of_loc_m in Hdiv, Hexact.
    assert (Hpow : 0 < 2 ^ Z.pos n) by (apply Z.pow_pos_nonneg; lia).
    set (X := b * 2 ^ (eb - (e + Z.pos n))).
    assert (Hsplit : b * 2 ^ (eb - e) = X * 2 ^ Z.pos n).
    { unfold X. rewrite <- Z.mul_assoc, <- Z.pow_add_r by lia.
      do 2 f_equal. lia. }
    split; [lia|]. split; [rewrite Hdiv; apply Z.div_pos; lia|].
    rewrite Hdiv. destruct Hle as [Hlt|[Heq ->]].
    + left. rewrite Hsplit in Hlt. apply Z.div_lt_upper_bound; lia.
    + right. rewrite Hsplit in Heq. split.
      { rewrite Heq. apply Z.div_mul. lia. }
      destruct Hexact as [Hr Hs']; [done|done| |].
      { rewrite Heq. apply Z.mod_mul. lia. }
      destruct (SpecFloat.iter_pos _ _ _) as [m' r' s']. simpl in *. by subst.
  - injection Hshr as <- <-.
    rewrite shr_record_of_loc_m, loc_of_shr_record_of_loc. done.
Qed.

Lemma round_nearest_even_below b eb m e l :
  below b eb m e l -> below b eb (round_nearest_even m l) e loc_Exact.
Proof.
  intros (He & Hm & Hle). split; [done|].
  destruct Hle as [Hlt|[Heq ->]].
  - destruct l as [|[]]; simpl; try case_match; split; try lia;
      (destruct (Z.eq_dec (m + 1) (b * 2 ^ (eb - e))); [right|left]; done || lia).
  - simpl. split; [done|]. by right.
Qed.

(** Rounding to nearest never crosses a number that the format holds. *)
Lemma binary_round_aux_below b eb mx ex lx :
  0 < b -> Zdigits2 b <= JS.prec ->
  emin JS.prec JS.emax <= eb <= JS.emax - JS.prec ->
  below b eb mx ex lx ->
  binary_round_aux JS.prec JS.emax false mx ex lx = S754_zero false \/
  exists m e,
    binary_round_aux JS.prec JS.emax false mx ex lx = S754_finite false m e /\
    e <= eb /\ Zpos m <= b * 2 ^ (eb - e).
Proof.
  intros Hb Hdb [Hlo Hhi] Hbelow. unfold binary_round_aux.
  destruct (shr_fexp JS.prec JS.emax mx ex lx) as [mrs' e'] eqn:H1.
  apply (shr_fexp_below b eb) in H1; try done.
  apply round_nearest_even_below in H1.
  destruct (shr_fexp JS.prec JS.emax _ e' loc_Exact) as [mrs'' e''] eqn:H2.
  apply (shr_fexp_below b eb) in H2; try done.
  destruct H2 as (He & Hm & Hle).
  destruct (shr_m mrs'') as [|m|m]; [by left| |lia].
  right. exists m, e''. rewrite (proj2 (Z.leb_le _ _)) by lia.
  split; [done|]. split; [done|]. destruct Hle as [?|[? _]]; lia.
Qed.

(** ** Integers as Numbers *)

Lemma Pos_iter_xO p k : Zpos (Pos.iter xO p k) = Zpos p * 2 ^ Zpos k.
Proof.
  induction k as [|k IH] using Pos.peano_ind.
  - simpl. lia.
  - rewrite Pos.iter_succ, Pos2Z.inj_succ, Z.pow_succ_r by lia.
    change (Zpos (Pos.iter xO p k)~0) with (2 * Zpos (Pos.iter xO p k)). lia.
Qed.

Lemma digits2_pos_iter_xO p k :
  Zpos (digits2_pos (Pos.iter xO p k)) = Zpos (digits2_pos p) + Zpos k.
Proof.
  induction k as [|k IH] using Pos.peano_ind.
  - simpl. lia.
  - rewrite Pos.iter_succ. simpl digits2_pos. lia.
Qed.

(** A mantissa of 53 bits at an exponent in range is kept as it is. *)
Lemma binary_round_aux_canonical s m e :
  Zpos (digits2_pos m) = JS.prec -> -1074 <= e <= 971 ->
  binary_round_aux JS.prec JS.emax s (Zpos m) e loc_Exact = S754_finite s m e.
Proof.
  intros Hd He. unfold binary_round_aux, shr_fexp. simpl Zdigits2.
  assert (Hf : fexp JS.prec JS.emax (Zpos (digits2_pos m) + e) - e = 0).
  { rewrite Hd. unfold fexp, emin, JS.prec, JS.emax. lia. }
  rewrite Hf. simpl. rewrite Hf. simpl.
  rewrite (proj2 (Z.leb_le e _)); [done|]. unfold JS.emax, JS.prec. lia.
Qed.

(** The Number of an integer of [d <= 53] bits: the integer shifted to 53
    bits, at the exponent [d - 53]. *)
Lemma of_Z_canonical n :
  0 < n < 2 ^ 53 ->
  exists m,
    JS.of_Z n = S754_finite false m (Zdigits2 n - 53) /\
    Zpos m = n * 2 ^ (53 - Zdigits2 n) /\
    Zpos (digits2_pos m) = 53 /\
    1 <= Zdigits2 n <= 53.
Proof.
  intros [Hpos Hlt]. destruct n as [|p|p]; try lia.
  assert (Hd : 1 <= Zpos (digits2_pos p) <= 53).
  { split; [lia|]. apply (Zdigits2_le (Zpos p)); lia. }
  unfold JS.of_Z, binary_normalize, binary_round, shl_align. simpl Zdigits2.
  assert (Hf : fexp JS.prec JS.emax (Zpos (digits2_pos p) + 0)
               = Zpos (digits2_pos p) - 53).
  { unfold fexp, emin, JS.prec, JS.emax. lia. }
  rewrite Hf.
  destruct (Zpos (digits2_pos p) - 53 - 0) as [|k|k] eqn:Hk; try lia.
  - exists p. rewrite binary_round_aux_canonical by (unfold JS.prec; lia).
    replace (Zpos (digits2_pos p) - 53) with 0 by lia.
    replace (53 - Zpos (digits2_pos p)) with 0 by lia.
    repeat split; try lia.
  - exists (Pos.iter xO p k).
    rewrite binary_round_aux_canonical;
      [|rewrite digits2_pos_iter_xO; unfold JS.prec; lia|lia].
    rewrite Pos_iter_xO, digits2_pos_iter_xO.
    replace (53 - Zpos (digits2_pos p)) with (Zpos k) by lia.
    repeat split; try lia.
Qed.

Lemma int_value_of_Z n :
  0 < n < 2 ^ 53 -> JS.int_value (JS.of_Z n) = Some n.
Proof.
  intros Hn. destruct (of_Z_canonical n Hn) as (m & -> & Hm & _ & Hd).
  unfold JS.int_value, cond_Zopp.
  assert (Hpow : 0 < 2 ^ (53 - Zdigits2 n)) by (apply Z.pow_pos_nonneg; lia).
  destruct (Z.leb_spec 0 (Zdigits2 n - 53)) as [Hge|Hneg].
  - assert (E : Zdigits2 n = 53) by lia. rewrite E in *.
    change (2 ^ (53 - 53)) with 1 in Hm. change (2 ^ (53 - 53)) with 1.
    f_equal. lia.
  - replace (- (Zdigits2 n - 53)) with (53 - Zdigits2 n) by lia.
    rewrite Hm, Z.mod_mul, Z.div_mul by lia. done.
Qed.

(** ** Quotients and the percentage *)

Lemma new_location_exact my : new_location my 0 = loc_Exact.
Proof. unfold new_location. by destruct (Z.even my). Qed.

(** A quotient of two 53-bit mantissas whose value is at most 1 is
    rounded to at most 1. *)
Lemma div_below_one mx ex my ey :
  Zpos (digits2_pos mx) = 53 -> Zpos (digits2_pos my) = 53 ->
  -52 <= ex <= ey -> ey <= 0 ->
  Zpos mx <= Zpos my * 2 ^ (ey - ex) ->
  JS.div (S754_finite false mx ex) (S754_finite false my ey) = S754_zero false \/
  exists m e,
    JS.div (S754_finite false mx ex) (S754_finite false my ey)
      = S754_finite false m e /\
    e <= 0 /\ Zpos m <= 2 ^ (- e).
Proof.
  intros Hdx Hdy Hex Hey Hle. unfold JS.div, SFdiv, SFdiv_core_binary.
  simpl Zdigits2. rewrite Hdx, Hdy.
  assert (He' : Z.min (fexp JS.prec JS.emax (53 + ex - (53 + ey))) (ex - ey)
                = ex - ey - 53).
  { unfold fexp, emin, JS.prec, JS.emax. lia. }
  rewrite He'. replace (ex - ey - (ex - ey - 53)) with 53 by lia.
  rewrite Z.shiftl_mul_pow2 by lia.
  pose proof (Z_div_mod (Zpos mx * 2 ^ 53) (Zpos my) ltac:(lia)) as Hdm.
  destruct (Z.div_eucl (Zpos mx * 2 ^ 53) (Zpos my)) as [q r].
  destruct Hdm as [Hq Hr]. simpl xorb.
  assert (Hq0 : 0 <= q) by nia.
  assert (Hpow : 2 ^ (0 - (ex - ey - 53)) = 2 ^ (ey - ex) * 2 ^ 53).
  { rewrite <- Z.pow_add_r by lia. f_equal. lia. }
  assert (Hp1 : 0 < 2 ^ (ey - ex)) by (apply Z.pow_pos_nonneg; lia).
  assert (Hbelow : below 1 0 q (ex - ey - 53) (new_location (Zpos my) r)).
  { split; [lia|]. split; [done|]. rewrite Z.mul_1_l, Hpow.
    destruct (Z.eq_dec q (2 ^ (ey - ex) * 2 ^ 53)) as [Heq|Hne].
    - right. split; [done|]. assert (r = 0) by nia. subst r.
      apply new_location_exact.
    - left. nia. }
  assert (Hrange : emin JS.prec JS.emax <= 0 <= JS.emax - JS.prec).
  { unfold emin, JS.emax, JS.prec. lia. }
  destruct (binary_round_aux_below 1 0 q (ex - ey - 53)
              (new_location (Zpos my) r) ltac:(lia) ltac:(done) Hrange Hbelow)
    as [Hz|(m & e & Hres & He & Hm)].
  - by left.
  - right. exists m, e. split; [done|]. split; [done|].
    by rewrite Z.mul_1_l, Z.sub_0_l in Hm.
Qed.

(** One hundred, as a Number. *)
Lemma of_Z_100 : JS.of_Z 100 = S754_finite false (25 * 2 ^ 48) (-46).
Proof. reflexivity. Qed.

(** A Number that is at most 1, times 100, is at most 100. *)
Lemma mul_100_below m e :
  e <= 0 -> Zpos m <= 2 ^ (- e) ->
  JS.mul (S754_finite false m e) (JS.of_Z 100) = S754_zero false \/
  exists m' e',
    JS.mul (S754_finite false m e) (JS.of_Z 100) = S754_finite false m' e' /\
    e' <= 2 /\ Zpos m' <= 25 * 2 ^ (2 - e').
Proof.
  intros He Hm. rewrite of_Z_100. unfold JS.mul, SFmul. simpl xorb.
  assert (Hrange : emin JS.prec JS.emax <= 2 <= JS.emax - JS.prec).
  { unfold emin, JS.emax, JS.prec. lia. }
  apply (binary_round_aux_below 25 2); [lia|done|done|].
  split; [lia|]. split; [lia|].
  replace (2 - (e + -46)) with (48 + - e) by lia.
  rewrite Z.pow_add_r by lia. rewrite Pos2Z.inj_mul.
  change (Zpos (25 * 2 ^ 48)) with (25 * 2 ^ 48).
  destruct (Z.eq_dec (Zpos m) (2 ^ (- e))) as [->|Hne].
  - right. split; [lia|done].
  - left. nia.
Qed.

(** Rounding a Number that is at most 100 to an integer. *)
Lemma round_half_up_below m e :
  e <= 2 -> Zpos m <= 25 * 2 ^ (2 - e) ->
  0 <= JS.round_half_up false m e <= 100.
Proof.
  intros He Hm. unfold JS.round_half_up, cond_Zopp.
  destruct (Z.leb_spec 0 e) as [Hpos|Hneg].
  - assert (Hsplit : 2 ^ (2 - e) * 2 ^ e = 4).
    { rewrite <- Z.pow_add_r by lia. by replace (2 - e + e) with 2 by lia. }
    assert (0 < 2 ^ e) by (apply Z.pow_pos_nonneg; lia). nia.
  - assert (Hk : 0 < 2 ^ (- e)) by (apply Z.pow_pos_nonneg; lia).
    replace (2 - e) with (2 + - e) in Hm by lia.
    rewrite Z.pow_add_r in Hm by lia.
    rewrite (Z.pow_add_r 2 (- e) 1) by lia. change (2 ^ 1) with 2.
    change (2 ^ 2) with 4 in Hm.
    split.
    + apply Z.div_pos; lia.
    + apply Z.lt_succ_r, Z.div_lt_upper_bound; lia.
Qed.

Lemma Math_round_below m e :
  e <= 2 -> Zpos m <= 25 * 2 ^ (2 - e) ->
  exists n, JS.int_value (JS.Math_round (S754_finite false m e)) = Some n /\
            0 <= n <= 100.
Proof.
  intros He Hm. pose proof (round_half_up_below m e He Hm) as Hn.
  unfold JS.Math_round.
  destruct (JS.round_half_up false m e) as [|n|n] eqn:Hr.
  - exists 0. by split.
  - exists (Zpos n). split; [|done]. apply int_value_of_Z. lia.
  - lia.
Qed.

(** The percentage of [r] out of [t] bytes. *)
Lemma progress_range r t :
  0 <= r <= t -> 0 < t < 2 ^ 53 ->
  exists n, JS.int_value (progress (JS.of_Z r) (JS.of_Z t)) = Some n /\
            0 <= n <= 100.
Proof.
  intros Hr Ht. unfold progress.
  destruct (of_Z_canonical t Ht) as (my & -> & Hmy & Hdy & Hdt).
  destruct (Z.eq_dec r 0) as [->|Hr0].
  { exists 0. by split. }
  destruct (of_Z_canonical r ltac:(lia)) as (mx & -> & Hmx & Hdx & Hdr).
  assert (Hdd : Zdigits2 r <= Zdigits2 t).
  { apply Zdigits2_le; try lia.
    destruct (Zdigits2_bounds t ltac:(lia)). lia. }
  destruct (div_below_one mx (Zdigits2 r - 53) my (Zdigits2 t - 53))
    as [->|(m & e & -> & He & Hm)]; try done; try lia.
  { rewrite Hmx, Hmy.
    replace (Zdigits2 t - 53 - (Zdigits2 r - 53))
      with (Zdigits2 t - Zdigits2 r) by lia.
    rewrite <- Z.mul_assoc, <- Z.pow_add_r by lia.
    replace (53 - Zdigits2 t + (Zdigits2 t - Zdigits2 r))
      with (53 - Zdigits2 r) by lia.
    assert (0 < 2 ^ (53 - Zdigits2 r)) by (apply Z.pow_pos_nonneg; lia).
    nia. }
  { exists 0. by split. }
  destruct (mul_100_below m e He Hm) as [->|(m' & e' & -> & He' & Hm')].
  { exists 0. by split. }
  by apply Math_round_below.
Qed.

(** Nothing guards the division: a total of 0 gives NaN or Infinity. *)
Lemma progress_zero_total r :
  0 <= r < 2 ^ 53 ->
  progress (JS.of_Z r) (JS.of_Z 0) = (if r =? 0 then JS.NaN else JS.Infinity).
Proof.
  intros Hr. destruct (Z.eqb_spec r 0) as [->|Hne]; [done|].
  destruct (of_Z_canonical r ltac:(lia)) as (m & -> & _). done.
Qed.


(** [===] on the Numbers of two integers below 2^53 is equality of the
    integers. *)
Lemma strict_equals_of_Z a b :
  0 <= a < 2 ^ 53 -> 0 <= b < 2 ^ 53 ->
  JS.strict_equals (JS.of_Z a) (JS.of_Z b) = bool_decide (a = b).
Proof.
  intros Ha Hb. unfold JS.strict_equals, SFeqb.
  destruct (Z.eq_dec a 0) as [->|Ha0], (Z.eq_dec b 0) as [->|Hb0].
  - done.
  - destruct (of_Z_canonical b ltac:(lia)) as (mb & -> & _).
    rewrite bool_decide_eq_false_2 by lia. done.
  - destruct (of_Z_canonical a ltac:(lia)) as (ma & -> & _).
    rewrite bool_decide_eq_false_2 by lia. done.
  - destruct (of_Z_canonical a ltac:(lia)) as (ma & -> & Hma & _ & Hda).
    destruct (of_Z_canonical b ltac:(lia)) as (mb & -> & Hmb & _ & Hdb).
    simpl. case_bool_decide as Hab.
    + subst b. assert (ma = mb) as -> by lia.
      by rewrite Z.compare_refl, Pos.compare_cont_refl.
    + destruct (Z.compare_spec (Zdigits2 a - 53) (Zdigits2 b - 53))
        as [He| |]; try done.
      assert (Hd : Zdigits2 a = Zdigits2 b) by lia. rewrite Hd in Hma.
      assert (Hne : ma <> mb).
      { intros ->.
        assert (0 < 2 ^ (53 - Zdigits2 b)) by (apply Z.pow_pos_nonneg; lia).
        nia. }
      fold (Pos.compare ma mb).
      destruct (Pos.compare_spec ma mb); done.
Qed.

Lemma new_location_located D q r :
  0 < D -> 0 <= r < D -> located (q * D + r) D q (new_location D r).
Proof.
  intros HD Hr. unfold new_location, new_location_even, new_location_odd.
  destruct (Z.even D) eqn:Heven.
  - destruct (Z.eqb_spec r 0) as [->|Hne]; [simpl; lia|].
    destruct (Z.compare_spec (2 * r) D); unfold located.
    all: nia.
  - destruct (Z.eqb_spec r 0) as [->|Hne]; [simpl; lia|].
    assert (Hodd : exists k, D = 2 * k + 1).
    { apply Z.odd_spec. by rewrite <- Z.negb_even, Heven. }
    destruct Hodd as [k ->].
    destruct (Z.compare_spec (2 * r + 1) (2 * k + 1)); unfold located; nia.
Qed.

Lemma shr_1_located N D x :
  0 < D -> 0 <= shr_m x ->
  located N D (shr_m x) (loc_of_shr_record x) ->
  0 <= shr_m (shr_1 x) /\
  located N (2 * D) (shr_m (shr_1 x)) (loc_of_shr_record (shr_1 x)).
Proof.
  intros HD Hm. destruct x as [m r s]. simpl in Hm.
  destruct m as [|[p|p|]|p]; try lia; destruct r, s; simpl; nia.
Qed.

Lemma iter_shr_1_located p : forall N D x,
  0 < D -> 0 <= shr_m x ->
  located N D (shr_m x) (loc_of_shr_record x) ->
  0 <= shr_m (SpecFloat.iter_pos shr_1 p x) /\
  located N (D * 2 ^ Zpos p) (shr_m (SpecFloat.iter_pos shr_1 p x))
    (loc_of_shr_record (SpecFloat.iter_pos shr_1 p x)).
Proof.
  induction p as [p IH|p IH|]; intros N D x HD Hm Hloc;
    simpl SpecFloat.iter_pos.
  - destruct (shr_1_located N D x HD Hm Hloc) as [Hm1 Hloc1].
    assert (Hp : 0 < 2 ^ Zpos p) by (apply Z.pow_pos_nonneg; lia).
    destruct (IH N (2 * D) _ ltac:(lia) Hm1 Hloc1) as [Hm2 Hloc2].
    destruct (IH N (2 * D * 2 ^ Zpos p) _ ltac:(nia) Hm2 Hloc2) as [Hm3 Hloc3].
    split; [done|].
    replace (D * 2 ^ Zpos p~1) with (2 * D * 2 ^ Zpos p * 2 ^ Zpos p); [done|].
    replace (Zpos p~1) with (1 + Zpos p + Zpos p) by lia.
    rewrite !Z.pow_add_r by lia. change (2 ^ 1) with 2. lia.
  - assert (Hp : 0 < 2 ^ Zpos p) by (apply Z.pow_pos_nonneg; lia).
    destruct (IH N D _ HD Hm Hloc) as [Hm2 Hloc2].
    destruct (IH N (D * 2 ^ Zpos p) _ ltac:(nia) Hm2 Hloc2) as [Hm3 Hloc3].
    split; [done|].
    replace (D * 2 ^ Zpos p~0) with (D * 2 ^ Zpos p * 2 ^ Zpos p); [done|].
    replace (Zpos p~0) with (Zpos p + Zpos p) by lia.
    rewrite !Z.pow_add_r by lia. lia.
  - destruct (shr_1_located N D x HD Hm Hloc) as [Hm1 Hloc1].
    split; [done|]. change (2 ^ 1) with 2. by rewrite Z.mul_comm.
Qed.

Lemma round_nearest_even_nearest N D m l :
  0 < D -> located N D m l ->
  m <= round_nearest_even m l <= m + 1 /\
  (2 * round_nearest_even m l - 1) * D <= 2 * N
    <= (2 * round_nearest_even m l + 1) * D.
Proof.
  intros HD Hloc. destruct l as [|[]]; simpl in *; try case_match; nia.
Qed.

Lemma shr_fexp_normal m e l :
  53 <= Zdigits2 m -> -1074 <= Zdigits2 m + e - 53 ->
  shr_fexp JS.prec JS.emax m e l
    = shr (shr_record_of_loc m l) e (Zdigits2 m - 53).
Proof.
  intros Hd He. unfold shr_fexp, fexp, emin, JS.prec, JS.emax. f_equal. lia.
Qed.

(** Shifting a mantissa of at least 53 bits down to 53 bits. *)
Lemma shr_to_precision N D m e l :
  0 < D -> 0 < m -> located N D m l -> 53 <= Zdigits2 m ->
  exists mrs,
    shr (shr_record_of_loc m l) e (Zdigits2 m - 53)
      = (mrs, e + (Zdigits2 m - 53)) /\
    2 ^ 52 <= shr_m mrs < 2 ^ 53 /\
    located N (D * 2 ^ (Zdigits2 m - 53)) (shr_m mrs) (loc_of_shr_record mrs).
Proof.
  intros HD Hm Hloc Hd. destruct (Zdigits2_bounds m Hm) as [Hlo Hhi].
  unfold shr. destruct (Zdigits2 m - 53) as [|p|p] eqn:Hk; [| |lia].
  - exists (shr_record_of_loc m l).
    rewrite Z.add_0_r, shr_record_of_loc_m, loc_of_shr_record_of_loc.
    replace (Zdigits2 m) with 53 in * by lia.
    split; [done|]. split; [done|]. by rewrite Z.mul_1_r.
  - exists (SpecFloat.iter_pos shr_1 p (shr_record_of_loc m l)).
    split; [done|].
    destruct (shifted_iter p (shr_record_of_loc m l)) as [Hdiv _].
    { rewrite shr_record_of_loc_m. lia. }
    rewrite shr_record_of_loc_m in Hdiv.
    destruct (iter_shr_1_located p N D (shr_record_of_loc m l)) as [_ Hl];
      [done|rewrite shr_record_of_loc_m; lia
      |by rewrite shr_record_of_loc_m, loc_of_shr_record_of_loc|].
    split; [|done]. rewrite Hdiv.
    assert (Hp : 0 < 2 ^ Zpos p) by (apply Z.pow_pos_nonneg; lia).
    replace (Zdigits2 m - 1) with (52 + Zpos p) in Hlo by lia.
    replace (Zdigits2 m) with (53 + Zpos p) in Hhi by lia.
    rewrite Z.pow_add_r in Hlo, Hhi by lia.
    split.
    + apply Z.div_le_lower_bound; lia.
    + apply Z.div_lt_upper_bound; lia.
Qed.

(** Rounding to nearest in the normal range: the result has 53 bits and
    lies within half a unit of its last place of the rational. *)
Lemma binary_round_aux_nearest N D mx ex lx :
  0 < D -> 0 < mx -> located N D mx lx ->
  53 <= Zdigits2 mx ->
  -1074 <= Zdigits2 mx + ex - 53 -> Zdigits2 mx + ex - 53 < 971 ->
  exists m e,
    binary_round_aux JS.prec JS.emax false mx ex lx = S754_finite false m e /\
    2 ^ 52 <= Zpos m < 2 ^ 53 /\
    Zdigits2 mx + ex - 53 <= e <= Zdigits2 mx + ex - 52 /\
    (2 * Zpos m - 1) * (D * 2 ^ (e - ex)) <= 2 * N
      <= (2 * Zpos m + 1) * (D * 2 ^ (e - ex)).
Proof.
  intros HD Hmx Hloc Hd Hlo Hhi. unfold binary_round_aux.
  rewrite shr_fexp_normal by done.
  destruct (shr_to_precision N D mx ex lx HD Hmx Hloc Hd)
    as (mrs & -> & Hm & Hl).
  set (k := Zdigits2 mx - 53) in *.
  assert (Hk : 0 < 2 ^ k) by (apply Z.pow_pos_nonneg; lia).
  destruct (round_nearest_even_nearest N (D * 2 ^ k) (shr_m mrs)
              (loc_of_shr_record mrs) ltac:(nia) Hl) as [Hmz Hnear].
  set (mz := round_nearest_even (shr_m mrs) (loc_of_shr_record mrs)) in *.
  destruct (Z.eq_dec mz (2 ^ 53)) as [Hcarry|Hnone].
  - rewrite Hcarry.
    assert (Hshr : shr_fexp JS.prec JS.emax (2 ^ 53) (ex + k) loc_Exact
                   = ({| shr_m := 2 ^ 52; shr_r := false; shr_s := false |},
                      ex + k + 1)).
    { rewrite shr_fexp_normal; [done|done|]. simpl Zdigits2. lia. }
    rewrite Hshr. simpl shr_m.
    rewrite (proj2 (Z.leb_le _ _)) by (unfold JS.emax, JS.prec; lia).
    eexists _, _. split; [reflexivity|]. split; [done|]. split; [lia|].
    replace (ex + k + 1 - ex) with (k + 1) by lia.
    rewrite Z.pow_add_r by lia. change (2 ^ 1) with 2.
    rewrite Hcarry in Hnear.
    change (Zpos (2 ^ 52)) with (2 ^ 52). nia.
  - assert (Hdz : Zdigits2 mz = 53).
    { apply Z.le_antisymm.
      - apply Zdigits2_le; lia.
      - apply Zdigits2_ge; lia. }
    rewrite shr_fexp_normal by (rewrite Hdz; lia). rewrite Hdz.
    simpl shr. simpl shr_m.
    destruct mz as [|m|m] eqn:Hmzp; try lia.
    rewrite (proj2 (Z.leb_le _ _)) by (unfold JS.emax, JS.prec; lia).
    exists m, (ex + k). split; [done|]. split; [lia|]. split; [lia|].
    replace (ex + k - ex) with k by lia. done.
Qed.

(** The quotient of two integers, [r <= t], as a Number: within half a
    unit of its last place of [r / t], and at most 1. *)
Lemma div_nearest r t :
  0 < r -> r <= t -> t < 2 ^ 53 ->
  exists m e,
    JS.div (JS.of_Z r) (JS.of_Z t) = S754_finite false m e /\
    2 ^ 52 <= Zpos m < 2 ^ 53 /\ -1000 <= e <= -52 /\
    Zpos m <= 2 ^ (- e) /\
    (2 * Zpos m - 1) * t <= 2 * r * 2 ^ (- e) <= (2 * Zpos m + 1) * t.
Proof.
  intros Hr Hle Ht.
  destruct (of_Z_canonical r ltac:(lia)) as (mx & Ex & Hmx & Hdx & Hdr).
  destruct (of_Z_canonical t ltac:(lia)) as (my & Ey & Hmy & Hdy & Hdt).
  assert (Hdd : Zdigits2 r <= Zdigits2 t).
  { apply Zdigits2_le; try lia.
    destruct (Zdigits2_bounds t ltac:(lia)). lia. }
  set (dr := Zdigits2 r) in *. set (dt := Zdigits2 t) in *.
  assert (Hpr : 0 < 2 ^ (53 - dr)) by (apply Z.pow_pos_nonneg; lia).
  assert (Hpt : 0 < 2 ^ (53 - dt)) by (apply Z.pow_pos_nonneg; lia).
  destruct (digits2_pos_bounds mx) as [Hxlo Hxhi].
  destruct (digits2_pos_bounds my) as [Hylo Hyhi].
  rewrite Hdx in Hxlo, Hxhi. rewrite Hdy in Hylo, Hyhi.
  change (53 - 1) with 52 in *.
  (* at most 1 *)
  assert (Hone : exists m e,
    JS.div (JS.of_Z r) (JS.of_Z t) = S754_finite false m e ->
    True) by (exists 1%positive, 0; done).
  clear Hone.
  rewrite Ex, Ey.
  pose proof (div_below_one mx (dr - 53) my (dt - 53) Hdx Hdy
                ltac:(lia) ltac:(lia)) as Hbelow.
  assert (Hratio : Zpos mx <= Zpos my * 2 ^ (dt - 53 - (dr - 53))).
  { rewrite Hmx, Hmy.
    replace (dt - 53 - (dr - 53)) with (dt - dr) by lia.
    rewrite <- Z.mul_assoc, <- Z.pow_add_r by lia.
    replace (53 - dt + (dt - dr)) with (53 - dr) by lia. nia. }
  specialize (Hbelow Hratio).
  (* within half a unit *)
  unfold JS.div, SFdiv, SFdiv_core_binary in *. simpl Zdigits2 in *.
  rewrite Hdx, Hdy in *. simpl xorb in *.
  assert (He' : Z.min (fexp JS.prec JS.emax (53 + (dr - 53) - (53 + (dt - 53))))
                  (dr - 53 - (dt - 53)) = dr - dt - 53).
  { unfold fexp, emin, JS.prec, JS.emax. lia. }
  rewrite He' in *.
  replace (dr - 53 - (dt - 53) - (dr - dt - 53)) with 53 in * by lia.
  rewrite Z.shiftl_mul_pow2 in * by lia.
  pose proof (Z_div_mod (Zpos mx * 2 ^ 53) (Zpos my) ltac:(lia)) as Hdm.
  destruct (Z.div_eucl (Zpos mx * 2 ^ 53) (Zpos my)) as [q rem].
  destruct Hdm as [Hq Hrem].
  assert (Hq52 : 2 ^ 52 <= q) by nia.
  assert (Hq54 : q < 2 ^ 54) by nia.
  assert (Hdq : 53 <= Zdigits2 q <= 54).
  { split.
    - apply Zdigits2_ge; lia.
    - apply Zdigits2_le; lia. }
  assert (Hloc : located (Zpos mx * 2 ^ 53) (Zpos my) q
                   (new_location (Zpos my) rem)).
  { rewrite Hq, (Z.mul_comm (Zpos my) q).
    apply new_location_located; lia. }
  destruct (binary_round_aux_nearest (Zpos mx * 2 ^ 53) (Zpos my) q
              (dr - dt - 53) (new_location (Zpos my) rem))
    as (m & e & Hres & Hm & He & Hnear); try done; try lia.
  exists m, e. split; [done|]. split; [done|].
  assert (Hneg : e <= -52 /\ Zpos m <= 2 ^ (- e)).
  { destruct Hbelow as [Hz|(m0 & e0 & Hres0 & He0 & Hm0)];
      [rewrite Hres in Hz; discriminate|].
    rewrite Hres in Hres0. injection Hres0 as <- <-. split; [|done].
    destruct (Z.le_gt_cases e (-52)) as [|Hgt]; [done|]. exfalso.
    assert (2 ^ (- e) <= 2 ^ 51) by (apply Z.pow_le_mono_r; lia). lia. }
  destruct Hneg as [Hneg Hunit].
  split; [lia|]. split; [done|].
  set (g := 106 - dr + e).
  assert (Hg : 0 <= g) by (unfold g; lia).
  assert (HP : 0 < 2 ^ g) by (apply Z.pow_pos_nonneg; lia).
  assert (HD : Zpos my * 2 ^ (e - (dr - dt - 53)) = t * 2 ^ g).
  { rewrite Hmy, <- Z.mul_assoc, <- Z.pow_add_r by lia.
    do 2 f_equal. unfold g. lia. }
  assert (HN : Zpos mx * 2 ^ 53 = r * 2 ^ (- e) * 2 ^ g).
  { rewrite Hmx, <- !Z.mul_assoc, <- !Z.pow_add_r by lia.
    do 2 f_equal. unfold g. lia. }
  rewrite HD, HN in Hnear.
  set (A := 2 ^ (- e)) in *. set (P := 2 ^ g) in *.
  split.
  - apply (Z.mul_le_mono_pos_r _ _ P); [done|]. nia.
  - apply (Z.mul_le_mono_pos_r _ _ P); [done|]. nia.
Qed.

(** A Number with 53 bits that is at most 1, times 100: within half a
    unit of its last place of the product, and at most 100. *)
Lemma mul_100_nearest m e :
  2 ^ 52 <= Zpos m < 2 ^ 53 -> -1000 <= e <= -52 -> Zpos m <= 2 ^ (- e) ->
  exists m' e',
    JS.mul (S754_finite false m e) (JS.of_Z 100) = S754_finite false m' e' /\
    2 ^ 52 <= Zpos m' < 2 ^ 53 /\ e + 6 <= e' <= -46 /\
    (2 * Zpos m' - 1) * 2 ^ (e' - e + 46) <= 2 * (Zpos m * (25 * 2 ^ 48))
      <= (2 * Zpos m' + 1) * 2 ^ (e' - e + 46).
Proof.
  intros Hm He Hunit.
  pose proof (mul_100_below m e ltac:(lia) Hunit) as Hbelow.
  rewrite of_Z_100 in *. unfold JS.mul, SFmul in *. simpl xorb in *.
  rewrite Pos2Z.inj_mul in *.
  change (Zpos (25 * 2 ^ 48)) with (25 * 2 ^ 48) in *.
  set (M := Zpos m * (25 * 2 ^ 48)) in *.
  assert (HM : 2 ^ 104 <= M < 2 ^ 106) by (unfold M; lia).
  assert (Hd : 105 <= Zdigits2 M <= 106).
  { split.
    - apply Zdigits2_ge; lia.
    - apply Zdigits2_le; lia. }
  assert (Hloc : located M 1 M loc_Exact) by (simpl; lia).
  destruct (binary_round_aux_nearest M 1 M (e + -46) loc_Exact)
    as (m' & e' & Hres & Hm' & He' & Hnear); try done; try lia.
  exists m', e'. split; [done|]. split; [done|].
  assert (Hneg : e' <= -46).
  { destruct Hbelow as [Hz|(m0 & e0 & Hres0 & He0 & Hm0)];
      [rewrite Hres in Hz; discriminate|].
    rewrite Hres in Hres0. injection Hres0 as <- <-.
    destruct (Z.le_gt_cases e' (-46)) as [|Hgt]; [done|]. exfalso.
    assert (2 ^ (2 - e') <= 2 ^ 47) by (apply Z.pow_le_mono_r; lia). lia. }
  split; [lia|].
  replace (e' - (e + -46)) with (e' - e + 46) in Hnear by lia.
  rewrite !Z.mul_1_l in Hnear. done.
Qed.

(** [Math.round] of a positive Number below 2^53 with a negative
    exponent. *)
Lemma Math_round_half_up m e n :
  e < 0 -> n = (2 * Zpos m + 2 ^ (- e)) / 2 ^ (- e + 1) -> n < 2 ^ 53 ->
  JS.int_value (JS.Math_round (S754_finite false m e)) = Some n /\
  (2 * n - 1) * 2 ^ (- e) <= 2 * Zpos m < (2 * n + 1) * 2 ^ (- e).
Proof.
  intros He Hn Hlt.
  assert (HB : 0 < 2 ^ (- e)) by (apply Z.pow_pos_nonneg; lia).
  assert (Hpow : 2 ^ (- e + 1) = 2 * 2 ^ (- e)).
  { rewrite Z.pow_add_r by lia. change (2 ^ 1) with 2. lia. }
  rewrite Hpow in Hn.
  pose proof (Z.div_mod (2 * Zpos m + 2 ^ (- e)) (2 * 2 ^ (- e))
                ltac:(lia)) as Hdm.
  pose proof (Z.mod_pos_bound (2 * Zpos m + 2 ^ (- e)) (2 * 2 ^ (- e))
                ltac:(lia)) as Hmod.
  rewrite <- Hn in Hdm.
  assert (Hn0 : 0 <= n) by (rewrite Hn; apply Z.div_pos; lia).
  split; [|nia].
  unfold JS.Math_round, JS.round_half_up, cond_Zopp.
  rewrite (proj2 (Z.leb_gt _ _)) by lia. rewrite Hpow, <- Hn.
  destruct n as [|p|p]; [done| |lia].
  apply int_value_of_Z. lia.
Qed.

(** The percentage is an integer nearest to [100 * r / t], for totals up
    to 2^44 bytes. *)
Lemma progress_nearest r t :
  0 <= r <= t -> 0 < t <= 2 ^ 44 ->
  exists n, JS.int_value (progress (JS.of_Z r) (JS.of_Z t)) = Some n /\
            (2 * n - 1) * t <= 200 * r <= (2 * n + 1) * t.
Proof.
  intros Hr Ht. destruct (Z.eq_dec r 0) as [->|Hr0].
  { exists 0. split; [|lia]. unfold progress.
    destruct (of_Z_canonical t ltac:(lia)) as (my & -> & _). done. }
  unfold progress.
  destruct (div_nearest r t ltac:(lia) ltac:(lia) ltac:(lia))
    as (m1 & e1 & -> & Hm1 & He1 & Hunit & Hq).
  destruct (mul_100_nearest m1 e1 Hm1 He1 Hunit)
    as (m2 & e2 & -> & Hm2 & He2 & Hp).
  set (A := 2 ^ (- e1)) in *. set (B := 2 ^ (- e2)).
  set (K := 2 ^ (e2 - e1 + 46)) in *.
  assert (HA : 2 ^ 52 <= A) by (apply Z.pow_le_mono_r; lia).
  assert (HB : 2 ^ 46 <= B) by (apply Z.pow_le_mono_r; lia).
  assert (HK : 0 < K) by (apply Z.pow_pos_nonneg; lia).
  assert (HKB : K * B = A * 2 ^ 46).
  { unfold K, B, A. rewrite <- !Z.pow_add_r by lia. f_equal. lia. }
  assert (HKA : K <= A) by nia.
  set (n := (2 * Zpos m2 + 2 ^ (- e2)) / 2 ^ (- e2 + 1)).
  assert (Hn100 : 0 <= n <= 2 ^ 8).
  { unfold n. fold B. split; [apply Z.div_pos; lia|].
    apply Z.div_le_upper_bound; [lia|].
    replace (2 ^ (- e2 + 1)) with (2 * B)
      by (unfold B; rewrite Z.pow_add_r by lia; change (2 ^ 1) with 2; lia).
    assert (Zpos m2 * K <= 2 ^ 59 * A) by nia.
    assert (Zpos m2 * K * B <= 2 ^ 59 * A * B) by nia.
    assert (Zpos m2 <= 2 ^ 13 * B) by nia. lia. }
  destruct (Math_round_half_up m2 e2 n ltac:(lia) eq_refl ltac:(lia))
    as [Hval Hn].
  fold B in Hn. exists n. split; [done|].
  set (m1z := Zpos m1) in *. set (m2z := Zpos m2) in *.
  set (C := 25 * 2 ^ 48) in *.
  split.
  - destruct (Z.le_gt_cases ((2 * n - 1) * t) (200 * r)) as [|Hgt]; [done|].
    exfalso.
    assert (H1 : (2 * n - 1) * B * K <= 2 * m2z * K) by nia.
    assert (H2 : 2 * m2z * K <= 2 * (m1z * C) + K) by lia.
    assert (H3 : (2 * n - 1) * (A * 2 ^ 46) <= 2 * (m1z * C) + K) by nia.
    assert (H4 : (2 * n - 1) * (A * 2 ^ 46) * (2 * t)
                 <= (2 * (m1z * C) + K) * (2 * t)) by nia.
    assert (H5 : 2 * m1z * t <= 2 * r * A + t) by lia.
    assert (H6 : (2 * (m1z * C) + K) * (2 * t)
                 <= 2 * C * (2 * r * A + t) + 2 * K * t) by nia.
    assert (H7 : ((2 * n - 1) * t - 200 * r) * (A * 2 ^ 47)
                 <= 2 * C * t + 2 * K * t) by (unfold C in *; nia).
    assert (H8 : A * 2 ^ 47 <= 2 * C * t + 2 * K * t) by nia.
    unfold C in *. nia.
  - destruct (Z.le_gt_cases (200 * r) ((2 * n + 1) * t)) as [|Hgt]; [done|].
    exfalso.
    assert (H1 : (2 * m2z + 1) * K <= (2 * n + 1) * B * K) by nia.
    assert (H2 : 2 * (m1z * C) <= (2 * n + 1) * (A * 2 ^ 46)) by nia.
    assert (H5 : 2 * r * A <= 2 * m1z * t + t) by lia.
    assert (H6 : 2 * C * (2 * r * A) <= 2 * C * (2 * m1z * t + t)) by nia.
    assert (H7 : 2 * C * (2 * m1z * t)
                 <= (2 * n + 1) * (A * 2 ^ 46) * (2 * t)) by nia.
    assert (H8 : (200 * r - (2 * n + 1) * t) * (A * 2 ^ 47) <= 2 * C * t)
      by (unfold C in *; nia).
    assert (H9 : A * 2 ^ 47 <= 2 * C * t) by nia.
    unfold C in *. nia.
Qed.


End Numbers.

(* ===================================================================== *)
(** * Properties of the receive handler *)
(* ===================================================================== *)

Section Receiver.

Context {RT : Runtime} {TR : Transport}.

Implicit Types (w : World) (s : string) (chunk : bytes).

(** A text message never ends [handleReceiveMessage] with an
    exception. *)
Lemma text_never_throws s w : (handleReceiveMessage (Text s) w).2 = None.
Proof.
  unfold handleReceiveMessage.
  destruct (JSON_parse s) as [metadata|]; [|done].
  destruct (JS.get metadata "name") as [metadata_name|]; [|done].
  by destruct (ToString metadata_name).
Qed.

(** Text that [JSON.parse] rejects changes nothing. *)
Lemma unparsable_text_ignored s w :
  JSON_parse s = None -> handleReceiveMessage (Text s) w = (w, None).
Proof. intros Hs. unfold handleReceiveMessage. by rewrite Hs. Qed.

(** Text that [JSON.parse] accepts starts a transfer afresh. *)
Lemma parsable_text_restarts s metadata w :
  JSON_parse s = Some metadata ->
  let w' := (handleReceiveMessage (Text s) w).1 in
  fileMetadata (refs w') = metadata /\
  receivedChunks (refs w') = [] /\
  receivedFileSize (refs w') = 0.
Proof.
  intros Hs. unfold handleReceiveMessage. rewrite Hs.
  destruct (JS.get metadata "name") as [metadata_name|]; [|done].
  by destruct (ToString metadata_name).
Qed.

(** C2 (as the code has it): while receiving, a text message leaves the
    chunk buffer and the byte counter unchanged only if [JSON.parse]
    rejects it; a text message that parses, such as a second metadata
    message, replaces the recorded metadata, empties the buffer and sets
    the counter to 0. *)
Theorem metadata_while_receiving s w :
  fileMetadata (refs w) <> JS.Null ->
  receivedChunks (refs w) <> [] ->
  let w' := (handleReceiveMessage (Text s) w).1 in
  match JSON_parse s with
  | Some metadata =>
      fileMetadata (refs w') = metadata /\
      receivedChunks (refs w') = [] /\
      receivedFileSize (refs w') = 0 /\
      receivedChunks (refs w') <> receivedChunks (refs w)
  | None =>
      receivedChunks (refs w') = receivedChunks (refs w) /\
      receivedFileSize (refs w') = receivedFileSize (refs w) /\
      fileMetadata (refs w') = fileMetadata (refs w)
  end.
Proof.
  intros _ Hbuffer. destruct (JSON_parse s) as [metadata|] eqn:Hs.
  - destruct (parsable_text_restarts s metadata w Hs) as (Hm & Hc & Hn).
    repeat split; try done. simpl in *. congruence.
  - by rewrite (unparsable_text_ignored s w Hs).
Qed.

(** C3 (what the code does): a chunk that arrives while no metadata is
    recorded is appended to the buffer and counted, and then the handler
    ends with a TypeError, raised by reading [size] of [null]. *)
Theorem chunk_before_metadata_throws chunk w :
  fileMetadata (refs w) = JS.Null ->
  let '(w', e) := handleReceiveMessage (Binary chunk) w in
  e = Some JS.TypeError /\
  receivedChunks (refs w') = receivedChunks (refs w) ++ [chunk] /\
  receivedFileSize (refs w') =
    receivedFileSize (refs w) + Z.of_nat (length chunk).
Proof.
  intros Hnull. unfold handleReceiveMessage. simpl.
  by rewrite Hnull.
Qed.

(** C9 (as the code has it): a text message is ignored exactly when
    [JSON.parse] throws; a text message that parses is recorded as the
    metadata, and empties the buffer and the counter, whether or not the
    value has the expected structure.  No exception leaves the handler
    in either case. *)
Theorem text_message_decoding s w :
  let '(w', e) := handleReceiveMessage (Text s) w in
  e = None /\
  match JSON_parse s with
  | None => w' = w
  | Some v =>
      fileMetadata (refs w') = v /\
      receivedChunks (refs w') = [] /\
      receivedFileSize (refs w') = 0
  end.
Proof.
  pose proof (text_never_throws s w) as He.
  destruct (handleReceiveMessage (Text s) w) as [w' e] eqn:Hrun.
  split; [done|].
  destruct (JSON_parse s) as [v|] eqn:Hs.
  - pose proof (parsable_text_restarts s v w Hs) as H.
    by rewrite Hrun in H.
  - rewrite (unparsable_text_ignored s w Hs) in Hrun. congruence.
Qed.

End Receiver.

(* ===================================================================== *)
(** * Properties of the session handlers *)
(* ===================================================================== *)

Section Session.

Context {RT : Runtime} {TR : Transport} (app_id : string).

Implicit Types (w : World) (render : ReactState) (f : File).

(** ** What the pieces leave alone *)

Lemma send_frame m w :
  react (send m w) = react w /\ timers (send m w) = timers w /\
  db (send m w) = db w /\ calls (send m w) = calls w /\
  forall dc', dataChannel (refs (send m w)) = Some dc' ->
    exists dc, dataChannel (refs w) = Some dc /\ onopen dc' = onopen dc.
Proof.
  unfold send. destruct (dataChannel (refs w)) as [dc|] eqn:Hdc; simpl.
  - repeat split; try done. intros dc' [= <-]. by exists dc.
  - repeat split; try done. intros dc' H. congruence.
Qed.

Lemma readSlice_frame fuel chunkSize render f : forall o w w',
  readSlice fuel chunkSize render f o w = Some w' ->
  mode (react w') = mode (react w) /\
  shareCode (react w') = shareCode (react w) /\
  timers w' = timers w ++ [SenderTeardown render] /\
  db w' = db w /\ calls w' = calls w /\
  forall dc', dataChannel (refs w') = Some dc' ->
    exists dc, dataChannel (refs w) = Some dc /\ onopen dc' = onopen dc.
Proof.
  induction fuel as [|fuel IH]; intros o w w' Hrun; [done|].
  simpl in Hrun.
  destruct (send_frame (Binary (Blob_slice o (o + chunkSize) (content f))) w)
    as (Hr & Ht & Hd & Hc & Hdc).
  case_match.
  - apply IH in Hrun as (? & ? & ? & ? & ? & Hdc').
    rewrite Hr, Ht, Hd, Hc in *. repeat split; try done.
    intros dc' Hsome. destruct (Hdc' dc' Hsome) as (dc1 & Hdc1 & E1).
    destruct (Hdc dc1 Hdc1) as (dc & Hdc0 & E0). exists dc. split; congruence.
  - injection Hrun as <-. simpl. rewrite Hr, Ht, Hd, Hc.
    repeat split; try done.
Qed.

Lemma sendFileInChunks_frame render f w w' :
  sendFileInChunks render f w = Some w' ->
  mode (react w') = mode (react w) /\
  shareCode (react w') = shareCode (react w) /\
  timers w' = timers w ++ [SenderTeardown render] /\
  db w' = db w /\ calls w' = calls w /\
  forall dc', dataChannel (refs w') = Some dc' ->
    exists dc, dataChannel (refs w) = Some dc /\ onopen dc' = onopen dc.
Proof.
  unfold sendFileInChunks, sendFileInChunks_with. intros Hrun.
  apply readSlice_frame in Hrun as (? & ? & ? & ? & ? & Hdc').
  match type of Hdc' with
  | context [send ?m w] =>
      destruct (send_frame m w) as (Hr & Ht & Hd & Hc & Hdc)
  end.
  rewrite Hr, Ht, Hd, Hc in *. repeat split; try done.
  intros dc' Hsome. destruct (Hdc' dc' Hsome) as (dc1 & Hdc1 & E1).
  destruct (Hdc dc1 Hdc1) as (dc & Hdc0 & E0). exists dc. split; congruence.
Qed.

Lemma on_peerConnection_frame g c w :
  react (on_peerConnection g c w) = react w /\
  timers (on_peerConnection g c w) = timers w /\
  db (on_peerConnection g c w) = db w /\
  dataChannel (refs (on_peerConnection g c w)) = dataChannel (refs w).
Proof. unfold on_peerConnection. by case_match. Qed.

Lemma addIceCandidates_frame candidates : forall w,
  react (addIceCandidates candidates w) = react w /\
  timers (addIceCandidates candidates w) = timers w /\
  db (addIceCandidates candidates w) = db w /\
  dataChannel (refs (addIceCandidates candidates w)) = dataChannel (refs w).
Proof.
  unfold addIceCandidates.
  induction candidates as [|c candidates IH]; intros w; [done|]. simpl.
  destruct (IH (on_peerConnection (addIceCandidate c)
                  (CallAddIceCandidate c) w)) as (-> & -> & -> & ->).
  apply on_peerConnection_frame.
Qed.

(** A snapshot changes neither the mode, the share code, the timers nor
    the [onopen] callback of the channel. *)
Lemma snapshot_frame l data w :
  mode (react (snapshot l data w)) = mode (react w) /\
  shareCode (react (snapshot l data w)) = shareCode (react w) /\
  timers (snapshot l data w) = timers w /\
  dataChannel (refs (snapshot l data w)) = dataChannel (refs w).
Proof.
  destruct l as [ref|ref]; simpl.
  - unfold initiatorSnapshot.
    repeat case_match;
      repeat match goal with
      | |- context [addIceCandidates ?cs ?w0] =>
          destruct (addIceCandidates_frame cs w0) as (-> & -> & _ & ->)
      end; simpl;
      repeat match goal with
      | |- context [on_peerConnection ?g ?c ?w0] =>
          destruct (on_peerConnection_frame g c w0) as (-> & -> & _ & ->)
      end; done.
  - unfold responderSnapshot.
    repeat case_match;
      repeat match goal with
      | |- context [addIceCandidates ?cs ?w0] =>
          destruct (addIceCandidates_frame cs w0) as (-> & -> & _ & ->)
      end; done.
Qed.

Lemma handleReceiveMessage_frame data w :
  let w' := (handleReceiveMessage data w).1 in
  mode (react w') = mode (react w) /\
  shareCode (react w') = shareCode (react w) /\
  dataChannel (refs w') = dataChannel (refs w) /\
  db w' = db w /\
  (timers w' = timers w \/ timers w' = timers w ++ [ReceiverTeardown]).
Proof.
  unfold handleReceiveMessage.
  destruct data as [s|chunk|]; simpl; repeat case_match; simpl; auto 10.
Qed.

Lemma icecandidate_frame c w :
  react (icecandidate c w) = react w /\
  timers (icecandidate c w) = timers w /\
  dataChannel (refs (icecandidate c w)) = dataChannel (refs w).
Proof. unfold icecandidate. by repeat case_match. Qed.

(** [resetState] leaves the collection alone and ends in the idle
    state. *)
Lemma resetState_spec w :
  db (resetState w) = db w /\ timers (resetState w) = timers w /\
  listeners (resetState w) = listeners w /\
  peerConnection (refs (resetState w)) = None /\
  dataChannel (refs (resetState w)) = None /\
  receivedChunks (refs (resetState w)) = [] /\
  receivedFileSize (refs (resetState w)) = 0 /\
  fileMetadata (refs (resetState w)) = JS.Null /\
  mode (react (resetState w)) = idle /\
  shareCode (react (resetState w)) = "" /\
  file (react (resetState w)) = None /\
  status (react (resetState w)) = WaitingForConnection.
Proof. unfold resetState. by repeat case_match. Qed.

(** The calls [resetState] makes: it closes what is open. *)
Lemma resetState_calls w :
  calls (resetState w) =
    calls w
    ++ match peerConnection (refs w) with
       | Some _ => [CallClosePeerConnection]
       | None => []
       end
    ++ match dataChannel (refs w) with
       | Some _ => [CallCloseDataChannel]
       | None => []
       end.
Proof.
  unfold resetState.
  destruct (peerConnection (refs w)) eqn:Hpc,
           (dataChannel (refs w)) eqn:Hdc; simpl; rewrite ?Hdc; simpl;
    rewrite <- ?app_assoc, ?app_nil_r; done.
Qed.

(** ** Cancellation *)

(** C1 (as the code has it): cancelling with a share code deletes the
    rendezvous record for that code, in the responder role as in the
    initiator role, and leaves every other record alone; it then closes
    the transport and resets the local state.  The teardown the receiver
    schedules after a completed download is the one that leaves the
    collection as it is. *)
Theorem cancel_deletes_record render w :
  shareCode render <> "" ->
  let callDocRef := getFileTransferDocRef app_id (shareCode render) in
  let w' := handleCancel app_id render w in
  (db w' !! callDocRef = None /\
   db w' = delete callDocRef (db w) /\
   CallDeleteDoc callDocRef ∈ calls w' /\
   (peerConnection (refs w) <> None -> CallClosePeerConnection ∈ calls w') /\
   peerConnection (refs w') = None /\ dataChannel (refs w') = None /\
   receivedChunks (refs w') = [] /\ receivedFileSize (refs w') = 0 /\
   fileMetadata (refs w') = JS.Null /\
   mode (react w') = idle /\ shareCode (react w') = "") /\
  (exists w'', runCallback app_id ReceiverTeardown w = Some w'' /\
               db w'' = db w).
Proof.
  intros Hcode callDocRef w'. subst w'.
  split; [|eexists; split; [reflexivity|apply resetState_spec]].
  unfold handleCancel.
  destruct (shareCode render) as [|c code] eqn:Hsc; [done|]. simpl JS.truthy_string.
  cbv iota. fold callDocRef.
  pose proof (resetState_spec (deleteDoc callDocRef w)) as Hreset.
  pose proof (resetState_calls (deleteDoc callDocRef w)) as Hcalls.
  destruct Hreset as (Hdb & _ & _ & Hpc & Hdc & Hch & Hsz & Hmeta & Hmode & Hcode' & _).
  rewrite Hdb, Hcalls. simpl.
  repeat split; try done.
  - apply lookup_delete_eq.
  - set_solver.
  - intros Hpresent. destruct (peerConnection (refs w)); [|done]. set_solver.
Qed.

(** ** The renders closures are created in *)

Lemma closures_stale_initial database :
  closures_stale (initialWorld database).
Proof. split; simpl; try done. Qed.

Lemma runCallback_stale cb w w' :
  closures_stale w -> no_share_code cb ->
  runCallback app_id cb w = Some w' -> closures_stale w'.
Proof.
  intros [Hmain Hopen Htimers] Hcb Hrun.
  destruct cb as [render f| |render|]; simpl in *.
  - apply sendFileInChunks_frame in Hrun as (Hm & Hs & Ht & _ & _ & Hdc).
    simpl in *. split.
    + unfold renderContent in *. rewrite Hm, Hs. done.
    + intros dc' cb Hsome Hon. destruct (Hdc dc' Hsome) as (dc & Hdc0 & E).
      eapply Hopen; [done|congruence].
    + rewrite Ht. apply Forall_app. split; [done|]. by constructor.
  - injection Hrun as <-. by split.
  - injection Hrun as <-. unfold senderTeardown.
    match goal with |- closures_stale (resetState ?w0) =>
      pose proof (resetState_spec w0) as Hr;
      destruct Hr as (_ & Ht & _ & _ & Hdc & _ & _ & _ & _ & Hs & _)
    end.
    split; [done| intros dc cb; rewrite Hdc; done|].
    rewrite Ht. by case_match.
  - injection Hrun as <-.
    destruct (resetState_spec w) as (_ & Ht & _ & _ & Hdc & _ & _ & _ & _ & Hs & _).
    split; [done| intros dc cb; rewrite Hdc; done|]. by rewrite Ht.
Qed.

(** Every render that draws the main view, and so every render in which
    the file input can fire, has an empty share code; the closures the
    sender stores are created in such renders. *)
Lemma step_stale e w w' :
  closures_stale w -> step app_id e w = Some w' -> closures_stale w'.
Proof.
  intros Hinv Hstep. destruct e; simpl in Hstep.
  - (* SelectFile *)
    destruct (renderContent (react w)) eqn:Hview; try done.
    injection Hstep as <-. destruct selectedFile as [f|]; [|exact Hinv].
    destruct Hinv as [Hmain Hopen Htimers].
    split; unfold handleFileChange, renderContent; simpl; [done| |done].
    intros dc cb [= <-]; simpl; intros [= <-]; simpl; auto.
  - (* ClickReceive *)
    destruct (renderContent (react w)) eqn:Hview; try done.
    injection Hstep as <-. destruct Hinv as [Hmain Hopen Htimers].
    split; simpl; auto.
  - (* SubmitCode *)
    case_match; [|done]. injection Hstep as <-.
    destruct Hinv as [Hmain Hopen Htimers].
    split; unfold renderContent; simpl; [done| |done]. apply Hopen.
  - (* DismissModal *)
    case_match; [|done]. injection Hstep as <-.
    destruct Hinv as [Hmain Hopen Htimers].
    split; unfold renderContent in *; simpl; auto.
  - (* ClickCancel *)
    destruct Hinv as [Hmain Hopen Htimers].
    destruct (renderContent (react w)) eqn:Hview; try done;
      injection Hstep as <-; unfold handleCancel;
      match goal with |- closures_stale (resetState ?w0) =>
        pose proof (resetState_spec w0) as Hr;
        destruct Hr as (_ & Ht & _ & _ & Hdc & _ & _ & _ & _ & Hs & _)
      end;
      (split; [done| intros dc cb; rewrite Hdc; done|]);
      rewrite Ht; by case_match.
  - (* DataChannelAnnounced *)
    repeat case_match; try done. injection Hstep as <-.
    destruct Hinv as [Hmain Hopen Htimers].
    split; simpl; [done| |done].
    intros dc cb [= <-]; simpl; by intros [= <-].
  - (* ChannelOpen *)
    destruct (dataChannel (refs w)) as [dc|] eqn:Hdc; [|done].
    simpl in Hstep. destruct (onopen dc) as [cb|] eqn:Hon; [|done].
    simpl in Hstep. eapply runCallback_stale; [done| |done].
    destruct Hinv as [Hmain Hopen Htimers]. by eapply Hopen.
  - (* ChannelMessage *)
    repeat case_match; try done. injection Hstep as <-.
    destruct Hinv as [Hmain Hopen Htimers].
    destruct (handleReceiveMessage_frame data w) as (Hm & Hs & Hdc & _ & Ht).
    split.
    + unfold renderContent in *. rewrite Hm, Hs. done.
    + rewrite Hdc. done.
    + destruct Ht as [-> | ->]; [done|].
      apply Forall_app. split; [done|]. by constructor.
  - (* LocalCandidate *)
    case_match; [|done]. injection Hstep as <-.
    destruct Hinv as [Hmain Hopen Htimers].
    destruct (icecandidate_frame c w) as (Hr & Ht & Hdc).
    split; [by rewrite Hr | by rewrite Hdc | by rewrite Ht].
  - (* SnapshotDelivered *)
    destruct (listeners w !! i) as [l|]; [|done]. injection Hstep as <-.
    destruct Hinv as [Hmain Hopen Htimers].
    destruct (snapshot_frame l data w) as (Hm & Hs & Ht & Hdc).
    split.
    + unfold renderContent in *. rewrite Hm, Hs. done.
    + by rewrite Hdc.
    + by rewrite Ht.
  - (* TimerFires *)
    destruct (timers w !! i) as [cb|] eqn:Hi; [|done]. simpl in Hstep.
    destruct Hinv as [Hmain Hopen Htimers].
    eapply runCallback_stale; [|  |done].
    + split; simpl; [done|done|]. by apply Forall_delete.
    + rewrite Forall_forall in Htimers. apply Htimers.
      by eapply list_elem_of_lookup_2.
  - (* StoreChanged *)
    injection Hstep as <-. by destruct Hinv.
Qed.

Lemma reachable_stale w : reachable app_id w -> closures_stale w.
Proof.
  induction 1 as [database|e w w' _ IH Hstep].
  - apply closures_stale_initial.
  - by eapply step_stale.
Qed.

(** C7 (what the code does): when the timer [sendFileInChunks] set after
    the last chunk expires, the sender resets to idle but deletes no
    record.  The function it runs reads [shareCode] of the render that
    [handleFileChange] ran in, which is empty, not the code that
    [handleFileChange] generated. *)
Theorem sender_teardown_keeps_record w i render :
  reachable app_id w ->
  timers w !! i = Some (SenderTeardown render) ->
  exists w', step app_id (TimerFires i) w = Some w' /\
    db w' = db w /\
    (forall callDocRef, CallDeleteDoc callDocRef ∈ calls w' ->
                        CallDeleteDoc callDocRef ∈ calls w) /\
    mode (react w') = idle /\ shareCode (react w') = "" /\
    peerConnection (refs w') = None.
Proof.
  intros Hreach Hi. apply reachable_stale in Hreach as [_ _ Htimers].
  rewrite Forall_forall in Htimers.
  assert (Hstale : shareCode render = "").
  { apply (Htimers (SenderTeardown render)). by eapply list_elem_of_lookup_2. }
  eexists. split.
  { simpl. rewrite Hi. simpl. reflexivity. }
  unfold senderTeardown. rewrite Hstale. simpl JS.truthy_string. cbv iota.
  pose proof (resetState_spec (cancel_timer i w)) as Hr.
  destruct Hr as (Hdb & _ & _ & Hpc & _ & _ & _ & _ & Hm & Hs & _).
  rewrite resetState_calls. repeat split; try done.
  intros ref. simpl. rewrite !elem_of_app.
  intros [Hold|[Hpc'|Hdc']]; [done| |].
  - destruct (peerConnection (refs w)).
    + by apply list_elem_of_singleton in Hpc'.
    + by apply elem_of_nil in Hpc'.
  - destruct (dataChannel _).
    + by apply list_elem_of_singleton in Hdc'.
    + by apply elem_of_nil in Hdc'.
Qed.

End Session.

(* ===================================================================== *)
(** * Properties of the snapshot listeners *)
(* ===================================================================== *)

Section Signalling.

Context {RT : Runtime} {TR : Transport}.

Implicit Types (w : World) (c : IceCandidate) (l : Listener).

Lemma applications_record_call c call w :
  applications c (record_call call w) =
    (applications c w + if decide (call = CallAddIceCandidate c) then 1 else 0)%nat.
Proof.
  unfold applications. simpl. rewrite filter_app, length_app. f_equal.
  rewrite filter_cons, filter_nil. by case_decide.
Qed.

(** One pass over a candidate list calls [addIceCandidate] once for each
    entry, provided there is a peer connection. *)
Lemma addIceCandidates_applications c candidates : forall w,
  peerConnection (refs w) <> None ->
  applications c (addIceCandidates candidates w) =
    (applications c w + occurrences c candidates)%nat /\
  peerConnection (refs (addIceCandidates candidates w)) <> None.
Proof.
  unfold addIceCandidates, occurrences.
  induction candidates as [|c' candidates IH]; intros w Hpc; simpl.
  - split; [lia|done].
  - destruct (peerConnection (refs w)) as [pc|] eqn:Hw; [|done].
    unfold on_peerConnection at 2 4. rewrite Hw.
    edestruct IH as [-> Hpc']; [|split; [|exact Hpc']].
    { simpl. done. }
    rewrite applications_record_call, filter_cons.
    unfold applications at 1. simpl.
    fold (applications c w).
    repeat case_decide; simplify_eq; simpl; lia.
Qed.

(** One snapshot: every candidate it carries for the listener is handed
    to [addIceCandidate], whatever was applied before. *)
Lemma snapshot_applications l data c w :
  peerConnection (refs w) <> None -> answer_writable l w ->
  applications c (snapshot l data w) =
    (applications c w + occurrences c (peer_candidates l data))%nat /\
  peerConnection (refs (snapshot l data w)) <> None /\
  answer_writable l (snapshot l data w).
Proof.
  intros Hpc Hdb. destruct l as [ref|ref]; simpl in *.
  - unfold initiatorSnapshot, peer_candidates.
    set (w1 := match data ≫= answer with | Some _ => _ | None => w end).
    assert (H1 : applications c w1 = applications c w /\
                 peerConnection (refs w1) <> None).
    { subst w1. destruct (data ≫= answer) as [a|]; [|done].
      destruct (noRemoteDescription w); [|done].
      unfold on_peerConnection.
      destruct (peerConnection (refs w)) as [pc|]; [|done]. simpl.
      split; [|done]. unfold applications. simpl.
      rewrite filter_app, length_app, filter_cons, filter_nil.
      case_decide; [done|]. simpl. lia. }
    destruct H1 as [H1 Hpc1].
    destruct (data ≫= answerCandidates) as [candidates|]; simpl.
    + destruct (addIceCandidates_applications c candidates w1 Hpc1)
        as [-> ?]. rewrite H1. done.
    + rewrite H1. unfold occurrences. simpl. split; [lia|done].
  - unfold responderSnapshot, peer_candidates.
    destruct Hdb as [d Hd].
    assert (Hcands : forall w0,
      peerConnection (refs w0) <> None -> is_Some (db w0 !! ref) ->
      applications c w0 = applications c w ->
      let w' := match data ≫= offerCandidates with
                | Some candidates => addIceCandidates candidates w0
                | None => w0
                end in
      applications c w' =
        (applications c w
         + occurrences c (default [] (data ≫= offerCandidates)))%nat /\
      peerConnection (refs w') <> None /\ is_Some (db w' !! ref)).
    { intros w0 Hpc0 Hdb0 Happ0.
      destruct (data ≫= offerCandidates) as [candidates|]; simpl.
      - destruct (addIceCandidates_applications c candidates w0 Hpc0)
          as [-> ?].
        destruct (addIceCandidates_frame candidates w0) as (_ & _ & -> & _).
        rewrite Happ0. done.
      - rewrite Happ0. unfold occurrences. simpl. split; [lia|done]. }
    destruct (data ≫= offer) as [o|]; [|by apply Hcands; eauto].
    destruct (noRemoteDescription w); [|by apply Hcands; eauto].
    simpl. destruct (peerConnection (refs w)) as [pc|]; [|done].
    unfold Firestore.updateDoc. simpl. rewrite Hd.
    apply Hcands; simpl.
    + done.
    + rewrite lookup_insert_eq. eauto.
    + unfold applications. simpl.
      rewrite !filter_app, !length_app, !filter_cons, !filter_nil.
      repeat case_decide; try done. simpl. lia.
Qed.

(** The calls: every delivery of a snapshot hands every candidate the
    snapshot carries to [addIceCandidate], however often it was handed
    over before. *)
Lemma candidates_applied_per_snapshot l snapshots c : forall w,
  peerConnection (refs w) <> None -> answer_writable l w ->
  applications c (deliver l snapshots w) =
    (applications c w
     + sum_list ((fun data => occurrences c (peer_candidates l data))
                   <$> snapshots))%nat.
Proof.
  unfold deliver.
  induction snapshots as [|data snapshots IH]; intros w Hpc Hdb; simpl.
  - lia.
  - destruct (snapshot_applications l data c w Hpc Hdb) as (H1 & Hpc1 & Hdb1).
    rewrite (IH _ Hpc1 Hdb1), H1, Nat.add_assoc. done.
Qed.

(** ** The apply-once guard *)

Lemma remote_applications_record_call call w :
  remote_applications (record_call call w) =
    (remote_applications w
     + if is_setRemoteDescription call then 1 else 0)%nat.
Proof.
  unfold remote_applications. simpl.
  rewrite filter_app, length_app, filter_cons, filter_nil.
  destruct (is_setRemoteDescription call); case_decide; done.
Qed.

Lemma addIceCandidates_remote_applications candidates : forall w,
  remote_applications (addIceCandidates candidates w) = remote_applications w.
Proof.
  unfold addIceCandidates.
  induction candidates as [|c candidates IH]; intros w; simpl; [done|].
  rewrite IH. unfold on_peerConnection.
  destruct (peerConnection (refs w)); [|done].
  by rewrite remote_applications_record_call.
Qed.

Lemma addIceCandidates_calls_prefix candidates : forall w,
  calls w `prefix_of` calls (addIceCandidates candidates w).
Proof.
  unfold addIceCandidates.
  induction candidates as [|c candidates IH]; intros w; simpl; [done|].
  etrans; [|apply IH]. unfold on_peerConnection.
  destruct (peerConnection (refs w)); [|done]. by apply prefix_app_r.
Qed.

(** C8 (as the code has it): a snapshot applies the description of the
    peer whenever the connection shows no remote description, not only
    while none has been handed to it.  For every transport, listener,
    snapshot and state with a connection, the callback calls
    [setRemoteDescription] once if the snapshot carries the description
    and [currentRemoteDescription] is null, and not otherwise; the call
    is the first the callback makes, before anything it awaits.  Calls
    made before count for nothing: while the attribute is null, a later
    snapshot with the same description applies it again. *)
Theorem remote_description_applied_whenever_unset l data w :
  peerConnection (refs w) <> None ->
  remote_applications (snapshot l data w) =
    (remote_applications w
     + match peer_description l data with
       | Some _ => if noRemoteDescription w then 1 else 0
       | None => 0
       end)%nat /\
  (forall d,
     peer_description l data = Some d -> noRemoteDescription w = true ->
     calls (snapshot l data w) !! length (calls w)
       = Some (CallSetRemoteDescription d)).
Proof.
  intros Hpc. destruct (peerConnection (refs w)) as [pc|] eqn:Hw; [|done].
  destruct l as [ref|ref]; simpl.
  - unfold initiatorSnapshot, peer_description.
    set (w1 := match data ≫= answer with Some _ => _ | None => w end).
    assert (H1 :
      remote_applications w1 =
        (remote_applications w
         + match data ≫= answer with
           | Some _ => if noRemoteDescription w then 1 else 0
           | None => 0
           end)%nat /\
      (forall d, data ≫= answer = Some d -> noRemoteDescription w = true ->
         calls w1 !! length (calls w) = Some (CallSetRemoteDescription d))).
    { subst w1. destruct (data ≫= answer) as [a|]; [|split; [lia|done]].
      destruct (noRemoteDescription w); [|split; [lia|done]].
      unfold on_peerConnection. rewrite Hw. split.
      - unfold remote_applications. simpl.
        rewrite filter_app, length_app. done.
      - intros d [= <-] _. simpl. by rewrite list_lookup_middle. }
    destruct H1 as [Hn Hfirst].
    destruct (data ≫= answerCandidates) as [candidates|]; [|done].
    rewrite addIceCandidates_remote_applications. split; [done|].
    intros d Hd Hno.
    eapply prefix_lookup_Some; [by apply Hfirst|].
    apply addIceCandidates_calls_prefix.
  - unfold responderSnapshot, peer_description.
    assert (Hcands : forall w0 n,
      remote_applications w0 = n ->
      remote_applications
        (match data ≫= offerCandidates with
         | Some candidates => addIceCandidates candidates w0
         | None => w0
         end) = n).
    { intros w0 n <-. destruct (data ≫= offerCandidates); [|done].
      apply addIceCandidates_remote_applications. }
    assert (Hpre : forall w0 d,
      calls w0 !! length (calls w) = Some (CallSetRemoteDescription d) ->
      calls (match data ≫= offerCandidates with
             | Some candidates => addIceCandidates candidates w0
             | None => w0
             end) !! length (calls w) = Some (CallSetRemoteDescription d)).
    { intros w0 d H0. destruct (data ≫= offerCandidates); [|done].
      eapply prefix_lookup_Some; [done|]. apply addIceCandidates_calls_prefix. }
    destruct (data ≫= offer) as [o|]; [|split; [apply Hcands; lia|done]].
    destruct (noRemoteDescription w); [|split; [apply Hcands; lia|done]].
    simpl. rewrite Hw.
    destruct (Firestore.updateDoc _ _ _).
    + split.
      * apply Hcands. unfold remote_applications. simpl.
        rewrite !filter_app, !length_app, !filter_cons, !filter_nil.
        simpl. lia.
      * intros d [= <-] _. apply Hpre. simpl.
        rewrite <- !app_assoc. simpl. by rewrite list_lookup_middle.
    + split.
      * unfold remote_applications. simpl.
        rewrite !filter_app, !length_app, !filter_cons, !filter_nil.
        simpl. lia.
      * intros d [= <-] _. simpl.
        rewrite <- !app_assoc. simpl. by rewrite list_lookup_middle.
Qed.

(** ** Candidates that are applied again *)

Lemma snapshot_keeps_session l data w :
  peerConnection (refs w) <> None -> answer_writable l w ->
  peerConnection (refs (snapshot l data w)) <> None /\
  answer_writable l (snapshot l data w).
Proof.
  intros Hpc Hdb.
  by destruct (snapshot_applications l data
                 {| candidate := EmptyString; sdpMid := EmptyString;
                    sdpMLineIndex := 0 |} w Hpc Hdb) as (_ & ? & ?).
Qed.

Lemma same_but_calls_refl w : same_but_calls w w.
Proof. by repeat split. Qed.

Lemma same_but_calls_setStatus s w w' :
  same_but_calls w w' -> same_but_calls (setStatus s w) (setStatus s w').
Proof.
  intros (Hr & Hf & Hd & Hl & Ht & Hdl).
  repeat split; simpl; congruence.
Qed.

Lemma same_but_calls_record_call call call' w w' :
  same_but_calls w w' ->
  same_but_calls (record_call call w) (record_call call' w').
Proof. intros H. exact H. Qed.

Lemma same_but_calls_record_call_l call w w' :
  same_but_calls w w' -> same_but_calls (record_call call w) w'.
Proof. intros H. exact H. Qed.

Lemma same_but_calls_set_peerConnection pc w w' :
  same_but_calls w w' ->
  same_but_calls (set_peerConnection pc w) (set_peerConnection pc w').
Proof.
  intros (Hr & Hf & Hd & Hl & Ht & Hdl).
  repeat split; simpl; congruence.
Qed.

Lemma same_but_calls_with_db database w w' :
  same_but_calls w w' ->
  same_but_calls (with_db database w) (with_db database w').
Proof.
  intros (Hr & Hf & Hd & Hl & Ht & Hdl).
  repeat split; simpl; congruence.
Qed.

Lemma same_but_calls_on_peerConnection g call w w' :
  same_but_calls w w' ->
  same_but_calls (on_peerConnection g call w) (on_peerConnection g call w').
Proof.
  intros H. unfold on_peerConnection.
  destruct H as (Hr & Hf & Hd & Hl & Ht & Hdl). rewrite <- Hf.
  destruct (peerConnection (refs w)); repeat split; simpl; congruence.
Qed.

Lemma set_peerConnection_same w pc :
  peerConnection (refs w) = Some pc -> set_peerConnection (Some pc) w = w.
Proof.
  destruct w as [r [p i d ch sz m] database ls ts ds cs]. simpl.
  by intros ->.
Qed.

Lemma all_applied_kept seen w w1 :
  all_applied seen w ->
  (forall pc1, peerConnection (refs w1) = Some pc1 ->
     exists pc, peerConnection (refs w) = Some pc /\
                forall c, applied c pc -> applied c pc1) ->
  all_applied seen w1.
Proof.
  intros Hseen Hkept c pc1 Hc Hpc1.
  destruct (Hkept pc1 Hpc1) as (pc & Hpc & Himp). apply Himp. by apply Hseen.
Qed.

Context {law : IdempotentApply TR}.

(** The loop over a candidate array, against the loop over its novel
    candidates only. *)
Lemma addIceCandidates_novel candidates : forall seen w w',
  same_but_calls w w' -> all_applied seen w ->
  same_but_calls (addIceCandidates candidates w)
    (addIceCandidates (novel seen candidates) w') /\
  all_applied (seen ++ candidates) (addIceCandidates candidates w).
Proof.
  unfold addIceCandidates.
  induction candidates as [|c candidates IH]; intros seen w w' Hsame Hseen;
    simpl.
  - by rewrite app_nil_r.
  - destruct (peerConnection (refs w)) as [pc|] eqn:Hpc.
    + destruct (decide (c ∈ seen)) as [Hin|Hout].
      * assert (Hw : on_peerConnection (addIceCandidate c)
                       (CallAddIceCandidate c) w
                     = record_call (CallAddIceCandidate c) w).
        { unfold on_peerConnection. rewrite Hpc.
          rewrite (reapply c pc) by by apply Hseen.
          by rewrite set_peerConnection_same. }
        rewrite Hw.
        destruct (IH seen (record_call (CallAddIceCandidate c) w) w')
          as [Hs Ha]; [done|done|].
        split; [done|]. intros c0 pc0 Hc0. apply Ha.
        rewrite elem_of_app in *. rewrite elem_of_cons in Hc0.
        destruct Hc0 as [?|[->|?]]; auto.
      * simpl.
        destruct (IH (c :: seen)
                    (on_peerConnection (addIceCandidate c)
                       (CallAddIceCandidate c) w)
                    (on_peerConnection (addIceCandidate c)
                       (CallAddIceCandidate c) w'))
          as [Hs Ha].
        { by apply same_but_calls_on_peerConnection. }
        { intros c0 pc0 Hc0. unfold on_peerConnection. rewrite Hpc. simpl.
          intros [= <-]. apply elem_of_cons in Hc0 as [->|Hc0].
          - constructor.
          - constructor. by apply Hseen. }
        split; [done|]. intros c0 pc0 Hc0. apply Ha.
        rewrite elem_of_app in *. rewrite !elem_of_cons in *.
        destruct Hc0 as [?|[->|?]]; auto.
    + assert (Hw : on_peerConnection (addIceCandidate c)
                     (CallAddIceCandidate c) w = w).
      { unfold on_peerConnection. by rewrite Hpc. }
      rewrite Hw.
      assert (Hnone : forall cs w0,
        peerConnection (refs w0) = None ->
        foldl (fun w1 c1 => on_peerConnection (addIceCandidate c1)
                              (CallAddIceCandidate c1) w1) w0 cs = w0).
      { clear. induction cs as [|c1 cs IHcs]; intros w0 H0; simpl; [done|].
        unfold on_peerConnection at 2. rewrite H0. by apply IHcs. }
      rewrite Hnone by done.
      assert (Hpc' : peerConnection (refs w') = None).
      { destruct Hsame as (_ & <- & _). done. }
      split.
      * case_decide; simpl; [by rewrite Hnone|].
        unfold on_peerConnection at 2. rewrite Hpc'. by rewrite Hnone.
      * intros c0 pc0 _. by rewrite Hpc.
Qed.

(** One snapshot, against the same snapshot with only its novel
    candidates. *)
Lemma snapshot_novel l data seen w w' :
  same_but_calls w w' -> all_applied seen w ->
  same_but_calls (snapshot l data w) (snapshot l (only_novel l seen data) w') /\
  (peerConnection (refs w) <> None -> answer_writable l w ->
   all_applied (seen ++ peer_candidates l data) (snapshot l data w)).
Proof.
  intros Hsame Hseen.
  assert (Hrefs : refs w' = refs w) by by destruct Hsame as (_ & <- & _).
  assert (Hdb : db w' = db w) by by destruct Hsame as (_ & _ & <- & _).
  assert (Hno : noRemoteDescription w' = noRemoteDescription w).
  { unfold noRemoteDescription. by rewrite Hrefs. }
  destruct data as [d|]; [|split; [by destruct l|]].
  2:{ intros _ _. unfold peer_candidates. simpl. rewrite app_nil_r.
      by destruct l. }
  destruct l as [ref|ref]; simpl.
  - unfold initiatorSnapshot, peer_candidates. simpl. rewrite Hno.
    set (w1 := match answer d with Some _ => _ | None => w end).
    set (w1' := match answer d with Some _ => _ | None => w' end).
    assert (H1 : same_but_calls w1 w1' /\ all_applied seen w1).
    { subst w1 w1'. destruct (answer d) as [a|]; [|done].
      destruct (noRemoteDescription w); [|done]. split.
      - by apply same_but_calls_setStatus, same_but_calls_on_peerConnection.
      - apply (all_applied_kept seen w); [done|]. intros pc1. simpl.
        unfold on_peerConnection.
        destruct (peerConnection (refs w)) as [pc|] eqn:Hpc;
          [|intros Hpc1; congruence].
        simpl. intros [= <-]. exists pc. split; [done|]. intros c.
        by constructor. }
    destruct H1 as [Hs1 Ha1].
    destruct (answerCandidates d) as [candidates|]; simpl.
    + destruct (addIceCandidates_novel candidates seen w1 w1' Hs1 Ha1).
      split; [done|]. done.
    + split; [done|]. intros _ _. by rewrite app_nil_r.
  - unfold responderSnapshot, peer_candidates. simpl. rewrite Hno.
    assert (Hcands : forall w0 w0',
      same_but_calls w0 w0' -> all_applied seen w0 ->
      same_but_calls
        (match offerCandidates d with
         | Some candidates => addIceCandidates candidates w0
         | None => w0
         end)
        (match novel seen <$> offerCandidates d with
         | Some candidates => addIceCandidates candidates w0'
         | None => w0'
         end) /\
      all_applied (seen ++ default [] (offerCandidates d))
        (match offerCandidates d with
         | Some candidates => addIceCandidates candidates w0
         | None => w0
         end)).
    { intros w0 w0' H0 Ha0.
      destruct (offerCandidates d) as [candidates|]; simpl.
      - by apply addIceCandidates_novel.
      - by rewrite app_nil_r. }
    destruct (offer d) as [o|].
    2:{ destruct (Hcands w w' Hsame Hseen) as [H1 H2]. by split. }
    destruct (noRemoteDescription w).
    2:{ destruct (Hcands w w' Hsame Hseen) as [H1 H2]. by split. }
    simpl. rewrite Hrefs, Hdb.
    destruct (peerConnection (refs w)) as [pc|] eqn:Hpc.
    + unfold Firestore.updateDoc.
      destruct (db w !! ref) as [d0|] eqn:Hd0.
      * match goal with
        | |- same_but_calls (match _ with Some _ => addIceCandidates _ ?w0
                                          | None => _ end)
               (match _ with Some _ => addIceCandidates _ ?w0'
                             | None => _ end) /\ _ =>
            destruct (Hcands w0 w0') as [H1 H2]
        end.
        -- apply same_but_calls_setStatus, same_but_calls_record_call,
             same_but_calls_with_db, same_but_calls_set_peerConnection.
           do 2 apply same_but_calls_record_call.
           by apply same_but_calls_setStatus.
        -- apply (all_applied_kept seen w); [done|]. intros pc1. simpl.
           intros [= <-]. exists pc. split; [done|].
           intros c Hc. by do 2 constructor.
        -- by split.
      * split.
        -- apply same_but_calls_set_peerConnection.
           do 2 apply same_but_calls_record_call.
           by apply same_but_calls_setStatus.
        -- intros _ [d1 Hd1]. congruence.
    + split; [by apply same_but_calls_setStatus|]. done.
Qed.

(** What the listener with the applied set has applied: a candidate it
    had seen not again, any other at most once. *)
Lemma novel_occurrences c candidates : forall seen,
  (c ∈ seen -> occurrences c (novel seen candidates) = 0%nat) /\
  (occurrences c (novel seen candidates) <= 1)%nat.
Proof.
  unfold occurrences.
  induction candidates as [|c' candidates IH]; intros seen; simpl.
  - split; [done|lia].
  - destruct (decide (c' ∈ seen)) as [Hin|Hout]; [apply IH|].
    rewrite filter_cons. destruct (decide (c' = c)) as [->|Hne]; simpl.
    + split; [done|].
      destruct (IH (c :: seen)) as [Hz _]. rewrite Hz; [lia|].
      apply elem_of_cons. by left.
    + destruct (IH (c' :: seen)) as [Hz Hle]. split; [|done].
      intros Hc. apply Hz. apply elem_of_cons. by right.
Qed.

(** The snapshots of a sequence, against the listener with the applied
    set. *)
Lemma deliver_once_correct l snapshots : forall seen w w',
  same_but_calls w w' -> all_applied seen w ->
  peerConnection (refs w) <> None -> answer_writable l w ->
  same_but_calls (deliver l snapshots w) (deliver_once l snapshots seen w').
Proof.
  unfold deliver.
  induction snapshots as [|data snapshots IH];
    intros seen w w' Hsame Hseen Hpc Hdb; simpl; [done|].
  destruct (snapshot_novel l data seen w w' Hsame Hseen) as [Hs Ha].
  destruct (snapshot_keeps_session l data w Hpc Hdb) as [Hpc1 Hdb1].
  apply IH; auto.
Qed.

Lemma novel_subseteq c candidates : forall seen,
  c ∈ novel seen candidates -> c ∈ candidates.
Proof.
  induction candidates as [|c' candidates IH]; intros seen; simpl; [done|].
  case_decide.
  - intros Hc. apply elem_of_cons. right. by eapply IH.
  - rewrite !elem_of_cons. intros [->|Hc]; [by left|]. right. by eapply IH.
Qed.

Lemma occurrences_positive c (candidates : list IceCandidate) :
  (0 < occurrences c candidates)%nat -> c ∈ candidates.
Proof.
  unfold occurrences. intros Hpos.
  destruct (filter (fun c' => c' = c) candidates) as [|c0 rest] eqn:Hf;
    [simpl in Hpos; lia|].
  assert (Hin : c0 ∈ filter (fun c' => c' = c) candidates)
    by (rewrite Hf; apply elem_of_cons; by left).
  apply list_elem_of_filter in Hin as [-> Hin]. done.
Qed.

Lemma peer_candidates_only_novel l seen data :
  peer_candidates l (only_novel l seen data)
    = novel seen (peer_candidates l data).
Proof.
  unfold peer_candidates, only_novel.
  destruct data as [d|]; [|done]. destruct l; simpl.
  - by destruct (answerCandidates d).
  - by destruct (offerCandidates d).
Qed.

(** The listener with the applied set hands every candidate to the
    transport at most once. *)
Lemma deliver_once_applications l snapshots c : forall seen w,
  peerConnection (refs w) <> None -> answer_writable l w ->
  (c ∈ seen ->
   applications c (deliver_once l snapshots seen w) = applications c w) /\
  (applications c (deliver_once l snapshots seen w)
     <= applications c w + 1)%nat.
Proof.
  induction snapshots as [|data snapshots IH]; intros seen w Hpc Hdb; simpl.
  - split; [done|lia].
  - destruct (snapshot_applications l (only_novel l seen data) c w Hpc Hdb)
      as (Happ & Hpc1 & Hdb1).
    rewrite peer_candidates_only_novel in Happ.
    destruct (novel_occurrences c (peer_candidates l data) seen)
      as [Hzero Hone].
    destruct (IH (seen ++ peer_candidates l data) _ Hpc1 Hdb1)
      as [Hseen Hle].
    split.
    + intros Hc. rewrite Hseen by (apply elem_of_app; by left).
      rewrite Happ, Hzero by done. lia.
    + destruct (decide (occurrences c (novel seen (peer_candidates l data))
                        = 0%nat)) as [Hz|Hnz].
      * rewrite Hz, Nat.add_0_r in Happ. lia.
      * rewrite Hseen; [lia|]. apply elem_of_app. right.
        apply (novel_subseteq c _ seen), occurrences_positive. lia.
Qed.

(** ** The listeners in segments *)

(** An invocation that is not interrupted performs its segments one
    after the other. *)
Lemma snapshot_segments l data w :
  snapshot l data w = foldl perform w (segments l data w).
Proof.
  destruct l as [ref|ref]; simpl.
  - unfold initiatorSnapshot, segments, peer_description.
    destruct (data ≫= answer) as [a|]; simpl.
    + destruct (noRemoteDescription w); simpl;
        by destruct (data ≫= answerCandidates).
    + by destruct (data ≫= answerCandidates).
  - unfold responderSnapshot, segments, peer_description.
    destruct (data ≫= offer) as [o|]; simpl;
      [|by destruct (data ≫= offerCandidates)].
    destruct (noRemoteDescription w); simpl;
      [|by destruct (data ≫= offerCandidates)].
    destruct (peerConnection (refs w)) as [pc|] eqn:Hpc; simpl; [|done].
    unfold on_peerConnection. simpl. rewrite Hpc. simpl.
    unfold Firestore.updateDoc. simpl.
    destruct (db w !! ref) as [d0|] eqn:Hd; simpl; [|done].
    by destruct (data ≫= offerCandidates).
Qed.

Lemma perform_once_correct seg seen w w' :
  same_but_calls w w' -> all_applied seen w ->
  same_but_calls (perform w seg) (perform_once (w', seen) seg).1 /\
  all_applied (perform_once (w', seen) seg).2 (perform w seg).
Proof.
  intros Hsame Hseen.
  assert (Hkept : forall f call,
    (forall c pc, applied c pc -> applied c (f pc)) ->
    all_applied seen (on_peerConnection f call w)).
  { intros f call Hf. apply (all_applied_kept seen w); [done|].
    intros pc1. unfold on_peerConnection.
    destruct (peerConnection (refs w)) as [pc|] eqn:Hpc; simpl.
    - intros [= <-]. exists pc. split; [done|]. intros c. apply Hf.
    - rewrite Hpc. done. }
  destruct seg as [s|d|d|ref d|candidates]; simpl.
  - split; [by apply same_but_calls_setStatus|done].
  - split; [by apply same_but_calls_on_peerConnection|].
    apply Hkept. intros c pc. apply applied_remote.
  - split; [by apply same_but_calls_on_peerConnection|].
    apply Hkept. intros c pc. apply applied_local.
  - assert (Hdb : db w' = db w) by by destruct Hsame as (_ & _ & <- & _).
    rewrite Hdb. destruct (Firestore.updateDoc _ _ _); [|done].
    split; [|done].
    by apply same_but_calls_record_call, same_but_calls_with_db.
  - by apply addIceCandidates_novel.
Qed.

Lemma performs_once_correct segs : forall seen w w',
  same_but_calls w w' -> all_applied seen w ->
  same_but_calls (foldl perform w segs)
    (foldl perform_once (w', seen) segs).1.
Proof.
  induction segs as [|seg segs IH]; intros seen w w' Hsame Hseen; simpl;
    [done|].
  destruct (perform_once_correct seg seen w w' Hsame Hseen) as [Hs Ha].
  destruct (perform_once (w', seen) seg) as [w1 seen1] eqn:H1.
  by apply IH.
Qed.

(** The listener with the applied set hands every candidate to the
    transport at most once, whatever the segments. *)
Lemma addIceCandidates_applications_le c candidates w :
  (applications c (addIceCandidates candidates w)
     <= applications c w + occurrences c candidates)%nat.
Proof.
  destruct (peerConnection (refs w)) as [pc|] eqn:Hpc.
  - destruct (addIceCandidates_applications c candidates w) as [-> _];
      [by rewrite Hpc|lia].
  - assert (Hnone : forall cs w0,
      peerConnection (refs w0) = None -> addIceCandidates cs w0 = w0).
    { clear. unfold addIceCandidates.
      induction cs as [|c1 cs IHcs]; intros w0 H0; simpl; [done|].
      unfold on_peerConnection at 2. rewrite H0. by apply IHcs. }
    rewrite Hnone by done. lia.
Qed.

Lemma perform_applications c seg w :
  (forall candidates, seg <> AddCandidates candidates) ->
  applications c (perform w seg) = applications c w.
Proof.
  intros Hseg. destruct seg as [s|d|d|ref d|candidates]; simpl.
  - done.
  - unfold on_peerConnection. destruct (peerConnection (refs w)); [|done].
    rewrite applications_record_call. case_decide; [done|].
    unfold applications. simpl. lia.
  - unfold on_peerConnection. destruct (peerConnection (refs w)); [|done].
    rewrite applications_record_call. case_decide; [done|].
    unfold applications. simpl. lia.
  - destruct (Firestore.updateDoc _ _ _); [|done].
    rewrite applications_record_call. case_decide; [done|].
    unfold applications. simpl. lia.
  - by destruct (Hseg candidates).
Qed.

Lemma performs_once_applications c segs : forall seen w,
  (c ∈ seen ->
   applications c (foldl perform_once (w, seen) segs).1 = applications c w) /\
  (applications c (foldl perform_once (w, seen) segs).1
     <= applications c w + 1)%nat.
Proof.
  induction segs as [|seg segs IH]; intros seen w; simpl.
  - split; [done|lia].
  - assert (Hcase : (exists candidates, seg = AddCandidates candidates) \/
                    (forall candidates, seg <> AddCandidates candidates))
      by (destruct seg; eauto).
    destruct Hcase as [[candidates ->]|Hseg].
    + simpl.
      pose proof (addIceCandidates_applications_le c
                    (novel seen candidates) w) as Hle.
      destruct (novel_occurrences c candidates seen) as [Hzero Hone].
      destruct (IH (seen ++ candidates)
                  (addIceCandidates (novel seen candidates) w))
        as [Hseen Hbound].
      assert (Hmono : (applications c w
                <= applications c (addIceCandidates (novel seen candidates) w))%nat).
      { unfold applications.
        destruct (addIceCandidates_calls_prefix (novel seen candidates) w)
          as [more ->].
        rewrite filter_app, length_app. lia. }
      split.
      * intros Hc. rewrite Hseen by (apply elem_of_app; by left).
        specialize (Hzero Hc). lia.
      * destruct (decide (occurrences c (novel seen candidates) = 0%nat))
          as [Hz|Hnz]; [lia|].
        rewrite Hseen; [lia|]. apply elem_of_app. right.
        apply (novel_subseteq c _ seen), occurrences_positive. lia.
    + assert (Hstep : perform_once (w, seen) seg = (perform w seg, seen))
        by (destruct seg; try done; by destruct (Hseg candidates)).
      rewrite Hstep. destruct (IH seen (perform w seg)) as [Hseen Hbound].
      rewrite perform_applications in Hseen, Hbound by done. done.
Qed.

End Signalling.


(* ===================================================================== *)
(** * The share code *)
(* ===================================================================== *)

(** C10: the share code need not have six characters: when
    [Math.random()] returns 0.5, whose decimal expansion is [0.5], the
    code is the single character [5].  And [handleFileChange] creates the
    record under the generated code without looking at the collection:
    its only calls are [setLocalDescription] and [setDoc], and whatever
    was stored under the code is replaced by the new offer. *)
Theorem share_code_unchecked :
  (exists random : JS.number,
      SFleb (S754_zero false) random = true /\
      SFltb random (JS.of_Z 1) = true /\
      Number_toString random = "0.5" /\
      newShareCode random = "5" /\
      (String.length (newShareCode random) < 6)%nat) /\
  (forall (RT : Runtime) (TR : Transport) (app_id : string)
          (render : ReactState) (f : File) (random : JS.number) (w : World),
      let callDocRef := getFileTransferDocRef app_id (newShareCode random) in
      let offerDescription :=
        createOffer (createDataChannel "file-transfer" new_RTCPeerConnection) in
      let w' := handleFileChange app_id render (Some f) random w in
      shareCode (react w') = newShareCode random /\
      calls w' = calls w ++ [CallSetLocalDescription offerDescription;
                             CallSetDoc callDocRef] /\
      db w' = <[callDocRef :=
                  {| offer := Some offerDescription;
                     offerCandidates := Some [];
                     answer := None; answerCandidates := None |}]> (db w)).
Proof.
  split.
  - exists (JS.of_decimal false 5 (-1)). vm_compute. repeat split; lia.
  - intros. subst callDocRef offerDescription w'.
    unfold handleFileChange. simpl. rewrite <- app_assoc. simpl.
    repeat split. unfold Firestore.setDoc.
    by destruct (createOffer _).
Qed.

(* ===================================================================== *)
(** * Chunking *)
(* ===================================================================== *)

Section Chunking.

Context {RT : Runtime} {TR : Transport}.

Implicit Types (b : bytes) (w : World) (f : File).

Local Open Scope nat_scope.

Lemma Blob_slice_length o c b :
  length (Blob_slice o (o + c) b) = Nat.min c (length b - o).
Proof.
  unfold Blob_slice. rewrite length_take, length_drop. f_equal. lia.
Qed.

Lemma ceil_div_small r c : 0 < r -> r <= c -> ceil_div r c = 1.
Proof.
  intros Hr Hc. unfold ceil_div.
  symmetry. apply (Nat.div_unique _ _ _ (r - 1)); lia.
Qed.

Lemma ceil_div_step r c : 0 < c -> c < r -> ceil_div r c = S (ceil_div (r - c) c).
Proof.
  intros Hc Hr. unfold ceil_div.
  replace (r + c - 1) with (1 * c + (r - c + c - 1)) by lia.
  rewrite Nat.div_add_l by lia. lia.
Qed.

Lemma ceil_div_zero c : 0 < c -> ceil_div 0 c = 0.
Proof. intros Hc. unfold ceil_div. apply Nat.div_small. lia. Qed.

(** The number of reads for [r] remaining bytes. *)
Lemma reads_step r c :
  0 < c -> c < r ->
  Nat.max 1 (ceil_div r c) = S (Nat.max 1 (ceil_div (r - c) c)).
Proof.
  intros Hc Hr. rewrite (ceil_div_step r c) by done.
  destruct (decide (r - c <= c)).
  - rewrite (ceil_div_small (r - c) c) by lia. done.
  - rewrite (ceil_div_step (r - c) c) by lia. lia.
Qed.

Lemma reads_last r c : 0 < c -> r <= c -> Nat.max 1 (ceil_div r c) = 1.
Proof.
  intros Hc Hr. destruct (decide (r = 0)) as [->|].
  - by rewrite ceil_div_zero.
  - rewrite ceil_div_small by lia. done.
Qed.

Lemma send_sent m w dc :
  dataChannel (refs w) = Some dc ->
  exists dc', dataChannel (refs (send m w)) = Some dc' /\
              sent dc' = sent dc ++ [m].
Proof. intros Hdc. unfold send. rewrite Hdc. simpl. eauto. Qed.

(** The reads of [readSlice]: with enough fuel the loop ends, having sent
    the consecutive slices from [o] on. *)
Lemma readSlice_sends chunkSize render f : forall fuel o w dc,
  0 < chunkSize -> o <= size f -> size f - o < fuel ->
  dataChannel (refs w) = Some dc ->
  exists w' dc',
    readSlice fuel chunkSize render f o w = Some w' /\
    dataChannel (refs w') = Some dc' /\
    sent dc' =
      sent dc ++ (Binary <$> slices (Nat.max 1 (ceil_div (size f - o) chunkSize))
                               chunkSize o (content f)).
Proof.
  induction fuel as [|fuel IH]; intros o w dc Hc Ho Hfuel Hdc; [lia|].
  simpl. pose proof (Blob_slice_length o chunkSize (content f)) as Hlen.
  fold (size f) in Hlen.
  destruct (send_sent (Binary (Blob_slice o (o + chunkSize) (content f))) w dc Hdc)
    as (dc1 & Hdc1 & Hsent1).
  destruct (Nat.ltb_spec (o + length (Blob_slice o (o + chunkSize) (content f)))
              (size f)) as [Hmore|Hdone].
  - assert (Hlt : chunkSize < size f - o) by lia.
    rewrite Hlen, Nat.min_l by lia.
    destruct (IH (o + chunkSize) _ dc1 Hc ltac:(lia) ltac:(lia) Hdc1)
      as (w' & dc' & Hrun & Hdc' & Hsent').
    exists w', dc'. split; [done|]. split; [done|].
    rewrite Hsent', Hsent1, <- app_assoc. f_equal.
    rewrite (reads_step (size f - o) chunkSize) by done. simpl.
    replace (size f - o - chunkSize) with (size f - (o + chunkSize)) by lia.
    done.
  - assert (Hle : size f - o <= chunkSize) by lia.
    eexists _, dc1. split; [done|]. split; [done|].
    rewrite (reads_last (size f - o) chunkSize) by done. done.
Qed.

Lemma slices_length n c o b : length (slices n c o b) = n.
Proof. revert o. induction n as [|n IH]; intros o; simpl; [done|by rewrite IH]. Qed.

Lemma slices_lookup n c b : forall o i,
  i < n ->
  slices n c o b !! i = Some (Blob_slice (o + i * c) (o + i * c + c) b).
Proof.
  induction n as [|n IH]; intros o i Hi; [lia|].
  destruct i as [|i]; simpl.
  - f_equal. f_equal; lia.
  - rewrite IH by lia. f_equal. f_equal; lia.
Qed.

Lemma slices_bounded n c b : forall o,
  Forall (fun chunk => length chunk <= c) (slices n c o b).
Proof.
  induction n as [|n IH]; intros o; simpl; constructor; [|apply IH].
  rewrite Blob_slice_length. lia.
Qed.

(** Reassembly: the slices, one after the other, are the bytes from [o]
    on, as soon as they reach the end. *)
Lemma slices_concat n c b : forall o,
  length b - o <= n * c -> Blob (slices n c o b) = drop o b.
Proof.
  unfold Blob.
  induction n as [|n IH]; intros o Hn; simpl.
  - symmetry. apply drop_ge. lia.
  - rewrite IH by lia. unfold Blob_slice.
    replace (o + c - o) with c by lia.
    rewrite <- drop_drop. apply take_drop.
Qed.

Lemma ceil_div_covers r c : 0 < c -> r <= ceil_div r c * c.
Proof.
  intros Hc. unfold ceil_div.
  pose proof (Nat.div_mod_eq (r + c - 1) c) as Hdm.
  pose proof (Nat.mod_upper_bound (r + c - 1) c ltac:(lia)). nia.
Qed.

(** What [handleReceiveMessage] does to the buffer on a chunk, whatever
    else happens. *)
Lemma receive_chunks chunks : forall w,
  receivedChunks (refs (receive (Binary <$> chunks) w)) =
    receivedChunks (refs w) ++ chunks.
Proof.
  unfold receive.
  induction chunks as [|chunk chunks IH]; intros w; simpl.
  - by rewrite app_nil_r.
  - rewrite IH. unfold handleReceiveMessage.
    repeat case_match; simpl; by rewrite <- app_assoc.
Qed.

(** What [sendFileInChunks] has sent when it ends: the metadata, then the
    slices. *)
Lemma chunks_sent chunkSize render f w dc :
  0 < chunkSize -> dataChannel (refs w) = Some dc ->
  exists w' dc',
    sendFileInChunks_with (S (size f)) chunkSize render f w = Some w' /\
    dataChannel (refs w') = Some dc' /\
    sent dc' =
      sent dc
      ++ Text (JSON_stringify
                 (JS.Obj [("name", JS.Str (name f));
                          ("size", JS.Num (JS.of_Z (Z.of_nat (size f))))]))
         :: (Binary <$> slices (Nat.max 1 (ceil_div (size f) chunkSize))
                          chunkSize 0 (content f)).
Proof.
  intros Hc Hdc. unfold sendFileInChunks_with.
  match goal with |- context [send ?m w] =>
    destruct (send_sent m w dc Hdc) as (dc0 & Hdc0 & Hsent0)
  end.
  destruct (readSlice_sends chunkSize render f (S (size f)) 0 _ dc0
              Hc ltac:(lia) ltac:(lia) Hdc0) as (w' & dc' & Hrun & Hdc' & Hsent').
  rewrite Nat.sub_0_r in Hsent'.
  exists w', dc'. split; [done|]. split; [done|].
  by rewrite Hsent', Hsent0, <- app_assoc.
Qed.

(** C6 (as the code has it): for a chunk size [C > 0] the sender's loop
    ends and has sent, after the metadata, [max 1 (ceil (S / C))] chunks:
    the consecutive slices of [C] bytes of the file, in order, each of at
    most [C] bytes, and their concatenation in receipt order, which is
    what the receiver's buffer holds and reassembles, is the file.  An
    empty file is sent as one empty chunk, so the number of chunks is
    [ceil (S / C)] except for [S = 0], and it is never 0. *)
Theorem chunking_round_trip (chunkSize : nat) render f w dc :
  0 < chunkSize -> dataChannel (refs w) = Some dc ->
  let metadata :=
    JS.Obj [("name", JS.Str (name f));
            ("size", JS.Num (JS.of_Z (Z.of_nat (size f))))] in
  let n := Nat.max 1 (ceil_div (size f) chunkSize) in
  exists w' dc' chunks,
    sendFileInChunks_with (S (size f)) chunkSize render f w = Some w' /\
    dataChannel (refs w') = Some dc' /\
    sent dc' = sent dc ++ Text (JSON_stringify metadata) :: (Binary <$> chunks) /\
    length chunks = n /\
    (0 < size f -> n = ceil_div (size f) chunkSize) /\
    (size f = 0 -> chunks = [[]]) /\
    (forall i, i < n ->
       chunks !! i =
         Some (Blob_slice (i * chunkSize) (i * chunkSize + chunkSize)
                 (content f))) /\
    Forall (fun chunk => length chunk <= chunkSize) chunks /\
    Blob chunks = content f /\
    (forall receiver : World,
       receivedChunks (refs receiver) = [] ->
       Blob (receivedChunks (refs (receive (Binary <$> chunks) receiver)))
         = content f).
Proof.
  intros Hc Hdc metadata n. unfold sendFileInChunks_with. fold metadata.
  destruct (send_sent (Text (JSON_stringify metadata)) w dc Hdc)
    as (dc0 & Hdc0 & Hsent0).
  destruct (readSlice_sends chunkSize render f (S (size f)) 0 _ dc0
              Hc ltac:(lia) ltac:(lia) Hdc0) as (w' & dc' & Hrun & Hdc' & Hsent').
  rewrite Nat.sub_0_r in Hsent'. fold n in Hsent'.
  assert (Hblob : Blob (slices n chunkSize 0 (content f)) = content f).
  { rewrite slices_concat; [done|].
    pose proof (ceil_div_covers (size f) chunkSize Hc). unfold size in *.
    subst n. nia. }
  exists w', dc', (slices n chunkSize 0 (content f)).
  split; [done|]. split; [done|]. split.
  { rewrite Hsent', Hsent0, <- app_assoc. done. }
  split; [apply slices_length|]. split.
  { intros Hpos. subst n. destruct (decide (size f <= chunkSize)).
    - rewrite ceil_div_small by lia. done.
    - rewrite ceil_div_step by lia. lia. }
  split.
  { intros Hzero. subst n. rewrite Hzero, ceil_div_zero by done. simpl.
    unfold size in Hzero. apply nil_length_inv in Hzero. rewrite Hzero.
    unfold Blob_slice. by rewrite drop_nil, take_nil. }
  split.
  { intros i Hi. rewrite slices_lookup by done. done. }
  split; [apply slices_bounded|]. split; [done|].
  intros receiver Hempty. by rewrite receive_chunks, Hempty.
Qed.

(** [sendFileInChunks] never runs out of reads. *)
Lemma sendFileInChunks_total render f w dc :
  dataChannel (refs w) = Some dc ->
  is_Some (sendFileInChunks render f w).
Proof.
  intros Hdc. unfold sendFileInChunks, sendFileInChunks_with.
  match goal with |- context [send ?m w] =>
    destruct (send_sent m w dc Hdc) as (dc0 & Hdc0 & _)
  end.
  destruct (readSlice_sends CHUNK_SIZE render f (S (size f)) 0 _ dc0
              ltac:(unfold CHUNK_SIZE; lia) ltac:(lia) ltac:(lia) Hdc0)
    as (w' & _ & -> & _).
  eauto.
Qed.

(** ** From the sender to the download *)

Local Open Scope Z_scope.

(** A chunk that does not complete the announced size is buffered and
    counted, and nothing else happens. *)
Lemma receive_more chunk w fields total :
  fileMetadata (refs w) = JS.Obj fields ->
  JS.get (JS.Obj fields) "size" = JS.Normal (JS.Num (JS.of_Z total)) ->
  0 <= receivedFileSize (refs w) + Z.of_nat (length chunk) < 2 ^ 53 ->
  0 <= total < 2 ^ 53 ->
  receivedFileSize (refs w) + Z.of_nat (length chunk) <> total ->
  let w' := (handleReceiveMessage (Binary chunk) w).1 in
  receivedChunks (refs w') = receivedChunks (refs w) ++ [chunk] /\
  receivedFileSize (refs w')
    = receivedFileSize (refs w) + Z.of_nat (length chunk) /\
  fileMetadata (refs w') = fileMetadata (refs w) /\
  downloads w' = downloads w.
Proof.
  intros Hmeta Hsize Hc Ht Hne. unfold handleReceiveMessage. simpl.
  rewrite Hmeta, Hsize. simpl.
  rewrite strict_equals_of_Z, bool_decide_eq_false_2 by done. done.
Qed.

(** The chunk that completes the announced size hands the buffer to the
    browser under the announced name. *)
Lemma receive_last chunk w fields total filename :
  fileMetadata (refs w) = JS.Obj fields ->
  JS.get (JS.Obj fields) "size" = JS.Normal (JS.Num (JS.of_Z total)) ->
  JS.get (JS.Obj fields) "name" = JS.Normal (JS.Str filename) ->
  0 <= total < 2 ^ 53 ->
  receivedFileSize (refs w) + Z.of_nat (length chunk) = total ->
  let w' := (handleReceiveMessage (Binary chunk) w).1 in
  downloads w' =
    downloads w
    ++ [{| download := filename;
           fileBlob := Blob (receivedChunks (refs w) ++ [chunk]) |}].
Proof.
  intros Hmeta Hsize Hname Ht Hc. unfold handleReceiveMessage. simpl.
  rewrite Hmeta, Hsize, Hname. simpl.
  rewrite strict_equals_of_Z, bool_decide_eq_true_2 by lia. done.
Qed.

Lemma receive_nil w : receive [] w = w.
Proof. done. Qed.

Lemma receive_cons m ms w :
  receive (m :: ms) w = receive ms (handleReceiveMessage m w).1.
Proof. done. Qed.

(** Receiving the slices the sender sends, from the offset reached so
    far: the download happens at the last one and holds the buffer with
    all of them. *)
Lemma receive_slices c b fields filename : forall n o w,
  (0 < c)%nat -> (o <= length b)%nat -> Z.of_nat (length b) < 2 ^ 53 ->
  n = Nat.max 1 (ceil_div (length b - o) c) ->
  fileMetadata (refs w) = JS.Obj fields ->
  JS.get (JS.Obj fields) "size"
    = JS.Normal (JS.Num (JS.of_Z (Z.of_nat (length b)))) ->
  JS.get (JS.Obj fields) "name" = JS.Normal (JS.Str filename) ->
  receivedFileSize (refs w) = Z.of_nat o ->
  downloads (receive (Binary <$> slices n c o b) w) =
    downloads w
    ++ [{| download := filename;
           fileBlob := Blob (receivedChunks (refs w) ++ slices n c o b) |}].
Proof.
  induction n as [|n IH];
    intros o w Hc Ho Hb Hn Hmeta Hsize Hname Hcount; [lia|].
  pose proof (Blob_slice_length o c b) as Hlen.
  simpl slices. rewrite fmap_cons, receive_cons.
  destruct (decide (length b - o <= c)%nat) as [Hlast|Hmore].
  - rewrite reads_last in Hn by done. injection Hn as ->.
    simpl slices. rewrite fmap_nil, receive_nil.
    apply (receive_last _ w fields (Z.of_nat (length b))); try done; lia.
  - rewrite reads_step in Hn by lia. injection Hn as Hn.
    destruct (receive_more (Blob_slice o (o + c) b) w fields
                (Z.of_nat (length b))) as (Hch & Hsz & Hm & Hd);
      try done; try lia.
    rewrite (IH (o + c)%nat
               (handleReceiveMessage (Binary (Blob_slice o (o + c) b)) w).1 Hc).
    + rewrite Hd, Hch, <- app_assoc. done.
    + lia.
    + done.
    + rewrite Hn. do 2 f_equal. lia.
    + by rewrite Hm.
    + done.
    + done.
    + rewrite Hsz, Hcount, Hlen. lia.
Qed.

(** The transfer end to end: what the sender gives to [send], fed to a
    receiver that has nothing buffered, ends in one download of the
    file's bytes under the file's name, provided [JSON.parse] reads the
    metadata back. *)
Lemma transfer_delivers_file_with chunkSize render f w dc (receiver : World) :
  (0 < chunkSize)%nat ->
  dataChannel (refs w) = Some dc -> sent dc = [] ->
  Z.of_nat (size f) < 2 ^ 53 ->
  (let metadata :=
     JS.Obj [("name", JS.Str (name f));
             ("size", JS.Num (JS.of_Z (Z.of_nat (size f))))] in
   JSON_parse (JSON_stringify metadata) = Some metadata) ->
  exists w' dc',
    sendFileInChunks_with (S (size f)) chunkSize render f w = Some w' /\
    dataChannel (refs w') = Some dc' /\
    downloads (receive (sent dc') receiver) =
      downloads receiver
      ++ [{| download := name f; fileBlob := content f |}].
Proof.
  intros Hc Hdc Hsent Hsize Hjson.
  destruct (chunks_sent chunkSize render f w dc Hc Hdc)
    as (w' & dc' & Hrun & Hdc' & Hs).
  exists w', dc'. split; [done|]. split; [done|].
  rewrite Hs, Hsent, app_nil_l, receive_cons.
  unfold handleReceiveMessage at 1. rewrite Hjson. simpl JS.get. cbv iota.
  set (fields := [("name", JS.Str (name f));
                  ("size", JS.Num (JS.of_Z (Z.of_nat (size f))))]).
  rewrite (receive_slices chunkSize (content f) fields (name f)); try done.
  - simpl. do 3 f_equal. apply slices_concat.
    pose proof (ceil_div_covers (size f) chunkSize Hc).
    unfold size in *. nia.
  - lia.
  - by rewrite Nat.sub_0_r.
Qed.

Lemma transfer_delivers_file render f w dc (receiver : World) :
  dataChannel (refs w) = Some dc -> sent dc = [] ->
  Z.of_nat (size f) < 2 ^ 53 ->
  (let metadata :=
     JS.Obj [("name", JS.Str (name f));
             ("size", JS.Num (JS.of_Z (Z.of_nat (size f))))] in
   JSON_parse (JSON_stringify metadata) = Some metadata) ->
  exists w' dc',
    sendFileInChunks render f w = Some w' /\
    dataChannel (refs w') = Some dc' /\
    downloads (receive (sent dc') receiver) =
      downloads receiver
      ++ [{| download := name f; fileBlob := content f |}].
Proof.
  intros Hdc Hsent Hsize Hjson.
  apply (transfer_delivers_file_with CHUNK_SIZE render f w dc); try done.
  unfold CHUNK_SIZE. lia.
Qed.

End Chunking.

(* ===================================================================== *)
(** * Sessions, the store and the transfer as a whole *)
(* ===================================================================== *)

Section Frames.

Context {RT : Runtime} {TR : Transport} (app_id : string).
Implicit Types (w : World).

Lemma same_session_refl w : same_session w w.
Proof. by repeat split. Qed.

Lemma same_session_trans w1 w2 w3 :
  same_session w1 w2 -> same_session w2 w3 -> same_session w1 w3.
Proof.
  unfold same_session. intros H1 H2.
  destruct H1 as (?&?&?&?&?&?&?&?&?&?&?&?&?), H2 as (?&?&?&?&?&?&?&?&?&?&?&?&?).
  repeat split; try congruence; tauto.
Qed.

Lemma on_peerConnection_same_session g c w :
  same_session w (on_peerConnection g c w).
Proof.
  unfold on_peerConnection.
  destruct (peerConnection (refs w)) as [pc|] eqn:Hpc;
    [|apply same_session_refl].
  repeat split; simpl; try done; congruence.
Qed.

Lemma addIceCandidates_same_session candidates : forall w,
  same_session w (addIceCandidates candidates w).
Proof.
  unfold addIceCandidates.
  induction candidates as [|c candidates IH]; intros w; simpl.
  - apply same_session_refl.
  - eapply same_session_trans; [|apply IH].
    apply on_peerConnection_same_session.
Qed.

Lemma setStatus_same_session s w : same_session w (setStatus s w).
Proof. by repeat split. Qed.

Lemma snapshot_same_session l data w : same_session w (snapshot l data w).
Proof.
  destruct l as [ref|ref]; simpl.
  - unfold initiatorSnapshot.
    set (w1 := match data ≫= answer with Some _ => _ | None => w end).
    assert (H1 : same_session w w1).
    { subst w1. destruct (data ≫= answer); [|apply same_session_refl].
      destruct (noRemoteDescription w); [|apply same_session_refl].
      eapply same_session_trans; [apply on_peerConnection_same_session|].
      apply setStatus_same_session. }
    destruct (data ≫= answerCandidates); [|done].
    eapply same_session_trans; [exact H1|].
    apply addIceCandidates_same_session.
  - unfold responderSnapshot.
    assert (Hc : forall w0, same_session w w0 ->
      same_session w (match data ≫= offerCandidates with
                      | Some candidates => addIceCandidates candidates w0
                      | None => w0
                      end)).
    { intros w0 H0. destruct (data ≫= offerCandidates); [|done].
      eapply same_session_trans; [exact H0|].
      apply addIceCandidates_same_session. }
    destruct (data ≫= offer); [|apply Hc, same_session_refl].
    destruct (noRemoteDescription w); [|apply Hc, same_session_refl].
    simpl. destruct (peerConnection (refs w)) as [pc|] eqn:Hpc.
    + destruct (Firestore.updateDoc _ _ _).
      * apply Hc. repeat split; simpl; try done; congruence.
      * repeat split; simpl; try done; congruence.
    + apply setStatus_same_session.
Qed.

Lemma icecandidate_same_session c w : same_session w (icecandidate c w).
Proof.
  unfold icecandidate. repeat case_match; try apply same_session_refl;
    by repeat split.
Qed.

Lemma same_but_channel_refl w : same_but_channel w w.
Proof. by repeat split. Qed.

Lemma same_but_channel_trans w1 w2 w3 :
  same_but_channel w1 w2 -> same_but_channel w2 w3 -> same_but_channel w1 w3.
Proof.
  unfold same_but_channel. intros H1 H2.
  destruct H1 as (?&?&?&?&?&?&?&?&?&?&?&?&?), H2 as (?&?&?&?&?&?&?&?&?&?&?&?&?).
  repeat split; congruence.
Qed.

Lemma send_same_but_channel m w : same_but_channel w (send m w).
Proof.
  unfold send. destruct (dataChannel (refs w)); by repeat split.
Qed.

Lemma readSlice_same_but_channel fuel chunkSize render f : forall o w w',
  readSlice fuel chunkSize render f o w = Some w' -> same_but_channel w w'.
Proof.
  induction fuel as [|fuel IH]; intros o w w' Hrun; [done|].
  simpl in Hrun.
  pose proof (send_same_but_channel
                (Binary (Blob_slice o (o + chunkSize) (content f))) w) as Hs.
  case_match.
  - apply IH in Hrun. by eapply same_but_channel_trans.
  - injection Hrun as <-. eapply same_but_channel_trans; [exact Hs|].
    by repeat split.
Qed.

Lemma sendFileInChunks_same_but_channel render f w w' :
  sendFileInChunks render f w = Some w' -> same_but_channel w w'.
Proof.
  unfold sendFileInChunks, sendFileInChunks_with. intros Hrun.
  apply readSlice_same_but_channel in Hrun.
  eapply same_but_channel_trans; [|exact Hrun].
  apply send_same_but_channel.
Qed.

Lemma handleReceiveMessage_same_but_buffer data w :
  same_but_buffer w (handleReceiveMessage data w).1.
Proof.
  unfold handleReceiveMessage.
  destruct data as [s|chunk|]; simpl; repeat case_match; by repeat split.
Qed.

(** The byte counter follows the buffer through [handleReceiveMessage],
    however the call ends. *)
Lemma handleReceiveMessage_counter data w :
  receivedFileSize (refs w)
    = Z.of_nat (length (Blob (receivedChunks (refs w)))) ->
  let w' := (handleReceiveMessage data w).1 in
  receivedFileSize (refs w')
    = Z.of_nat (length (Blob (receivedChunks (refs w')))).
Proof.
  intros Hinv. unfold handleReceiveMessage, Blob in *.
  destruct data as [s|chunk|]; simpl; repeat case_match; simpl; try done;
    rewrite Hinv, concat_app, length_app; simpl; rewrite app_nil_r; lia.
Qed.

(** ** The session invariant *)

Lemma session_consistent_initial database :
  session_consistent app_id (initialWorld database).
Proof. by split. Qed.

Lemma session_consistent_kept w w' :
  mode (react w') = mode (react w) ->
  shareCode (react w') = shareCode (react w) ->
  (peerConnection (refs w') = None <-> peerConnection (refs w) = None) ->
  onicecandidate (refs w') = onicecandidate (refs w) ->
  receivedFileSize (refs w')
    = Z.of_nat (length (Blob (receivedChunks (refs w')))) ->
  session_consistent app_id w -> session_consistent app_id w'.
Proof.
  intros Hm Hs Hpc Hice Hcount [Hidle Htransfer Hhandler Hcode _].
  split; unfold own_handler in *; rewrite ?Hm, ?Hs, ?Hice, ?Hpc; done.
Qed.

Lemma same_session_consistent w w' :
  same_session w w' ->
  session_consistent app_id w -> session_consistent app_id w'.
Proof.
  intros (_&_&_&Hm&Hs&_&_&Hice&_&Hch&Hsz&_&Hpc) Hinv.
  apply (session_consistent_kept w w'); try done.
  rewrite Hch, Hsz. by destruct Hinv.
Qed.

Lemma resetState_consistent w : session_consistent app_id (resetState w).
Proof.
  destruct (resetState_spec w)
    as (_ & _ & _ & Hpc & _ & Hch & Hsz & _ & Hm & Hs & _).
  split; rewrite ?Hm, ?Hpc, ?Hch, ?Hsz; done.
Qed.

Lemma runCallback_consistent cb w w' :
  session_consistent app_id w -> runCallback app_id cb w = Some w' ->
  session_consistent app_id w'.
Proof.
  intros Hinv Hrun. destruct cb as [render f| |render|]; simpl in Hrun.
  - apply sendFileInChunks_same_but_channel in Hrun
      as (_&_&_&_&Hm&Hs&_&_&Hpc&Hice&Hch&Hsz&_).
    simpl in *. apply (session_consistent_kept w w'); try done.
    + by rewrite Hpc.
    + rewrite Hch, Hsz. by destruct Hinv.
  - injection Hrun as <-. by destruct Hinv.
  - injection Hrun as <-. apply resetState_consistent.
  - injection Hrun as <-. apply resetState_consistent.
Qed.

Lemma step_consistent e w w' :
  session_consistent app_id w -> step app_id e w = Some w' ->
  session_consistent app_id w'.
Proof.
  intros Hinv Hstep. destruct e; simpl in Hstep.
  - (* SelectFile *)
    destruct (renderContent (react w)); try done. injection Hstep as <-.
    destruct selectedFile as [f|]; [|exact Hinv].
    destruct Hinv as [_ _ _ _ Hcount].
    by split; unfold handleFileChange, own_handler; simpl.
  - (* ClickReceive *)
    destruct (renderContent (react w)); try done. injection Hstep as <-.
    by destruct Hinv.
  - (* SubmitCode *)
    destruct (showReceiveModal (react w)); [|done].
    destruct code as [|a code]; [done|]. injection Hstep as <-.
    destruct Hinv as [_ _ _ _ Hcount].
    by split; unfold handleReceiveSubmit, own_handler; simpl.
  - (* DismissModal *)
    case_match; [|done]. injection Hstep as <-. by destruct Hinv.
  - (* ClickCancel *)
    destruct (renderContent (react w)); try done; injection Hstep as <-;
      apply resetState_consistent.
  - (* DataChannelAnnounced *)
    repeat case_match; try done. injection Hstep as <-. by destruct Hinv.
  - (* ChannelOpen *)
    destruct (dataChannel (refs w)) as [dc|]; [|done]. simpl in Hstep.
    destruct (onopen dc) as [cb|]; [|done]. simpl in Hstep.
    by eapply runCallback_consistent.
  - (* ChannelMessage *)
    repeat case_match; try done. injection Hstep as <-.
    destruct (handleReceiveMessage_same_but_buffer data w)
      as (_&_&_&Hm&Hs&_&_&Hpc&Hice&_).
    apply (session_consistent_kept w _); try done.
    + by rewrite Hpc.
    + apply handleReceiveMessage_counter. by destruct Hinv.
  - (* LocalCandidate *)
    case_match; [|done]. injection Hstep as <-.
    by eapply same_session_consistent; [apply icecandidate_same_session|].
  - (* SnapshotDelivered *)
    destruct (listeners w !! i) as [l|]; [|done]. injection Hstep as <-.
    by eapply same_session_consistent; [apply snapshot_same_session|].
  - (* TimerFires *)
    destruct (timers w !! i) as [cb|]; [|done]. simpl in Hstep.
    eapply runCallback_consistent; [|exact Hstep]. by destruct Hinv.
  - (* StoreChanged *)
    injection Hstep as <-. by destruct Hinv.
Qed.

Lemma reachable_consistent w :
  reachable app_id w -> session_consistent app_id w.
Proof.
  induction 1 as [database|e w w' _ IH Hstep].
  - apply session_consistent_initial.
  - by eapply step_consistent.
Qed.

End Frames.

Section SessionProperties.

Context {RT : Runtime} {TR : Transport} (app_id : string).
Implicit Types (w : World).

(** X1: at every state the events lead to, the main view is drawn exactly
    when there is no peer connection, and the mode [transfer] of the
    declaration of [mode] is never taken. *)
Theorem main_view_iff_no_connection w :
  reachable app_id w ->
  (renderContent (react w) = MainView <-> peerConnection (refs w) = None) /\
  mode (react w) <> transfer.
Proof.
  intros Hreach.
  destruct (reachable_consistent app_id w Hreach) as [Hidle Htransfer _ _ _].
  split; [|done]. rewrite <- Hidle. unfold renderContent.
  destruct (mode (react w)); split; done.
Qed.

(** X2: at every state the events lead to, [receivedFileSize] is the
    number of bytes in [receivedChunks]. *)
Theorem counter_matches_buffer w :
  reachable app_id w ->
  receivedFileSize (refs w)
    = Z.of_nat (length (Blob (receivedChunks (refs w)))).
Proof. intros Hreach. by destruct (reachable_consistent app_id w Hreach). Qed.

Lemma arrayUnion_spec c field :
  exists l', Firestore.arrayUnion c field = Some l' /\ c ∈ l' /\
             default [] field `prefix_of` l'.
Proof.
  unfold Firestore.arrayUnion. destruct field as [l|]; simpl.
  - eexists. split; [done|]. case_decide.
    + done.
    + split; [set_solver|]. by apply prefix_app_r.
  - eexists. split; [done|]. split; [set_solver|]. apply prefix_nil.
Qed.

(** X3: a local candidate of a session goes to the record of the
    session's share code and to no other: when that record exists, the
    candidate is in the session's own candidate list afterwards, what the
    list held stays in front, and the offer, the answer and the peer's
    candidates are as before; when it is gone, nothing changes. *)
Theorem local_candidate_goes_to_own_record w c :
  reachable app_id w -> peerConnection (refs w) <> None ->
  let callDocRef := getFileTransferDocRef app_id (shareCode (react w)) in
  exists w', step app_id (LocalCandidate (Some c)) w = Some w' /\
    (forall ref, ref <> callDocRef -> db w' !! ref = db w !! ref) /\
    match db w !! callDocRef with
    | None => w' = w
    | Some d =>
        exists d' l', db w' !! callDocRef = Some d' /\
          offer d' = offer d /\ answer d' = answer d /\
          peers_candidates (react w) d' = peers_candidates (react w) d /\
          own_candidates (react w) d' = Some l' /\ c ∈ l' /\
          default [] (own_candidates (react w) d) `prefix_of` l'
    end.
Proof.
  intros Hreach Hpc callDocRef.
  destruct (reachable_consistent app_id w Hreach)
    as [Hidle Htransfer Hhandler _ _].
  specialize (Hhandler Hpc). unfold own_handler in Hhandler.
  fold callDocRef in Hhandler.
  eexists. split.
  { simpl. destruct (peerConnection (refs w)); [reflexivity|done]. }
  unfold icecandidate, Firestore.updateDoc, own_candidates, peers_candidates.
  rewrite Hhandler.
  destruct (mode (react w)) eqn:Hmode; try done.
  - exfalso. apply Hpc, Hidle. done.
  - destruct (db w !! callDocRef) as [d|] eqn:Hd; simpl.
    + split; [intros ref Hne; by rewrite lookup_insert_ne|].
      destruct (arrayUnion_spec c (offerCandidates d)) as (l' & Hl & Hin & Hpre).
      eexists _, l'. rewrite lookup_insert_eq. simpl. done.
    + done.
  - destruct (db w !! callDocRef) as [d|] eqn:Hd; simpl.
    + split; [intros ref Hne; by rewrite lookup_insert_ne|].
      destruct (arrayUnion_spec c (answerCandidates d)) as (l' & Hl & Hin & Hpre).
      eexists _, l'. rewrite lookup_insert_eq. simpl. done.
    + done.
Qed.

End SessionProperties.

Section Subscriptions.

Context {RT : Runtime} {TR : Transport} (app_id : string).
Implicit Types (w : World).

Lemma runCallback_subscriptions cb w w' :
  runCallback app_id cb w = Some w' ->
  listeners w' = listeners w /\ timers w `prefix_of` timers w'.
Proof.
  intros Hrun. destruct cb as [render f| |render|]; simpl in Hrun.
  - pose proof (sendFileInChunks_same_but_channel _ _ _ _ Hrun) as (Hl&_).
    apply sendFileInChunks_frame in Hrun as (_&_&Ht&_).
    rewrite Hl, Ht. split; [done|]. by apply prefix_app_r.
  - by injection Hrun as <-.
  - injection Hrun as <-. unfold senderTeardown.
    match goal with |- context [resetState ?w0] =>
      destruct (resetState_spec w0) as (_ & Ht & Hl & _)
    end.
    rewrite Hl, Ht. by case_match.
  - injection Hrun as <-.
    destruct (resetState_spec w) as (_ & Ht & Hl & _). by rewrite Hl, Ht.
Qed.

(** X4: no event removes a subscription: the listeners of a state are
    still the first listeners after any event, a cancellation or a
    teardown included, and the only timer that goes is the one that
    fires. *)
Theorem subscriptions_outlive_sessions e w w' :
  step app_id e w = Some w' ->
  listeners w `prefix_of` listeners w' /\
  match e with
  | TimerFires i => delete i (timers w) `prefix_of` timers w'
  | _ => timers w `prefix_of` timers w'
  end.
Proof.
  intros Hstep. destruct e; simpl in Hstep.
  - destruct (renderContent (react w)); try done. injection Hstep as <-.
    destruct selectedFile as [f|]; [|done].
    unfold handleFileChange; simpl. split; [by apply prefix_app_r|done].
  - destruct (renderContent (react w)); try done. by injection Hstep as <-.
  - case_match; [|done]. injection Hstep as <-.
    unfold handleReceiveSubmit; simpl. split; [by apply prefix_app_r|done].
  - case_match; [|done]. by injection Hstep as <-.
  - destruct (renderContent (react w)); try done; injection Hstep as <-;
      unfold handleCancel;
      match goal with |- context [resetState ?w0] =>
        destruct (resetState_spec w0) as (_ & Ht & Hl & _)
      end; rewrite Hl, Ht; by case_match.
  - repeat case_match; try done. by injection Hstep as <-.
  - destruct (dataChannel (refs w)) as [dc|]; [|done]. simpl in Hstep.
    destruct (onopen dc) as [cb|]; [|done]. simpl in Hstep.
    apply runCallback_subscriptions in Hstep as [-> ?]. done.
  - repeat case_match; try done. injection Hstep as <-.
    destruct (handleReceiveMessage_same_but_buffer data w) as (-> & _).
    destruct (handleReceiveMessage_frame data w) as (_&_&_&_&[-> | ->]).
    + done.
    + split; [done|]. by apply prefix_app_r.
  - case_match; [|done]. injection Hstep as <-.
    destruct (icecandidate_same_session c w) as (-> & -> & _). done.
  - destruct (listeners w !! i) as [l|]; [|done]. injection Hstep as <-.
    destruct (snapshot_same_session l data w) as (-> & -> & _). done.
  - destruct (timers w !! i) as [cb|]; [|done]. simpl in Hstep.
    apply runCallback_subscriptions in Hstep as [-> ?]. done.
  - by injection Hstep as <-.
Qed.

Lemma addIceCandidates_no_connection candidates : forall w,
  peerConnection (refs w) = None -> addIceCandidates candidates w = w.
Proof.
  unfold addIceCandidates.
  induction candidates as [|c candidates IH]; intros w Hpc; simpl; [done|].
  unfold on_peerConnection at 2. rewrite Hpc. by apply IH.
Qed.

(** X5: a listener that is called when the ref holds no connection (after
    a cancellation or a teardown) does nothing but set the status line,
    and that when the snapshot carries the description of the peer. *)
Theorem snapshot_without_connection l data w :
  peerConnection (refs w) = None ->
  snapshot l data w =
    match l with
    | InitiatorListener _ =>
        match data ≫= answer with
        | Some _ => setStatus ReceiverConnected w
        | None => w
        end
    | ResponderListener _ =>
        match data ≫= offer with
        | Some _ => setStatus OfferReceived w
        | None => w
        end
    end.
Proof.
  intros Hpc. destruct l as [ref|ref]; simpl.
  - unfold initiatorSnapshot, noRemoteDescription, on_peerConnection.
    rewrite Hpc.
    destruct (data ≫= answer), (data ≫= answerCandidates);
      by rewrite ?addIceCandidates_no_connection.
  - unfold responderSnapshot, noRemoteDescription. rewrite Hpc. simpl.
    rewrite Hpc.
    destruct (data ≫= offer), (data ≫= offerCandidates);
      by rewrite ?addIceCandidates_no_connection.
Qed.

End Subscriptions.

Section Store.

Context {RT : Runtime} {TR : Transport} (app_id : string).
Implicit Types (w : World).

Lemma updateDoc_dom (ref : DocRef) (g : Doc -> Doc) (database database' : gmap DocRef Doc) :
  Firestore.updateDoc ref g database = Some database' ->
  dom database' = dom database.
Proof.
  unfold Firestore.updateDoc.
  destruct (database !! ref) as [d|] eqn:Hd; [|done]. intros [= <-].
  rewrite dom_insert_L. apply subseteq_union_1_L, singleton_subseteq_l.
  by apply elem_of_dom_2 in Hd.
Qed.

Lemma snapshot_dom l data w : dom (db (snapshot l data w)) = dom (db w).
Proof.
  destruct l as [ref|ref]; simpl.
  - unfold initiatorSnapshot.
    repeat case_match;
      repeat match goal with
      | |- context [addIceCandidates ?cs ?w0] =>
          destruct (addIceCandidates_frame cs w0) as (_ & _ & -> & _)
      end; simpl;
      repeat match goal with
      | |- context [on_peerConnection ?g ?c ?w0] =>
          destruct (on_peerConnection_frame g c w0) as (_ & _ & -> & _)
      end; done.
  - unfold responderSnapshot.
    repeat case_match;
      repeat match goal with
      | |- context [addIceCandidates ?cs ?w0] =>
          destruct (addIceCandidates_frame cs w0) as (_ & _ & -> & _)
      end; simpl; try done;
      by eapply updateDoc_dom.
Qed.

Lemma icecandidate_dom c w : dom (db (icecandidate c w)) = dom (db w).
Proof.
  unfold icecandidate. repeat case_match; simpl; try done;
    by eapply updateDoc_dom.
Qed.

Lemma resetState_db w : db (resetState w) = db w.
Proof. apply resetState_spec. Qed.

Lemma runCallback_dom cb w w' :
  runCallback app_id cb w = Some w' -> dom (db w') ⊆ dom (db w).
Proof.
  intros Hrun. destruct cb as [render f| |render|]; simpl in Hrun.
  - apply sendFileInChunks_frame in Hrun as (_&_&_&->&_). done.
  - by injection Hrun as <-.
  - injection Hrun as <-. unfold senderTeardown. rewrite resetState_db.
    case_match; [|done]. simpl. unfold Firestore.deleteDoc.
    rewrite dom_delete_L. by apply subseteq_difference_l.
  - injection Hrun as <-. by rewrite resetState_db.
Qed.

(** X6: the program creates a record in one place, the [setDoc] of
    [handleFileChange], under the share code just drawn; every other event
    of the program leaves the set of records as it is or makes it
    smaller. *)
Theorem records_are_created_by_setDoc_only e w w' :
  step app_id e w = Some w' ->
  match e with
  | SelectFile (Some _) random =>
      dom (db w')
        = {[ getFileTransferDocRef app_id (newShareCode random) ]}
          ∪ dom (db w)
  | StoreChanged database => db w' = database
  | _ => dom (db w') ⊆ dom (db w)
  end.
Proof.
  intros Hstep. destruct e; simpl in Hstep.
  - destruct (renderContent (react w)); try done. injection Hstep as <-.
    destruct selectedFile as [f|]; [|done].
    unfold handleFileChange, Firestore.setDoc; simpl.
    by rewrite dom_insert_L.
  - destruct (renderContent (react w)); try done. by injection Hstep as <-.
  - case_match; [|done]. by injection Hstep as <-.
  - case_match; [|done]. by injection Hstep as <-.
  - destruct (renderContent (react w)); try done; injection Hstep as <-;
      unfold handleCancel; rewrite resetState_db;
      (case_match; [|done]); simpl; unfold Firestore.deleteDoc;
      rewrite dom_delete_L; by apply subseteq_difference_l.
  - repeat case_match; try done. by injection Hstep as <-.
  - destruct (dataChannel (refs w)) as [dc|]; [|done]. simpl in Hstep.
    destruct (onopen dc) as [cb|]; [|done]. simpl in Hstep.
    by eapply runCallback_dom.
  - repeat case_match; try done. injection Hstep as <-.
    destruct (handleReceiveMessage_same_but_buffer data w) as (_ & -> & _).
    done.
  - case_match; [|done]. injection Hstep as <-. by rewrite icecandidate_dom.
  - destruct (listeners w !! i) as [l|]; [|done]. injection Hstep as <-.
    by rewrite snapshot_dom.
  - destruct (timers w !! i) as [cb|]; [|done]. simpl in Hstep.
    by apply runCallback_dom in Hstep.
  - by injection Hstep as <-.
Qed.

End Store.

Section Exchange.

Context {RT : Runtime} {TR : Transport} (app_id : string).
Implicit Types (w : World).

(** X8: the exchange of descriptions as a whole.  The initiator selects a
    file, the responder submits the share code and is called with the
    record, the initiator is called with the record the responder has
    written: the responder has applied the offer, set its answer and
    written it to the record, and the initiator has applied that
    answer. *)
Theorem offer_answer_exchange render f random (initiator responder : World) :
  let pc0 := createDataChannel "file-transfer" new_RTCPeerConnection in
  currentRemoteDescription new_RTCPeerConnection = None ->
  currentRemoteDescription (setLocalDescription (createOffer pc0) pc0)
    = None ->
  let code := newShareCode random in
  let callDocRef := getFileTransferDocRef app_id code in
  let offerDescription := createOffer pc0 in
  let answerDescription :=
    createAnswer (setRemoteDescription offerDescription
                    new_RTCPeerConnection) in
  let i1 := handleFileChange app_id render (Some f) random initiator in
  let r1 := handleReceiveSubmit app_id code (with_db (db i1) responder) in
  let r2 := snapshot (ResponderListener callDocRef) (db r1 !! callDocRef) r1 in
  let i2 := snapshot (InitiatorListener callDocRef) (db r2 !! callDocRef)
              (with_db (db r2) i1) in
  listeners i1 = listeners initiator ++ [InitiatorListener callDocRef] /\
  listeners r1 = listeners responder ++ [ResponderListener callDocRef] /\
  calls r2 = calls responder
             ++ [CallSetRemoteDescription offerDescription;
                 CallSetLocalDescription answerDescription;
                 CallUpdateDoc callDocRef] /\
  db r2 !! callDocRef =
    Some {| offer := Some offerDescription; offerCandidates := Some [];
            answer := Some answerDescription;
            answerCandidates := Some [] |} /\
  peerConnection (refs r2) =
    Some (setLocalDescription answerDescription
            (setRemoteDescription offerDescription new_RTCPeerConnection)) /\
  status (react r2) = AnswerSent /\
  calls i2 = calls i1 ++ [CallSetRemoteDescription answerDescription] /\
  peerConnection (refs i2) =
    Some (setRemoteDescription answerDescription
            (setLocalDescription offerDescription pc0)) /\
  status (react i2) = ReceiverConnected.
Proof.
  intros pc0 Hnew Hoffered code callDocRef offerDescription answerDescription
    i1 r1 r2 i2.
  assert (Hrecord : db i1 !! callDocRef =
            Some {| offer := Some offerDescription;
                    offerCandidates := Some [];
                    answer := None; answerCandidates := None |}).
  { subst i1. unfold handleFileChange, Firestore.setDoc. simpl.
    fold code callDocRef pc0 offerDescription.
    rewrite lookup_insert_eq. by destruct offerDescription. }
  assert (Hr2 : r2 =
    setStatus AnswerSent
      (record_call (CallUpdateDoc callDocRef)
         (with_db
            (<[callDocRef :=
                 {| offer := Some offerDescription;
                    offerCandidates := Some [];
                    answer := Some answerDescription;
                    answerCandidates := Some [] |}]> (db i1))
            (set_peerConnection
               (Some (setLocalDescription answerDescription
                        (setRemoteDescription offerDescription
                           new_RTCPeerConnection)))
               (record_call (CallSetLocalDescription answerDescription)
                  (record_call (CallSetRemoteDescription offerDescription)
                     (setStatus OfferReceived r1))))))).
  { unfold r2, snapshot, responderSnapshot.
    replace (db r1 !! callDocRef) with (db i1 !! callDocRef) by done.
    rewrite Hrecord. simpl mbind.
    unfold noRemoteDescription. simpl peerConnection. cbv beta iota.
    rewrite bool_decide_eq_true_2 by done. cbv beta iota zeta.
    unfold Firestore.updateDoc.
    replace (db (set_peerConnection _ _)) with (db i1) by done.
    rewrite Hrecord. fold answerDescription. unfold addIceCandidates.
    simpl. by destruct answerDescription. }
  assert (Hdb2 : db r2 !! callDocRef =
    Some {| offer := Some offerDescription; offerCandidates := Some [];
            answer := Some answerDescription;
            answerCandidates := Some [] |}).
  { rewrite Hr2. simpl. by rewrite lookup_insert_eq. }
  split; [done|]. split; [done|]. split.
  { rewrite Hr2. simpl. by rewrite <- !app_assoc. }
  split; [done|]. split; [by rewrite Hr2|]. split; [by rewrite Hr2|].
  unfold i2, snapshot, initiatorSnapshot. rewrite Hdb2. simpl mbind.
  unfold noRemoteDescription, on_peerConnection. simpl peerConnection.
  fold pc0 offerDescription. cbv beta iota.
  rewrite bool_decide_eq_true_2 by done. simpl. done.
Qed.

Lemma addIceCandidates_calls candidates : forall w,
  peerConnection (refs w) <> None ->
  calls (addIceCandidates candidates w)
    = calls w ++ (CallAddIceCandidate <$> candidates).
Proof.
  unfold addIceCandidates.
  induction candidates as [|c candidates IH]; intros w Hpc; simpl.
  - by rewrite app_nil_r.
  - destruct (peerConnection (refs w)) as [pc|] eqn:Hw; [|done].
    unfold on_peerConnection at 2. rewrite Hw.
    rewrite IH by done. simpl. by rewrite <- app_assoc.
Qed.


Lemma occurrences_elem_of c (l : list IceCandidate) :
  c ∈ l -> (0 < occurrences c l)%nat.
Proof.
  intros Hin. unfold occurrences.
  assert (Hc : c ∈ filter (fun c' => c' = c) l) by by apply list_elem_of_filter.
  destruct (filter _ l); [by apply elem_of_nil in Hc|simpl; lia].
Qed.

(** X9: a candidate a session publishes reaches its peer.  After the
    handler has written the candidate, the record carries it in the list
    the peer's listener reads, and a snapshot of that record hands it to
    [addIceCandidate] on the peer's connection. *)
Theorem published_candidate_reaches_peer c callDocRef h l
    (publisher peer : World) :
  (h = ToOfferCandidates callDocRef /\ l = ResponderListener callDocRef) \/
  (h = ToAnswerCandidates callDocRef /\ l = InitiatorListener callDocRef) ->
  onicecandidate (refs publisher) = Some h ->
  is_Some (db publisher !! callDocRef) ->
  peerConnection (refs peer) <> None ->
  let store := db (icecandidate (Some c) publisher) in
  let peer' := snapshot l (store !! callDocRef) (with_db store peer) in
  c ∈ peer_candidates l (store !! callDocRef) /\
  (applications c peer < applications c peer')%nat.
Proof.
  intros Hrole Hice [d Hd] Hpc store peer'.
  assert (Hstore : is_Some (store !! callDocRef) /\
                   c ∈ peer_candidates l (store !! callDocRef)).
  { subst store. unfold icecandidate, Firestore.updateDoc. rewrite Hice.
    destruct Hrole as [[-> ->]|[-> ->]]; rewrite Hd; simpl;
      rewrite lookup_insert_eq; (split; [done|]); unfold peer_candidates; simpl.
    - destruct (arrayUnion_spec c (offerCandidates d)) as (l' & -> & Hin & _).
      done.
    - destruct (arrayUnion_spec c (answerCandidates d)) as (l' & -> & Hin & _).
      done. }
  destruct Hstore as [Hsome Hin]. split; [done|].
  destruct (snapshot_applications l (store !! callDocRef) c (with_db store peer))
    as (Happ & _).
  - done.
  - destruct Hrole as [[_ ->]|[_ ->]]; simpl; done.
  - subst peer'. rewrite Happ.
    pose proof (occurrences_elem_of c _ Hin).
    change (applications c (with_db store peer)) with (applications c peer).
    lia.
Qed.

End Exchange.

Section Completion.

Context {RT : Runtime} {TR : Transport}.
Implicit Types (w receiver : World) (chunk : bytes).

(** X10: a chunk that arrives while the metadata announce a size: it is
    appended and counted, and the file is downloaded, under the announced
    name and with the chunks in order of arrival, exactly when the counter
    equals the announced size; otherwise the status shows the percentage
    and nothing else happens. *)
Theorem download_exactly_at_announced_size chunk w fields total filename :
  fileMetadata (refs w) = JS.Obj fields ->
  JS.get (JS.Obj fields) "size" = JS.Normal (JS.Num (JS.of_Z total)) ->
  JS.get (JS.Obj fields) "name" = JS.Normal (JS.Str filename) ->
  0 <= total < 2 ^ 53 ->
  0 <= receivedFileSize (refs w) + Z.of_nat (length chunk) < 2 ^ 53 ->
  let received := receivedFileSize (refs w) + Z.of_nat (length chunk) in
  let '(w', e) := handleReceiveMessage (Binary chunk) w in
  e = None /\
  receivedChunks (refs w') = receivedChunks (refs w) ++ [chunk] /\
  receivedFileSize (refs w') = received /\
  fileMetadata (refs w') = fileMetadata (refs w) /\
  if decide (received = total)
  then downloads w' =
         downloads w
         ++ [{| download := filename;
                fileBlob := Blob (receivedChunks (refs w) ++ [chunk]) |}] /\
       timers w' = timers w ++ [ReceiverTeardown] /\
       status (react w') = FileDownloaded
  else downloads w' = downloads w /\ timers w' = timers w /\
       status (react w')
         = Downloading (progress (JS.of_Z received) (JS.of_Z total)).
Proof.
  intros Hmeta Hsize Hname Ht Hc received.
  unfold handleReceiveMessage. simpl.
  rewrite Hmeta, Hsize, Hname. simpl.
  rewrite strict_equals_of_Z by done. fold received.
  destruct (decide (received = total)) as [Heq|Hne].
  - by rewrite bool_decide_eq_true_2.
  - by rewrite bool_decide_eq_false_2.
Qed.

Lemma chunk_without_numeric_size chunk w :
  (forall x, JS.get (fileMetadata (refs w)) "size" <> JS.Normal (JS.Num x)) ->
  let w' := (handleReceiveMessage (Binary chunk) w).1 in
  fileMetadata (refs w') = fileMetadata (refs w) /\
  downloads w' = downloads w /\ timers w' = timers w.
Proof.
  intros Hsize. unfold handleReceiveMessage. simpl.
  destruct (JS.get (fileMetadata (refs w)) "size") as [v|] eqn:Hget; [|done].
  destruct (ToNumber v); [|done]. simpl.
  destruct v; simpl; try done. by destruct (Hsize x).
Qed.

(** X11: when the metadata have no size that is a Number, chunks are
    buffered without end: no sequence of chunks completes the transfer. *)
Theorem size_not_a_number_never_completes chunks : forall w,
  (forall x, JS.get (fileMetadata (refs w)) "size" <> JS.Normal (JS.Num x)) ->
  let w' := receive (Binary <$> chunks) w in
  downloads w' = downloads w /\ timers w' = timers w /\
  receivedChunks (refs w') = receivedChunks (refs w) ++ chunks.
Proof.
  induction chunks as [|chunk chunks IH]; intros w Hsize w'.
  - subst w'. simpl. by rewrite app_nil_r.
  - destruct (chunk_without_numeric_size chunk w Hsize) as (Hm & Hd & Ht).
    subst w'. rewrite fmap_cons, receive_cons.
    destruct (IH (handleReceiveMessage (Binary chunk) w).1) as (-> & -> & _).
    { by rewrite Hm. }
    split; [done|]. split; [done|].
    rewrite <- receive_cons, <- fmap_cons. apply receive_chunks.
Qed.

Lemma receive_more_timers chunk w fields total :
  fileMetadata (refs w) = JS.Obj fields ->
  JS.get (JS.Obj fields) "size" = JS.Normal (JS.Num (JS.of_Z total)) ->
  0 <= receivedFileSize (refs w) + Z.of_nat (length chunk) < 2 ^ 53 ->
  0 <= total < 2 ^ 53 ->
  receivedFileSize (refs w) + Z.of_nat (length chunk) <> total ->
  timers (handleReceiveMessage (Binary chunk) w).1 = timers w.
Proof.
  intros Hmeta Hsize Hc Ht Hne. unfold handleReceiveMessage. simpl.
  rewrite Hmeta, Hsize. simpl.
  rewrite strict_equals_of_Z, bool_decide_eq_false_2 by done. done.
Qed.

Lemma receive_last_ends chunk w fields total filename :
  fileMetadata (refs w) = JS.Obj fields ->
  JS.get (JS.Obj fields) "size" = JS.Normal (JS.Num (JS.of_Z total)) ->
  JS.get (JS.Obj fields) "name" = JS.Normal (JS.Str filename) ->
  0 <= total < 2 ^ 53 ->
  receivedFileSize (refs w) + Z.of_nat (length chunk) = total ->
  let w' := (handleReceiveMessage (Binary chunk) w).1 in
  timers w' = timers w ++ [ReceiverTeardown] /\
  status (react w') = FileDownloaded.
Proof.
  intros Hmeta Hsize Hname Ht Hc. unfold handleReceiveMessage. simpl.
  rewrite Hmeta, Hsize, Hname. simpl.
  rewrite strict_equals_of_Z, bool_decide_eq_true_2 by lia. done.
Qed.

(** Receiving the slices the sender sends: the teardown is scheduled at
    the last one, once. *)
Lemma receive_slices_ends c b fields filename : forall n o w,
  (0 < c)%nat -> (o <= length b)%nat -> Z.of_nat (length b) < 2 ^ 53 ->
  n = Nat.max 1 (ceil_div (length b - o) c) ->
  fileMetadata (refs w) = JS.Obj fields ->
  JS.get (JS.Obj fields) "size"
    = JS.Normal (JS.Num (JS.of_Z (Z.of_nat (length b)))) ->
  JS.get (JS.Obj fields) "name" = JS.Normal (JS.Str filename) ->
  receivedFileSize (refs w) = Z.of_nat o ->
  let w' := receive (Binary <$> slices n c o b) w in
  timers w' = timers w ++ [ReceiverTeardown] /\
  status (react w') = FileDownloaded.
Proof.
  induction n as [|n IH];
    intros o w Hc Ho Hb Hn Hmeta Hsize Hname Hcount; [lia|].
  pose proof (Blob_slice_length o c b) as Hlen.
  simpl slices. rewrite fmap_cons, receive_cons.
  destruct (decide (length b - o <= c)%nat) as [Hlast|Hmore].
  - rewrite reads_last in Hn by done. injection Hn as ->.
    simpl slices. rewrite fmap_nil, receive_nil.
    apply (receive_last_ends _ w fields (Z.of_nat (length b)) filename);
      try done; lia.
  - rewrite reads_step in Hn by lia. injection Hn as Hn.
    destruct (receive_more (Blob_slice o (o + c) b) w fields
                (Z.of_nat (length b))) as (Hch & Hsz & Hm & Hd);
      try done; try lia.
    rewrite <- (receive_more_timers (Blob_slice o (o + c) b) w fields
                  (Z.of_nat (length b))); try done; try lia.
    apply (IH (o + c)%nat); try done.
    + lia.
    + rewrite Hn. do 2 f_equal. lia.
    + by rewrite Hm.
    + rewrite Hsz, Hcount, Hlen. lia.
Qed.

Lemma readSlice_status fuel chunkSize render f : forall o w w',
  readSlice fuel chunkSize render f o w = Some w' ->
  status (react w') = FileSent.
Proof.
  induction fuel as [|fuel IH]; intros o w w' Hrun; [done|].
  simpl in Hrun. case_match.
  - by eapply IH.
  - by injection Hrun as <-.
Qed.

(** X12: the transfer as a whole.  What the sender's loop hands to the
    channel, received in that order by a receiver, ends in one download
    with the name and the content of the file that was sent, and in the
    teardown timers of both sides. *)
Theorem transfer_ends_in_download render f w dc receiver :
  dataChannel (refs w) = Some dc -> sent dc = [] ->
  Z.of_nat (size f) < 2 ^ 53 ->
  (let metadata :=
     JS.Obj [("name", JS.Str (name f));
             ("size", JS.Num (JS.of_Z (Z.of_nat (size f))))] in
   JSON_parse (JSON_stringify metadata) = Some metadata) ->
  exists w' dc',
    sendFileInChunks render f w = Some w' /\
    dataChannel (refs w') = Some dc' /\
    status (react w') = FileSent /\
    timers w' = timers w ++ [SenderTeardown render] /\
    let receiver' := receive (sent dc') receiver in
    downloads receiver' =
      downloads receiver
      ++ [{| download := name f; fileBlob := content f |}] /\
    timers receiver' = timers receiver ++ [ReceiverTeardown] /\
    status (react receiver') = FileDownloaded.
Proof.
  intros Hdc Hsent Hsize Hjson.
  assert (Hc : (0 < CHUNK_SIZE)%nat) by (unfold CHUNK_SIZE; lia).
  destruct (chunks_sent CHUNK_SIZE render f w dc Hc Hdc)
    as (w' & dc' & Hrun & Hdc' & Hs).
  exists w', dc'. split; [done|]. split; [done|].
  assert (Hsender : status (react w') = FileSent /\
                    timers w' = timers w ++ [SenderTeardown render]).
  { split; [by eapply readSlice_status|].
    by apply (sendFileInChunks_frame render f w w'). }
  destruct Hsender as [Hstatus Htimers]. split; [done|]. split; [done|].
  rewrite Hs, Hsent, app_nil_l. cbv zeta. rewrite receive_cons.
  set (fields := [("name", JS.Str (name f));
                  ("size", JS.Num (JS.of_Z (Z.of_nat (size f))))]) in *.
  assert (Hfirst :
    (handleReceiveMessage (Text (JSON_stringify (JS.Obj fields))) receiver).1
    = setStatus (ReceivingFile (name f))
        (set_receivedFileSize 0
           (set_receivedChunks []
              (set_fileMetadata (JS.Obj fields) receiver)))).
  { unfold handleReceiveMessage. by rewrite Hjson. }
  rewrite Hfirst.
  rewrite (receive_slices CHUNK_SIZE (content f) fields (name f));
    try done; [|lia|by rewrite Nat.sub_0_r].
  match goal with |- context [receive ?ms ?r0] =>
    destruct (receive_slices_ends CHUNK_SIZE (content f) fields (name f)
                (Nat.max 1 (ceil_div (size f) CHUNK_SIZE)) 0%nat r0)
      as [Ht Hst]; try done; [lia|by rewrite Nat.sub_0_r|]
  end.
  split; [|by split].
  simpl downloads. simpl receivedChunks. rewrite app_nil_l.
  do 3 f_equal. apply slices_concat.
  pose proof (ceil_div_covers (size f) CHUNK_SIZE Hc).
  unfold size in *. nia.
Qed.

End Completion.

Section Sender.

Context {RT : Runtime} {TR : Transport}.
Implicit Types (w : World) (f : File).

Local Open Scope nat_scope.

Lemma ceil_div_more i s c : 0 < c -> S i < ceil_div s c -> S i * c < s.
Proof.
  unfold ceil_div. intros Hc Hi.
  pose proof (Nat.div_mod_eq (s + c - 1) c) as Hdm.
  pose proof (Nat.mod_upper_bound (s + c - 1) c ltac:(lia)). nia.
Qed.

Lemma ceil_div_positive s c : 0 < c -> 0 < s -> 0 < ceil_div s c.
Proof.
  intros Hc Hs. unfold ceil_div. apply Nat.div_str_pos. lia.
Qed.

Lemma ceil_div_last s c :
  0 < c -> 0 < s -> (ceil_div s c - 1) * c < s.
Proof.
  unfold ceil_div. intros Hc Hs.
  pose proof (Nat.div_mod_eq (s + c - 1) c) as Hdm.
  pose proof (Nat.mod_upper_bound (s + c - 1) c ltac:(lia)). nia.
Qed.

Lemma chunks_full_with chunkSize render f w dc :
  0 < chunkSize -> dataChannel (refs w) = Some dc ->
  let metadata :=
    JS.Obj [("name", JS.Str (name f));
            ("size", JS.Num (JS.of_Z (Z.of_nat (size f))))] in
  exists w' dc' chunks,
    sendFileInChunks_with (S (size f)) chunkSize render f w = Some w' /\
    dataChannel (refs w') = Some dc' /\
    sent dc' = sent dc ++ Text (JSON_stringify metadata) :: (Binary <$> chunks) /\
    (forall i chunk,
       chunks !! i = Some chunk -> S i < length chunks ->
       length chunk = chunkSize) /\
    (forall chunk,
       last chunks = Some chunk ->
       length chunk = size f - (length chunks - 1) * chunkSize /\
       length chunk <= chunkSize /\
       (0 < size f -> 0 < length chunk)) /\
    sum_list (length <$> chunks) = size f.
Proof.
  intros Hc Hdc metadata.
  destruct (chunks_sent chunkSize render f w dc Hc Hdc)
    as (w' & dc' & Hrun & Hdc' & Hs).
  set (c := chunkSize) in *.
  set (n := Nat.max 1 (ceil_div (size f) c)) in *.
  exists w', dc', (slices n c 0 (content f)).
  rewrite slices_length.
  pose proof (ceil_div_covers (size f) c Hc) as Hcover.
  split; [done|]. split; [done|]. split; [done|]. split; [|split].
  - intros i chunk Hi Hlt. rewrite slices_lookup in Hi by lia.
    injection Hi as <-. rewrite Blob_slice_length. fold (size f).
    assert (S i * c < size f).
    { apply ceil_div_more; [done|]. subst n. lia. }
    simpl. lia.
  - intros chunk Hlast. rewrite last_lookup, slices_length in Hlast.
    rewrite slices_lookup in Hlast by (subst n; lia).
    injection Hlast as <-. rewrite Blob_slice_length. fold (size f).
    replace (Nat.pred n) with (n - 1) by lia. simpl.
    destruct (decide (size f = 0)) as [Hz|Hnz].
    + rewrite Hz. lia.
    + pose proof (ceil_div_last (size f) c Hc ltac:(lia)).
      pose proof (ceil_div_positive (size f) c Hc ltac:(lia)).
      replace n with (ceil_div (size f) c) in * by (subst n; lia).
      nia.
  - assert (Hblob : Blob (slices n c 0 (content f)) = content f).
    { rewrite slices_concat; [done|]. unfold size in *. subst n. nia. }
    unfold size. rewrite <- Hblob at 2. unfold Blob.
    generalize (slices n c 0 (content f)). intros l.
    induction l as [|x l IH]; simpl; [done|]. by rewrite length_app, <- IH.
Qed.

(** X18: every chunk but the last has [CHUNK_SIZE] bytes, the last has
    the rest (at least one byte unless the file is empty), and the
    lengths add up to the size of the file. *)
Theorem chunks_are_full_but_the_last render f w dc :
  dataChannel (refs w) = Some dc ->
  let metadata :=
    JS.Obj [("name", JS.Str (name f));
            ("size", JS.Num (JS.of_Z (Z.of_nat (size f))))] in
  exists w' dc' chunks,
    sendFileInChunks render f w = Some w' /\
    dataChannel (refs w') = Some dc' /\
    sent dc' = sent dc ++ Text (JSON_stringify metadata) :: (Binary <$> chunks) /\
    (forall i chunk,
       chunks !! i = Some chunk -> S i < length chunks ->
       length chunk = CHUNK_SIZE) /\
    (forall chunk,
       last chunks = Some chunk ->
       length chunk = size f - (length chunks - 1) * CHUNK_SIZE /\
       length chunk <= CHUNK_SIZE /\
       (0 < size f -> 0 < length chunk)) /\
    sum_list (length <$> chunks) = size f.
Proof.
  intros Hdc. apply (chunks_full_with CHUNK_SIZE render f w dc); [|done].
  unfold CHUNK_SIZE. lia.
Qed.

Lemma readSlice_without_channel chunkSize render f : forall fuel o w,
  0 < chunkSize -> o <= size f -> size f - o < fuel ->
  dataChannel (refs w) = None ->
  readSlice fuel chunkSize render f o w
    = Some (setTimeout (SenderTeardown render) (setStatus FileSent w)).
Proof.
  induction fuel as [|fuel IH]; intros o w Hc Ho Hfuel Hdc; [lia|].
  simpl. pose proof (Blob_slice_length o chunkSize (content f)) as Hlen.
  fold (size f) in Hlen. unfold send. rewrite Hdc.
  destruct (Nat.ltb_spec (o + length (Blob_slice o (o + chunkSize) (content f)))
              (size f)) as [Hmore|Hdone]; [|done].
  apply IH; try done; lia.
Qed.

(** X13: when the ref of the data channel is null the sender's loop sends
    nothing and still reports the file as sent and sets the teardown
    timer. *)
Theorem sending_without_channel_reports_success render f w :
  dataChannel (refs w) = None ->
  sendFileInChunks render f w
    = Some (setTimeout (SenderTeardown render) (setStatus FileSent w)).
Proof.
  intros Hdc. unfold sendFileInChunks, sendFileInChunks_with, send.
  rewrite Hdc. apply readSlice_without_channel; try done; try lia.
  unfold CHUNK_SIZE. lia.
Qed.

End Sender.

Section Percent.

Lemma div_self m e :
  JS.div (S754_finite false m e) (S754_finite false m e) = JS.of_Z 1.
Proof.
  unfold JS.div, SFdiv, SFdiv_core_binary. simpl xorb. cbv zeta.
  replace (Zdigits2 (Zpos m) + e - (Zdigits2 (Zpos m) + e)) with 0 by lia.
  replace (e - e) with 0 by lia.
  change (Z.min (fexp JS.prec JS.emax 0) 0) with (-53).
  change (0 - -53) with 53.
  rewrite Z.shiftl_mul_pow2 by lia.
  assert (Hdiv : Z.div_eucl (Zpos m * 2 ^ 53) (Zpos m) = (2 ^ 53, 0)).
  { pose proof (Z.div_eucl_eq (Zpos m * 2 ^ 53) (Zpos m) ltac:(lia)) as Heq.
    pose proof (Z.mod_pos_bound (Zpos m * 2 ^ 53) (Zpos m) ltac:(lia)) as Hb.
    unfold Z.modulo in Hb.
    destruct (Z.div_eucl (Zpos m * 2 ^ 53) (Zpos m)) as [q r].
    assert (q = 2 ^ 53) by nia. subst q. f_equal. lia. }
  rewrite Hdiv. rewrite new_location_exact. reflexivity.
Qed.

(** X14: the percentage of nothing is 0 and the percentage of all is 100,
    for every total below 2^53. *)
Theorem progress_endpoints t :
  0 < t < 2 ^ 53 ->
  progress (JS.of_Z 0) (JS.of_Z t) = JS.of_Z 0 /\
  progress (JS.of_Z t) (JS.of_Z t) = JS.of_Z 100 /\
  JS.int_value (progress (JS.of_Z t) (JS.of_Z t)) = Some 100.
Proof.
  intros Ht. destruct (of_Z_canonical t Ht) as (m & -> & _).
  unfold progress. rewrite div_self. repeat split; reflexivity.
Qed.

End Percent.

Section Code.

Context {RT : Runtime} {TR : Transport}.

Lemma substring_length s : forall n m,
  String.length (String.substring n m s)
    = Nat.min m (String.length s - n).
Proof.
  induction s as [|a s IH]; intros [|n] [|m]; simpl;
    rewrite ?IH, ?Nat.sub_0_r; done.
Qed.

(** X15: the share code has the digits of [Math.random()] after the
    point, at most six of them. *)
Theorem share_code_length random :
  String.length (newShareCode random)
    = Nat.min 6 (String.length (Number_toString random) - 2) /\
  (String.length (newShareCode random) <= 6)%nat.
Proof.
  unfold newShareCode, JS.substring. rewrite substring_length.
  split; [done|]. apply Nat.le_min_l.
Qed.

(** X16: [resetState] twice is [resetState] once. *)
Theorem resetState_idempotent (w : World) :
  resetState (resetState w) = resetState w.
Proof.
  unfold resetState.
  destruct (peerConnection (refs w)), (dataChannel (refs w)) eqn:Hdc;
    simpl; rewrite ?Hdc; done.
Qed.

End Code.

Section Confinement.

Context {RT : Runtime} {TR : Transport} (app_id : string).
Implicit Types (w : World).

Lemma in_collection_code code :
  in_collection app_id (getFileTransferDocRef app_id code).
Proof. by exists code. Qed.

Lemma on_peerConnection_calls g c w :
  calls (on_peerConnection g c w) = calls w \/
  calls (on_peerConnection g c w) = calls w ++ [c].
Proof. unfold on_peerConnection. case_match; auto. Qed.

Lemma addIceCandidates_confined candidates : forall w,
  Forall (store_call_in_collection app_id) (calls w) ->
  Forall (store_call_in_collection app_id)
    (calls (addIceCandidates candidates w)).
Proof.
  unfold addIceCandidates.
  induction candidates as [|c candidates IH]; intros w Hw; simpl; [done|].
  apply IH.
  destruct (on_peerConnection_calls (addIceCandidate c)
              (CallAddIceCandidate c) w) as [-> | ->]; [done|].
  apply Forall_app. split; [done|]. by repeat constructor.
Qed.

Lemma snapshot_confined l data w :
  in_collection app_id (listener_ref l) ->
  Forall (store_call_in_collection app_id) (calls w) ->
  Forall (store_call_in_collection app_id) (calls (snapshot l data w)).
Proof.
  intros Hl Hw. destruct l as [ref|ref]; simpl in *.
  - unfold initiatorSnapshot.
    set (w1 := match data ≫= answer with Some _ => _ | None => w end).
    assert (H1 : Forall (store_call_in_collection app_id) (calls w1)).
    { subst w1. destruct (data ≫= answer); [|done].
      destruct (noRemoteDescription w); [|done]. simpl.
      match goal with |- context [on_peerConnection ?g ?c w] =>
        destruct (on_peerConnection_calls g c w) as [-> | ->]; [done|]
      end.
      apply Forall_app. split; [done|]. by repeat constructor. }
    destruct (data ≫= answerCandidates); [|done].
    by apply addIceCandidates_confined.
  - unfold responderSnapshot.
    assert (Hc : forall w0,
      Forall (store_call_in_collection app_id) (calls w0) ->
      Forall (store_call_in_collection app_id)
        (calls (match data ≫= offerCandidates with
                | Some candidates => addIceCandidates candidates w0
                | None => w0
                end))).
    { intros w0 H0. destruct (data ≫= offerCandidates); [|done].
      by apply addIceCandidates_confined. }
    destruct (data ≫= offer); [|by apply Hc].
    destruct (noRemoteDescription w); [|by apply Hc].
    simpl. destruct (peerConnection (refs w)) as [pc|]; [|done].
    destruct (Firestore.updateDoc _ _ _).
    + apply Hc. simpl. rewrite !Forall_app. repeat split; try done;
        by repeat constructor.
    + simpl. rewrite !Forall_app. repeat split; try done;
        by repeat constructor.
Qed.

Lemma icecandidate_confined c w :
  store_confined app_id w ->
  Forall (store_call_in_collection app_id) (calls (icecandidate c w)).
Proof.
  intros [Hh _ Hc]. unfold icecandidate.
  destruct c as [c|]; [|done].
  destruct (onicecandidate (refs w)) as [[ref|ref]|] eqn:Hice; [| |done].
  - destruct (Firestore.updateDoc _ _ _); [|done]. simpl.
    apply Forall_app. split; [done|]. repeat constructor.
    apply (Hh _ eq_refl).
  - destruct (Firestore.updateDoc _ _ _); [|done]. simpl.
    apply Forall_app. split; [done|]. repeat constructor.
    apply (Hh _ eq_refl).
Qed.

Lemma resetState_onicecandidate w :
  onicecandidate (refs (resetState w)) = onicecandidate (refs w).
Proof. unfold resetState. by repeat case_match. Qed.

Lemma resetState_confined w :
  store_confined app_id w -> store_confined app_id (resetState w).
Proof.
  intros [Hh Hl Hc].
  destruct (resetState_spec w) as (_ & _ & Hls & _).
  split.
  - by rewrite resetState_onicecandidate.
  - by rewrite Hls.
  - rewrite resetState_calls, !Forall_app. repeat split; try done;
      case_match; by repeat constructor.
Qed.

Lemma deleteDoc_confined code w :
  store_confined app_id w ->
  store_confined app_id (deleteDoc (getFileTransferDocRef app_id code) w).
Proof.
  intros [Hh Hl Hc]. split; simpl; try done.
  apply Forall_app. split; [done|]. repeat constructor.
  apply in_collection_code.
Qed.

Lemma runCallback_confined cb w w' :
  store_confined app_id w -> runCallback app_id cb w = Some w' ->
  store_confined app_id w'.
Proof.
  intros Hinv Hrun. destruct cb as [render f| |render|]; simpl in Hrun.
  - apply sendFileInChunks_same_but_channel in Hrun
      as (Hl&_&_&Hc&_&_&_&_&_&Hice&_).
    destruct Hinv as [Hh Hls Hcs]. split.
    + by rewrite Hice.
    + by rewrite Hl.
    + by rewrite Hc.
  - injection Hrun as <-. by destruct Hinv.
  - injection Hrun as <-. unfold senderTeardown.
    apply resetState_confined. case_match; [|done].
    by apply deleteDoc_confined.
  - injection Hrun as <-. by apply resetState_confined.
Qed.

Lemma step_confined e w w' :
  store_confined app_id w -> step app_id e w = Some w' ->
  store_confined app_id w'.
Proof.
  intros Hinv Hstep. destruct e; simpl in Hstep.
  - destruct (renderContent (react w)); try done. injection Hstep as <-.
    destruct selectedFile as [f|]; [|exact Hinv].
    destruct Hinv as [Hh Hl Hc].
    split; unfold handleFileChange; simpl.
    + intros h [= <-]. apply in_collection_code.
    + apply Forall_app. split; [done|]. repeat constructor.
      apply in_collection_code.
    + rewrite !Forall_app. repeat split; try done; repeat constructor.
      apply in_collection_code.
  - destruct (renderContent (react w)); try done. injection Hstep as <-.
    by destruct Hinv.
  - case_match; [|done]. injection Hstep as <-.
    destruct Hinv as [Hh Hl Hc].
    split; unfold handleReceiveSubmit; simpl; [| |done].
    + intros h [= <-]. apply in_collection_code.
    + apply Forall_app. split; [done|]. repeat constructor.
      apply in_collection_code.
  - case_match; [|done]. injection Hstep as <-. by destruct Hinv.
  - destruct (renderContent (react w)); try done; injection Hstep as <-;
      unfold handleCancel; apply resetState_confined;
      (case_match; [|done]); by apply deleteDoc_confined.
  - repeat case_match; try done. injection Hstep as <-. by destruct Hinv.
  - destruct (dataChannel (refs w)) as [dc|]; [|done]. simpl in Hstep.
    destruct (onopen dc) as [cb|]; [|done]. simpl in Hstep.
    by eapply runCallback_confined.
  - repeat case_match; try done. injection Hstep as <-.
    destruct (handleReceiveMessage_same_but_buffer data w)
      as (Hl&_&Hc&_&_&_&_&_&Hice&_).
    destruct Hinv as [Hh Hls Hcs]. split.
    + by rewrite Hice.
    + by rewrite Hl.
    + by rewrite Hc.
  - case_match; [|done]. injection Hstep as <-.
    pose proof (icecandidate_confined c w Hinv) as Hcalls.
    destruct (icecandidate_same_session c w) as (Hl&_&_&_&_&_&_&Hice&_).
    destruct Hinv as [Hh Hls Hcs]. split; [|by rewrite Hl|done].
    by rewrite Hice.
  - destruct (listeners w !! i) as [l|] eqn:Hi; [|done].
    injection Hstep as <-.
    destruct (snapshot_same_session l data w) as (Hl&_&_&_&_&_&_&Hice&_).
    destruct Hinv as [Hh Hls Hcs]. split.
    + by rewrite Hice.
    + by rewrite Hl.
    + apply snapshot_confined; [|done].
      rewrite Forall_forall in Hls. apply Hls.
      by eapply list_elem_of_lookup_2.
  - destruct (timers w !! i) as [cb|]; [|done]. simpl in Hstep.
    eapply runCallback_confined; [|exact Hstep]. by destruct Hinv.
  - injection Hstep as <-. by destruct Hinv.
Qed.


End Confinement.

(* ===================================================================== *)
(** * The properties on the scenarios *)
(* ===================================================================== *)

Lemma run_reachable {RT : Runtime} {TR : Transport} app_id events :
  forall w w', reachable app_id w -> run app_id events w = Some w' ->
               reachable app_id w'.
Proof.
  induction events as [|e events IH]; intros w w' Hw Hrun; simpl in Hrun.
  - by injection Hrun as <-.
  - destruct (step app_id e w) as [w1|] eqn:Hstep; [|done].
    eapply IH; [|exact Hrun]. by eapply reachable_step.
Qed.

(** Every scenario is a run that can happen. *)
Lemma scenarios_run :
  is_Some Scenario.responder /\ is_Some Scenario.awaiting /\
  is_Some Scenario.receiving_one /\ is_Some Scenario.initiator /\
  is_Some Scenario.sent_all /\ is_Some Scenario.sent_empty.
Proof. vm_compute. repeat split; eauto. Qed.

(** C1, at the share code 482913: the record exists when the responder
    cancels and is gone afterwards. *)
Lemma responder_cancel_deletes_482913 :
  let w := Scenario.the Scenario.responder in
  mode (react w) = receiving /\
  shareCode (react w) = "482913" /\
  db w !! Scenario.code482913 = Some Scenario.offered /\
  step Scenario.app ClickCancel w
    = Some (handleCancel Scenario.app (react w) w) /\
  db (handleCancel Scenario.app (react w) w) !! Scenario.code482913 = None.
Proof. vm_compute. done. Qed.

Lemma cancel_deletes_record_on_responder :
  let w := Scenario.the Scenario.responder in
  let callDocRef :=
    getFileTransferDocRef Scenario.app (shareCode (react w)) in
  let w' := handleCancel Scenario.app (react w) w in
  shareCode (react w) <> "" /\
  (db w' !! callDocRef = None /\
   db w' = delete callDocRef (db w) /\
   CallDeleteDoc callDocRef ∈ calls w' /\
   (peerConnection (refs w) <> None -> CallClosePeerConnection ∈ calls w') /\
   peerConnection (refs w') = None /\ dataChannel (refs w') = None /\
   receivedChunks (refs w') = [] /\ receivedFileSize (refs w') = 0 /\
   fileMetadata (refs w') = JS.Null /\
   mode (react w') = idle /\ shareCode (react w') = "") /\
  (exists w'', runCallback Scenario.app ReceiverTeardown w = Some w'' /\
               db w'' = db w).
Proof.
  split; [vm_compute; discriminate|].
  apply (cancel_deletes_record Scenario.app
           (react (Scenario.the Scenario.responder))
           (Scenario.the Scenario.responder)).
  vm_compute; discriminate.
Defined.

(** C2, on a two-byte transfer of which one byte has arrived: the same
    metadata message again empties the buffer. *)
Lemma duplicate_metadata_resets_buffer :
  let w := Scenario.the Scenario.receiving_one in
  let w' := (handleReceiveMessage (Text Scenario.metadata_text) w).1 in
  fileMetadata (refs w) <> JS.Null /\
  receivedChunks (refs w) = [[Byte.x41]] /\
  receivedFileSize (refs w) = 1 /\
  ~ (receivedChunks (refs w') = receivedChunks (refs w) /\
     receivedFileSize (refs w') = receivedFileSize (refs w)).
Proof. vm_compute. repeat split; try done. intros [? ?]. done. Qed.

Lemma metadata_while_receiving_on_duplicate :
  let w := Scenario.the Scenario.receiving_one in
  let w' := (handleReceiveMessage (Text Scenario.metadata_text) w).1 in
  fileMetadata (refs w) <> JS.Null /\
  receivedChunks (refs w) <> [] /\
  match JSON_parse Scenario.metadata_text with
  | Some metadata =>
      fileMetadata (refs w') = metadata /\
      receivedChunks (refs w') = [] /\
      receivedFileSize (refs w') = 0 /\
      receivedChunks (refs w') <> receivedChunks (refs w)
  | None =>
      receivedChunks (refs w') = receivedChunks (refs w) /\
      receivedFileSize (refs w') = receivedFileSize (refs w) /\
      fileMetadata (refs w') = fileMetadata (refs w)
  end.
Proof.
  split; [vm_compute; discriminate|].
  split; [vm_compute; discriminate|].
  apply (metadata_while_receiving Scenario.metadata_text
           (Scenario.the Scenario.receiving_one)).
  - vm_compute; discriminate.
  - vm_compute; discriminate.
Defined.

(** C3, on a responder whose channel has just opened. *)
Lemma chunk_before_metadata_on_open_channel :
  let w := Scenario.the Scenario.awaiting in
  fileMetadata (refs w) = JS.Null /\
  let '(w', e) := handleReceiveMessage (Binary [Byte.x41]) w in
  e = Some JS.TypeError /\
  receivedChunks (refs w') = receivedChunks (refs w) ++ [[Byte.x41]] /\
  receivedFileSize (refs w') =
    receivedFileSize (refs w) + Z.of_nat (length [Byte.x41]).
Proof.
  split; [vm_compute; reflexivity|].
  apply (chunk_before_metadata_throws [Byte.x41]
           (Scenario.the Scenario.awaiting)).
  vm_compute; reflexivity.
Defined.

(** C7, on a one-byte file and the share code 531204: after the grace
    delay the sender is idle again and the record is still there. *)
Lemma sender_completion_leaves_531204 :
  exists w',
    run Scenario.app
      [SelectFile (Some Scenario.one_byte) Scenario.random531204;
       ChannelOpen; TimerFires 0] (initialWorld ∅) = Some w' /\
    mode (react w') = idle /\
    db w' !! Scenario.code531204 = Some Scenario.offered.
Proof. eexists. split; [vm_compute; reflexivity|]. vm_compute. done. Qed.

Lemma sender_teardown_keeps_record_on_one_byte :
  let w := Scenario.the Scenario.sent_all in
  exists w', step Scenario.app (TimerFires 0) w = Some w' /\
    db w' = db w /\
    (forall callDocRef, CallDeleteDoc callDocRef ∈ calls w' ->
                        CallDeleteDoc callDocRef ∈ calls w) /\
    mode (react w') = idle /\ shareCode (react w') = "" /\
    peerConnection (refs w') = None.
Proof.
  apply (sender_teardown_keeps_record Scenario.app
           (Scenario.the Scenario.sent_all) 0 initialState).
  - apply (run_reachable Scenario.app
             [SelectFile (Some Scenario.one_byte) Scenario.random531204;
              ChannelOpen] (initialWorld ∅)).
    + apply reachable_initial.
    + vm_compute; reflexivity.
  - vm_compute; reflexivity.
Defined.

(** C9, on the text [{}]: it is not of the expected structure, and it is
    recorded as the metadata all the same, emptying the buffer. *)
Lemma empty_object_is_recorded :
  let w := Scenario.the Scenario.receiving_one in
  let w' := (handleReceiveMessage (Text "{}") w).1 in
  JSON_parse "{}" = Some (JS.Obj []) /\
  ~ expected_structure (JS.Obj []) /\
  fileMetadata (refs w') = JS.Obj [] /\
  receivedChunks (refs w) = [[Byte.x41]] /\
  receivedChunks (refs w') = [].
Proof.
  vm_compute. repeat split; try done.
  intros (name & size & Hname & _). discriminate.
Qed.

(** The transport that works through what it is handed applies
    idempotently. *)
Lemma applied_added c pc :
  @applied QueuedTransport c pc -> c ∈ addedCandidates pc.
Proof.
  induction 1 as [pc|c' pc _ IH|d pc _ IH|d pc _ IH]; simpl; try done.
  - case_decide; simpl; [done|]. apply elem_of_app. right.
    by apply list_elem_of_singleton.
  - case_decide; simpl; [done|]. apply elem_of_app. by left.
Qed.

Lemma QueuedTransport_idempotent : IdempotentApply QueuedTransport.
Proof.
  intros c pc Hc. apply applied_added in Hc. simpl.
  by rewrite decide_True.
Qed.


(** On the same snapshots the candidate carried twice is handed to
    [addIceCandidate] twice, and the connection holds it once. *)
Lemma overlapping_snapshots_call_twice :
  let l := InitiatorListener Scenario.code531204 in
  let w := Scenario.the_queued Scenario.queued_initiator in
  let w' := deliver l Scenario.overlapping w in
  applications Scenario.host1 w = 0%nat /\
  applications Scenario.host1 w' = 2%nat /\
  addedCandidates <$> peerConnection (refs w')
    = Some [Scenario.host1; Scenario.host2].
Proof. vm_compute. repeat split; done. Qed.

(** C8, on the record of 531204: the initiator's listener has handed the
    answer to [setRemoteDescription] and the operation has not completed
    when the next snapshot, with the same answer and the first candidate
    of the responder, is delivered.  The answer is applied a second
    time. *)
Lemma remote_description_applied_again_before_settling :
  let l := InitiatorListener Scenario.code531204 in
  let w := Scenario.the_queued Scenario.answer_requested in
  let data := Some (Scenario.answered [Scenario.host1]) in
  peerConnection (refs w) <> None /\
  listeners w !! 0%nat = Some l /\
  remote_applications w = 1%nat /\
  noRemoteDescription w = true /\
  step Scenario.app (SnapshotDelivered 0 data) w = Some (snapshot l data w) /\
  remote_applications (snapshot l data w) = 2%nat /\
  calls (snapshot l data w) !! length (calls w)
    = Some (CallSetRemoteDescription
              {| sdp := "v=0 answer"; type := "answer" |}).
Proof.
  intros l w data.
  assert (Hpc : peerConnection (refs w) <> None)
    by (vm_compute; discriminate).
  destruct (remote_description_applied_whenever_unset l data w Hpc)
    as [Hcount Hcall].
  split; [exact Hpc|]. split; [vm_compute; reflexivity|].
  split; [vm_compute; reflexivity|]. split; [vm_compute; reflexivity|].
  split; [vm_compute; reflexivity|]. split.
  - rewrite Hcount. vm_compute. reflexivity.
  - apply Hcall; vm_compute; reflexivity.
Defined.

(** Once the operation has completed the guard holds: the same snapshot
    applies nothing. *)
Lemma settling_closes_the_guard :
  let l := InitiatorListener Scenario.code531204 in
  let w := Scenario.settle (Scenario.the_queued Scenario.answer_requested) in
  let data := Some (Scenario.answered [Scenario.host1]) in
  noRemoteDescription w = false /\
  remote_applications w = 1%nat /\
  remote_applications (snapshot l data w) = 1%nat.
Proof. vm_compute. done. Qed.


(** Why the nearest integer is stated up to a size: at a ratio just below
    97.5 per cent of about 5.5 * 10^15 bytes the two roundings of the
    quotient and of the product add up, and the percentage is 98. *)
Lemma progress_beyond_the_bound :
  JS.int_value
    (progress (JS.of_Z 5335602639980252) (JS.of_Z 5472412964082310))
    = Some 98 /\
  97 * 5472412964082310 < 100 * 5335602639980252 /\
  2 * (100 * 5335602639980252) < (2 * 97 + 1) * 5472412964082310.
Proof. vm_compute. repeat split; done. Qed.


(** A percentage that ends in one half goes either way: 29 of 200 bytes
    are 14.5 per cent and give 14, 1 of 8 bytes are 12.5 per cent and
    give 13. *)
Lemma progress_on_halves :
  JS.int_value (progress (JS.of_Z 29) (JS.of_Z 200)) = Some 14 /\
  JS.int_value (progress (JS.of_Z 1) (JS.of_Z 8)) = Some 13.
Proof. vm_compute. done. Qed.

(** C6, on the empty file: one chunk, the empty one, is sent, where
    [ceil (0 / C)] is 0. *)
Lemma empty_file_is_one_chunk :
  exists w dc,
    Scenario.sent_empty = Some w /\
    dataChannel (refs w) = Some dc /\
    size Scenario.empty_file = 0%nat /\
    binary_payloads (sent dc) = [[]] /\
    ceil_div (size Scenario.empty_file) CHUNK_SIZE = 0%nat /\
    length (binary_payloads (sent dc))
      <> ceil_div (size Scenario.empty_file) CHUNK_SIZE.
Proof.
  eexists _, _. split; [vm_compute; reflexivity|].
  split; [vm_compute; reflexivity|]. vm_compute. repeat split; done.
Qed.

Lemma chunking_round_trip_on_three_bytes :
  let f := Scenario.three_bytes in
  let w := Scenario.the Scenario.initiator in
  let dc := Scenario.fresh_channel in
  let metadata :=
    JS.Obj [("name", JS.Str (name f));
            ("size", JS.Num (JS.of_Z (Z.of_nat (size f))))] in
  let n := Nat.max 1 (ceil_div (size f) 2) in
  (0 < 2)%nat /\ dataChannel (refs w) = Some dc /\
  exists w' dc' chunks,
    sendFileInChunks_with (S (size f)) 2 initialState f w = Some w' /\
    dataChannel (refs w') = Some dc' /\
    sent dc' = sent dc ++ Text (JSON_stringify metadata) :: (Binary <$> chunks) /\
    length chunks = n /\
    ((0 < size f)%nat -> n = ceil_div (size f) 2) /\
    (size f = 0%nat -> chunks = [[]]) /\
    (forall i, (i < n)%nat ->
       chunks !! i = Some (Blob_slice (i * 2) (i * 2 + 2) (content f))) /\
    Forall (fun chunk => (length chunk <= 2)%nat) chunks /\
    Blob chunks = content f /\
    (forall receiver : World,
       receivedChunks (refs receiver) = [] ->
       Blob (receivedChunks (refs (receive (Binary <$> chunks) receiver)))
         = content f).
Proof.
  split; [lia|]. split; [vm_compute; reflexivity|].
  apply (chunking_round_trip 2 initialState Scenario.three_bytes
           (Scenario.the Scenario.initiator) Scenario.fresh_channel).
  - lia.
  - vm_compute; reflexivity.
Defined.

(** The transfer end to end, on three bytes in chunks of two: the
    receiver's download is the file. *)
Lemma transfer_of_three_bytes :
  let f := Scenario.three_bytes in
  exists w' dc',
    sendFileInChunks_with (S (size f)) 2 initialState f
      (Scenario.the Scenario.initiator) = Some w' /\
    dataChannel (refs w') = Some dc' /\
    downloads (receive (sent dc') (Scenario.the Scenario.awaiting)) =
      [{| download := "abc.txt";
          fileBlob := [Byte.x61; Byte.x62; Byte.x63] |}].
Proof.
  apply (transfer_delivers_file_with 2 initialState Scenario.three_bytes
           (Scenario.the Scenario.initiator) Scenario.fresh_channel
           (Scenario.the Scenario.awaiting)).
  - lia.
  - vm_compute; reflexivity.
  - reflexivity.
  - vm_compute; reflexivity.
  - vm_compute; reflexivity.
Qed.

(* ===================================================================== *)
(** * Sessions, the store and the transfer on the scenarios *)
(* ===================================================================== *)

(** The worlds of the scenarios are states the events lead to. *)
Lemma initiator_reachable :
  reachable Scenario.app (Scenario.the Scenario.initiator).
Proof.
  apply (run_reachable Scenario.app
           [SelectFile (Some Scenario.one_byte) Scenario.random531204]
           (initialWorld ∅)).
  - apply reachable_initial.
  - vm_compute; reflexivity.
Qed.

Lemma responder_reachable :
  reachable Scenario.app (Scenario.the Scenario.responder).
Proof.
  apply (run_reachable Scenario.app [ClickReceive; SubmitCode "482913"]
           (initialWorld {[ Scenario.code482913 := Scenario.offered ]})).
  - apply reachable_initial.
  - vm_compute; reflexivity.
Qed.

Lemma receiving_one_reachable :
  reachable Scenario.app (Scenario.the Scenario.receiving_one).
Proof.
  apply (run_reachable Scenario.app
           [ClickReceive; SubmitCode "482913"; DataChannelAnnounced;
            ChannelOpen; ChannelMessage (Text Scenario.metadata_text);
            ChannelMessage (Binary [Byte.x41])]
           (initialWorld {[ Scenario.code482913 := Scenario.offered ]})).
  - apply reachable_initial.
  - vm_compute; reflexivity.
Qed.

(** X1, on the initiator of the one-byte file. *)
Lemma main_view_iff_no_connection_on_initiator :
  let w := Scenario.the Scenario.initiator in
  (renderContent (react w) = MainView <-> peerConnection (refs w) = None) /\
  mode (react w) <> transfer.
Proof.
  exact (main_view_iff_no_connection Scenario.app
           (Scenario.the Scenario.initiator) initiator_reachable).
Defined.

(** X2, on the receiver that has one of two bytes. *)
Lemma counter_matches_buffer_on_one_byte :
  let w := Scenario.the Scenario.receiving_one in
  receivedFileSize (refs w) = 1 /\
  receivedFileSize (refs w)
    = Z.of_nat (length (Blob (receivedChunks (refs w)))).
Proof.
  split; [vm_compute; reflexivity|].
  exact (counter_matches_buffer Scenario.app
           (Scenario.the Scenario.receiving_one) receiving_one_reachable).
Defined.

(** X3, on the responder of 482913 and a host candidate. *)
Lemma local_candidate_goes_to_own_record_on_responder :
  let w := Scenario.the Scenario.responder in
  let c := Scenario.host1 in
  let callDocRef := getFileTransferDocRef Scenario.app (shareCode (react w)) in
  exists w', step Scenario.app (LocalCandidate (Some c)) w = Some w' /\
    (forall ref, ref <> callDocRef -> db w' !! ref = db w !! ref) /\
    match db w !! callDocRef with
    | None => w' = w
    | Some d =>
        exists d' l', db w' !! callDocRef = Some d' /\
          offer d' = offer d /\ answer d' = answer d /\
          peers_candidates (react w) d' = peers_candidates (react w) d /\
          own_candidates (react w) d' = Some l' /\ c ∈ l' /\
          default [] (own_candidates (react w) d) `prefix_of` l'
    end.
Proof.
  apply (local_candidate_goes_to_own_record Scenario.app
           (Scenario.the Scenario.responder) Scenario.host1
           responder_reachable).
  vm_compute; discriminate.
Defined.

(** X4, on a cancellation by the initiator: its listener stays
    subscribed. *)
Lemma subscriptions_outlive_sessions_on_cancel :
  let w := Scenario.the Scenario.initiator in
  let w' := Scenario.the Scenario.cancelled in
  step Scenario.app ClickCancel w = Some w' /\
  listeners w = [InitiatorListener Scenario.code531204] /\
  listeners w `prefix_of` listeners w' /\
  timers w `prefix_of` timers w'.
Proof.
  split; [vm_compute; reflexivity|]. split; [vm_compute; reflexivity|].
  apply (subscriptions_outlive_sessions Scenario.app ClickCancel
           (Scenario.the Scenario.initiator)
           (Scenario.the Scenario.cancelled)).
  vm_compute; reflexivity.
Defined.

(** X5, on the listener the cancelled initiator has left behind. *)
Lemma snapshot_without_connection_on_cancelled :
  let w := Scenario.the Scenario.cancelled in
  let l := InitiatorListener Scenario.code531204 in
  let data := Some (Scenario.answered [Scenario.host1]) in
  listeners w !! 0%nat = Some l /\
  mode (react w) = idle /\
  snapshot l data w = setStatus ReceiverConnected w.
Proof.
  split; [vm_compute; reflexivity|]. split; [vm_compute; reflexivity|].
  apply (snapshot_without_connection
           (InitiatorListener Scenario.code531204)
           (Some (Scenario.answered [Scenario.host1]))
           (Scenario.the Scenario.cancelled)).
  vm_compute; reflexivity.
Defined.

(** X6, on the selection of the one-byte file. *)
Lemma records_are_created_by_setDoc_only_on_selection :
  let w := initialWorld ∅ in
  let w' := Scenario.the Scenario.initiator in
  dom (db w')
    = {[ getFileTransferDocRef Scenario.app
           (newShareCode Scenario.random531204) ]} ∪ dom (db w).
Proof.
  apply (records_are_created_by_setDoc_only Scenario.app
           (SelectFile (Some Scenario.one_byte) Scenario.random531204)
           (initialWorld ∅) (Scenario.the Scenario.initiator)).
  vm_compute; reflexivity.
Defined.


(** X8, on the one-byte file and two fresh clients. *)
Lemma offer_answer_exchange_on_one_byte :
  let initiator : @World PlainTransport := initialWorld ∅ in
  let responder : @World PlainTransport := initialWorld ∅ in
  let pc0 := createDataChannel "file-transfer" new_RTCPeerConnection in
  let code := newShareCode Scenario.random531204 in
  let callDocRef := getFileTransferDocRef Scenario.app code in
  let offerDescription := createOffer pc0 in
  let answerDescription :=
    createAnswer (setRemoteDescription offerDescription
                    new_RTCPeerConnection) in
  let i1 := handleFileChange Scenario.app initialState
              (Some Scenario.one_byte) Scenario.random531204 initiator in
  let r1 := handleReceiveSubmit Scenario.app code
              (with_db (db i1) responder) in
  let r2 := snapshot (ResponderListener callDocRef) (db r1 !! callDocRef) r1 in
  let i2 := snapshot (InitiatorListener callDocRef) (db r2 !! callDocRef)
              (with_db (db r2) i1) in
  listeners i1 = listeners initiator ++ [InitiatorListener callDocRef] /\
  listeners r1 = listeners responder ++ [ResponderListener callDocRef] /\
  calls r2 = calls responder
             ++ [CallSetRemoteDescription offerDescription;
                 CallSetLocalDescription answerDescription;
                 CallUpdateDoc callDocRef] /\
  db r2 !! callDocRef =
    Some {| offer := Some offerDescription; offerCandidates := Some [];
            answer := Some answerDescription;
            answerCandidates := Some [] |} /\
  peerConnection (refs r2) =
    Some (setLocalDescription answerDescription
            (setRemoteDescription offerDescription new_RTCPeerConnection)) /\
  status (react r2) = AnswerSent /\
  calls i2 = calls i1 ++ [CallSetRemoteDescription answerDescription] /\
  peerConnection (refs i2) =
    Some (setRemoteDescription answerDescription
            (setLocalDescription offerDescription pc0)) /\
  status (react i2) = ReceiverConnected.
Proof.
  exact (offer_answer_exchange Scenario.app initialState Scenario.one_byte
           Scenario.random531204 (initialWorld ∅) (initialWorld ∅)
           eq_refl eq_refl).
Defined.

(** X9, on the initiator of 531204 and the responder that has submitted
    its code. *)
Lemma published_candidate_reaches_peer_on_531204 :
  let publisher := Scenario.the Scenario.initiator in
  let peer := Scenario.the Scenario.responder531204 in
  let c := Scenario.host1 in
  let callDocRef := Scenario.code531204 in
  let l := ResponderListener callDocRef in
  let store := db (icecandidate (Some c) publisher) in
  let peer' := snapshot l (store !! callDocRef) (with_db store peer) in
  listeners peer !! 0%nat = Some l /\
  c ∈ peer_candidates l (store !! callDocRef) /\
  (applications c peer < applications c peer')%nat.
Proof.
  split; [vm_compute; reflexivity|].
  apply (published_candidate_reaches_peer Scenario.host1
           Scenario.code531204 (ToOfferCandidates Scenario.code531204)
           (ResponderListener Scenario.code531204)
           (Scenario.the Scenario.initiator)
           (Scenario.the Scenario.responder531204)).
  - left. done.
  - vm_compute; reflexivity.
  - vm_compute. eauto.
  - vm_compute; discriminate.
Defined.

(** X10, on the second of two bytes: the file is downloaded. *)
Lemma download_exactly_at_announced_size_on_last_byte :
  let w := Scenario.the Scenario.receiving_one in
  let chunk := [Byte.x42] in
  let received := receivedFileSize (refs w) + Z.of_nat (length chunk) in
  let '(w', e) := handleReceiveMessage (Binary chunk) w in
  e = None /\
  receivedChunks (refs w') = receivedChunks (refs w) ++ [chunk] /\
  receivedFileSize (refs w') = received /\
  fileMetadata (refs w') = fileMetadata (refs w) /\
  if decide (received = 2)
  then downloads w' =
         downloads w
         ++ [{| download := "doc.bin";
                fileBlob := Blob (receivedChunks (refs w) ++ [chunk]) |}] /\
       timers w' = timers w ++ [ReceiverTeardown] /\
       status (react w') = FileDownloaded
  else downloads w' = downloads w /\ timers w' = timers w /\
       status (react w')
         = Downloading (progress (JS.of_Z received) (JS.of_Z 2)).
Proof.
  apply (download_exactly_at_announced_size [Byte.x42]
           (Scenario.the Scenario.receiving_one)
           [("name", JS.Str "doc.bin"); ("size", JS.Num (JS.of_Z 2))]
           2 "doc.bin").
  - vm_compute; reflexivity.
  - vm_compute; reflexivity.
  - vm_compute; reflexivity.
  - lia.
  - vm_compute. split; [discriminate|reflexivity].
Defined.

(** X11, on metadata that are the empty object. *)
Lemma size_not_a_number_never_completes_on_empty_object :
  let w := Scenario.the Scenario.no_size in
  let chunks := [[Byte.x41]; [Byte.x42]] in
  let w' := receive (Binary <$> chunks) w in
  fileMetadata (refs w) = JS.Obj [] /\
  downloads w' = downloads w /\ timers w' = timers w /\
  receivedChunks (refs w') = receivedChunks (refs w) ++ chunks.
Proof.
  split; [vm_compute; reflexivity|].
  apply (size_not_a_number_never_completes [[Byte.x41]; [Byte.x42]]
           (Scenario.the Scenario.no_size)).
  intros x. vm_compute. discriminate.
Defined.

(** X12, on the one-byte file, from the initiator of 531204 to the
    responder that has submitted its code. *)
Lemma transfer_ends_in_download_on_one_byte :
  let w := Scenario.the Scenario.initiator in
  let receiver := Scenario.the Scenario.awaiting531204 in
  exists w' dc',
    sendFileInChunks initialState Scenario.one_byte w = Some w' /\
    dataChannel (refs w') = Some dc' /\
    status (react w') = FileSent /\
    timers w' = timers w ++ [SenderTeardown initialState] /\
    let receiver' := receive (sent dc') receiver in
    downloads receiver' =
      downloads receiver
      ++ [{| download := name Scenario.one_byte;
             fileBlob := content Scenario.one_byte |}] /\
    timers receiver' = timers receiver ++ [ReceiverTeardown] /\
    status (react receiver') = FileDownloaded.
Proof.
  apply (transfer_ends_in_download initialState Scenario.one_byte
           (Scenario.the Scenario.initiator) Scenario.fresh_channel
           (Scenario.the Scenario.awaiting531204)).
  - vm_compute; reflexivity.
  - reflexivity.
  - vm_compute; reflexivity.
  - vm_compute; reflexivity.
Defined.

(** X13, on a client without a channel. *)
Lemma sending_without_channel_reports_success_on_idle :
  let w : @World PlainTransport := initialWorld ∅ in
  sendFileInChunks initialState Scenario.one_byte w
    = Some (setTimeout (SenderTeardown initialState) (setStatus FileSent w)).
Proof.
  apply (sending_without_channel_reports_success initialState
           Scenario.one_byte (initialWorld ∅)).
  reflexivity.
Defined.

(** X14, on a total of two bytes. *)
Lemma progress_endpoints_on_two :
  progress (JS.of_Z 0) (JS.of_Z 2) = JS.of_Z 0 /\
  progress (JS.of_Z 2) (JS.of_Z 2) = JS.of_Z 100 /\
  JS.int_value (progress (JS.of_Z 2) (JS.of_Z 2)) = Some 100.
Proof. apply (progress_endpoints 2). lia. Defined.


(** X18, on a file of three bytes. *)
Lemma chunks_are_full_but_the_last_on_three_bytes :
  let w := Scenario.the Scenario.initiator in
  let f := Scenario.three_bytes in
  let dc := Scenario.fresh_channel in
  let metadata :=
    JS.Obj [("name", JS.Str (name f));
            ("size", JS.Num (JS.of_Z (Z.of_nat (size f))))] in
  exists w' dc' chunks,
    sendFileInChunks initialState f w = Some w' /\
    dataChannel (refs w') = Some dc' /\
    sent dc' = sent dc ++ Text (JSON_stringify metadata) :: (Binary <$> chunks) /\
    (forall i chunk,
       chunks !! i = Some chunk -> (S i < length chunks)%nat ->
       length chunk = CHUNK_SIZE) /\
    (forall chunk,
       last chunks = Some chunk ->
       length chunk = (size f - (length chunks - 1) * CHUNK_SIZE)%nat /\
       (length chunk <= CHUNK_SIZE)%nat /\
       ((0 < size f)%nat -> (0 < length chunk)%nat)) /\
    sum_list (length <$> chunks) = size f.
Proof.
  apply (chunks_are_full_but_the_last initialState Scenario.three_bytes
           (Scenario.the Scenario.initiator) Scenario.fresh_channel).
  vm_compute; reflexivity.
Defined.
